(** * Velocity report: aggregation, rendering and chunking

    A shallow embedding of the pure parts of [src/index.js] (the GitLab/GitHub
    to Discord velocity report) together with the properties its
    specification states about them.

    Conventions.
    - A JavaScript string handed to the chunker is a list of UTF-16 code
      units ([js_string]); the chunker only compares code units with the
      newline and counts them.
    - The renderer's strings are [string]s holding the literals as they are
      written in the source file, in UTF-8; the length of such a string is
      counted in UTF-16 code units ([js_length]), as [.length] counts it.
    - A JavaScript number that counts something is a [nat]; where the source
      divides, the operands are converted to binary64 ([SpecFloat]) and the
      IEEE operations are the ones of the standard library's specification.
    - A field that may be [undefined]/[null] is an [option]; truthiness of a
      string field is "present and not empty".
    - A [Map] or a [Set] is the list of its entries in insertion order.
    - What the network returns is an argument of the function that
      processes it: the repositories, projects, commits, pull requests and
      issues delivered, and the pages of a listing. *)

From Stdlib Require Import List Arith ZArith NArith Bool Lia.
From Stdlib Require Strings.String Strings.Ascii Numbers.DecimalString.
From Stdlib Require Import Sorting.Permutation Sorting.Sorted.
From Stdlib Require Import Floats.SpecFloat.
Import ListNotations.

(* ================================================================== *)
(** * Chunker and dispatcher ([chunkMessage], [postMessageBlocks])     *)
(* ================================================================== *)

Module Chunker.

Definition code_unit := N.
Definition js_string := list code_unit.

(** ["\n"] *)
Definition NL : code_unit := 10%N.

(** Truthiness of a string: [if (s)] holds exactly for non-empty strings. *)
Definition truthy (s : js_string) : bool :=
  match s with [] => false | _ :: _ => true end.

(** [text.split("\n")]: the maximal newline-free pieces, in order; the empty
    string splits into one empty piece. *)
Fixpoint split_nl (s : js_string) : list js_string :=
  match s with
  | [] => [[]]
  | c :: s' =>
      if N.eqb c NL then [] :: split_nl s'
      else match split_nl s' with
           | l :: ls => (c :: l) :: ls
           | [] => [[c]]
           end
  end.

(** [lines.join("\n")] *)
Fixpoint join_nl (ls : list js_string) : js_string :=
  match ls with
  | [] => []
  | [l] => l
  | l :: ls' => l ++ NL :: join_nl ls'
  end.

(** [line.slice(i, j)] for [0 <= i <= j]. *)
Definition slice (line : js_string) (i j : nat) : js_string :=
  firstn (j - i) (skipn i line).

(** The inner [while (index < line.length)] loop.  It gives [None] when the
    fuel runs out, which only happens when the loop does not terminate
    ([limit = 0]). *)
Fixpoint hardSplit (fuel : nat) (line : js_string) (limit index : nat)
    (chunks : list js_string) : option (list js_string) :=
  if index <? length line then
    match fuel with
    | O => None
    | S fuel' =>
        hardSplit fuel' line limit (index + limit)
                  (chunks ++ [slice line index (index + limit)])
    end
  else Some chunks.

(** One iteration of [for (const line of lines)], on the loop state
    [(chunks, current)]. *)
Definition step (limit : nat) (st : list js_string * js_string)
    (line : js_string) : option (list js_string * js_string) :=
  let '(chunks, current) := st in
  let candidate := if truthy current then current ++ NL :: line else line in
  if length candidate <=? limit then Some (chunks, candidate)
  else
    let chunks1 := if truthy current then chunks ++ [current] else chunks in
    if length line <=? limit then Some (chunks1, line)
    else
      match hardSplit (length line) line limit 0 chunks1 with
      | Some chunks2 => Some (chunks2, [])
      | None => None
      end.

Fixpoint loop (limit : nat) (lines : list js_string)
    (st : list js_string * js_string) : option (list js_string * js_string) :=
  match lines with
  | [] => Some st
  | line :: rest =>
      match step limit st line with
      | Some st' => loop limit rest st'
      | None => None
      end
  end.

(** [chunkMessage(text, limit)]; [None] stands for a run that never
    returns. *)
Definition chunkMessage (text : js_string) (limit : nat)
    : option (list js_string) :=
  if truthy text then
    match loop limit (split_nl text) ([], []) with
    | Some (chunks, current) =>
        Some (if truthy current then chunks ++ [current] else chunks)
    | None => None
    end
  else Some [].

(** The default of the [limit] parameter. *)
Definition DEFAULT_LIMIT : nat := 1800.

(** ** The chunker with its boundaries recorded

    The same loop, where every chunk also carries the number of newline code
    units the loop consumed between the end of the previous chunk and the
    start of this one: [0] in front of a piece cut inside an over-long line,
    one for the line break at which a chunk was flushed, and one more for
    every empty line that was skipped while [current] was empty. *)

Fixpoint hardSplit_sep (fuel : nat) (line : js_string) (limit index : nat)
    (sep : nat) (chunks : list (nat * js_string))
    : option (list (nat * js_string)) :=
  if index <? length line then
    match fuel with
    | O => None
    | S fuel' =>
        hardSplit_sep fuel' line limit (index + limit) 0
                      (chunks ++ [(sep, slice line index (index + limit))])
    end
  else Some chunks.

(** [nl] is the number of newlines in front of [line]: none for the first
    line of the text and one for every later line. *)
Definition step_sep (limit nl : nat)
    (st : list (nat * js_string) * js_string * nat) (line : js_string)
    : option (list (nat * js_string) * js_string * nat) :=
  let '(chunks, current, sep) := st in
  let candidate := if truthy current then current ++ NL :: line else line in
  if length candidate <=? limit then
    Some (chunks, candidate, if truthy current then sep else sep + nl)
  else
    let chunks1 := if truthy current then chunks ++ [(sep, current)] else chunks in
    let sep1 := if truthy current then nl else sep + nl in
    if length line <=? limit then Some (chunks1, line, sep1)
    else
      match hardSplit_sep (length line) line limit 0 sep1 chunks1 with
      | Some chunks2 => Some (chunks2, [], 0)
      | None => None
      end.

Fixpoint loop_sep (limit nl : nat) (lines : list js_string)
    (st : list (nat * js_string) * js_string * nat)
    : option (list (nat * js_string) * js_string * nat) :=
  match lines with
  | [] => Some st
  | line :: rest =>
      match step_sep limit nl st line with
      | Some st' => loop_sep limit 1 rest st'
      | None => None
      end
  end.

Definition chunkMessage_sep (text : js_string) (limit : nat)
    : option (list (nat * js_string)) :=
  if truthy text then
    match loop_sep limit 0 (split_nl text) ([], [], 0) with
    | Some (chunks, current, sep) =>
        Some (if truthy current then chunks ++ [(sep, current)] else chunks)
    | None => None
    end
  else Some [].

(** Putting the chunks back together, each preceded by the newlines that
    were consumed in front of it. *)
Definition rejoin (tagged : list (nat * js_string)) : js_string :=
  concat (map (fun p => repeat NL (fst p) ++ snd p) tagged).

(** The same with a single newline wherever newlines were consumed, and
    nothing at a cut inside a line. *)
Definition rejoin_single (tagged : list (nat * js_string)) : js_string :=
  concat (map (fun p => (if fst p =? 0 then [] else [NL]) ++ snd p) tagged).

(** Concatenating chunks with a list of separators put back between
    consecutive chunks. *)
Fixpoint weave (chunks seps : list js_string) : js_string :=
  match chunks with
  | [] => []
  | [c] => c
  | c :: rest =>
      match seps with
      | s :: seps' => c ++ s ++ weave rest seps'
      | [] => c ++ weave rest []
      end
  end.

(** A separator allowed at a chunk boundary: a newline or nothing. *)
Definition boundary_sep (s : js_string) : Prop := s = [] \/ s = [NL].

(** ** [String.prototype.trim] *)

(** White space and line terminators of ECMAScript. *)
Definition is_space (c : code_unit) : bool :=
  existsb (N.eqb c)
    [9; 10; 11; 12; 13; 32; 160; 5760; 8192; 8193; 8194; 8195; 8196; 8197;
     8198; 8199; 8200; 8201; 8202; 8232; 8233; 8239; 8287; 12288; 65279]%N.

Fixpoint trimStart (s : js_string) : js_string :=
  match s with
  | c :: s' => if is_space c then trimStart s' else s
  | [] => []
  end.

Definition trim (s : js_string) : js_string :=
  rev (trimStart (rev (trimStart s))).

(** [blocks.filter(Boolean)]: absent and empty blocks are dropped. *)
Fixpoint filter_Boolean (blocks : list (option js_string)) : list js_string :=
  match blocks with
  | [] => []
  | Some b :: rest =>
      if truthy b then b :: filter_Boolean rest else filter_Boolean rest
  | None :: rest => filter_Boolean rest
  end.

(** [.join("\n\n")] *)
Fixpoint join_blank (bs : list js_string) : js_string :=
  match bs with
  | [] => []
  | [b] => b
  | b :: bs' => b ++ NL :: NL :: join_blank bs'
  end.

Definition group_content (blocks : list (option js_string)) : js_string :=
  trim (join_blank (filter_Boolean blocks)).

(** [postMessageBlocks(blocks)]: the list of payloads posted to the webhook,
    in order. *)
Definition postMessageBlocks (blocks : list (option js_string))
    : option (list js_string) :=
  let content := group_content blocks in
  if truthy content then
    match chunkMessage content DEFAULT_LIMIT with
    | Some chunks => Some (filter (fun chunk => truthy (trim chunk)) chunks)
    | None => None
    end
  else Some [].

(** ** Auxiliary notions used to state the loop invariants *)

(** The text laid out again from its lines, each line after the first
    preceded by a newline, the first by [nl] newlines. *)
Definition laid (nl : nat) (lines : list js_string) : js_string :=
  match lines with
  | [] => []
  | l :: rest => repeat NL nl ++ l ++ concat (map (cons NL) rest)
  end.

(** A chunk that is non-empty and within the limit. *)
Definition piece_ok (limit : nat) (c : js_string) : Prop :=
  0 < length c <= limit.

(** Number of pieces of [n] code units cut at [limit]:
    [ceil (n / limit)]. *)
Definition pieces_count (n limit : nat) : nat := (n + limit - 1) / limit.

Definition state_ok (limit : nat) (st : list js_string * js_string) : Prop :=
  Forall (piece_ok limit) (fst st) /\ length (snd st) <= limit.

(** Dropping the recorded separators from a state of the recording loop. *)
Definition forget (st : list (nat * js_string) * js_string * nat)
    : list js_string * js_string :=
  (map snd (fst (fst st)), snd (fst st)).

(** The text consumed so far, as the state accounts for it. *)
Definition accounted (st : list (nat * js_string) * js_string * nat)
    : js_string :=
  let '(chunks, current, sep) := st in
  rejoin chunks ++ repeat NL sep ++ current.

(** The recorded separators are single newlines. *)
Definition single_seps (st : list (nat * js_string) * js_string * nat)
    : Prop :=
  let '(chunks, current, sep) := st in
  Forall (fun p => fst p <= 1) chunks
  /\ sep <= 1 /\ (current = [] -> sep = 0).

(** A code unit other than the newline. *)
Definition not_newline (c : code_unit) : bool := negb (N.eqb c NL).

End Chunker.

(* ================================================================== *)
(** * JavaScript numbers and the built-ins the report uses            *)
(* ================================================================== *)

Module JsNumber.

Local Open Scope Z_scope.

(** A Number is an IEEE 754 binary64 value. *)
Definition prec : Z := 53.
Definition emax : Z := 1024.
Definition number := spec_float.

(** The Number of an integer (exact below [2^53]). *)
Definition of_Z (z : Z) : number := binary_normalize prec emax z 0 false.
Definition of_nat (n : nat) : number := of_Z (Z.of_nat n).

(** [x / y], [x * y], [x + y], [x - y], [x <= y], [Math.abs(x)]. *)
Definition div (x y : number) : number := SFdiv prec emax x y.
Definition mul (x y : number) : number := SFmul prec emax x y.
Definition add (x y : number) : number := SFadd prec emax x y.
Definition sub (x y : number) : number := SFsub prec emax x y.
Definition leb (x y : number) : bool := SFleb x y.
Definition Math_abs (x : number) : number := SFabs x.

(** The sign of a comparator's result, as [sort] reads it: negative,
    positive, or neither ([0], [-0] and [NaN]). *)
Definition sign (x : number) : Z :=
  match x with
  | S754_finite s _ _ | S754_infinity s => if s then -1 else 1
  | S754_zero _ | S754_nan => 0
  end.

(** What [Math.round] can return: an integer, [NaN] or an infinity. *)
Inductive integral : Type :=
| JInt (k : Z)
| JNaN
| JInf (negative : bool).

(** [floor (v * scale + 1/2)] for the finite value [v = (-1)^s * m * 2^e]. *)
Definition round_half_up_scaled (scale : Z) (s : bool) (m : positive) (e : Z)
    : Z :=
  let sm := scale * (if s then Z.neg m else Z.pos m) in
  if 0 <=? e then sm * 2 ^ e
  else (2 * sm + 2 ^ (- e)) / (2 * 2 ^ (- e)).

(** [Math.round(x)]: the nearest integer, a tie going up. *)
Definition Math_round (x : number) : integral :=
  match x with
  | S754_zero _ => JInt 0
  | S754_finite s m e => JInt (round_half_up_scaled 1 s m e)
  | S754_infinity s => JInf s
  | S754_nan => JNaN
  end.

(** ** Notions used to state what rounding does *)

(** The rational [N / D] lies in [[m, m + 1)], at the place [l] tells:
    on [m], below, on or above the midpoint. *)
Definition located (N D m : Z) (l : location) : Prop :=
  match l with
  | loc_Exact => N = m * D
  | loc_Inexact Lt => m * D < N /\ 2 * N < (2 * m + 1) * D
  | loc_Inexact Eq => 2 * N = (2 * m + 1) * D
  | loc_Inexact Gt => (2 * m + 1) * D < 2 * N /\ N < (m + 1) * D
  end.

(** The exponent of the last place of a binary64 value of magnitude
    [2^e]. *)
Definition fexp64 (e : Z) : Z := fexp prec emax e.

End JsNumber.

(* ================================================================== *)
(** * Strings of the renderer                                          *)
(* ================================================================== *)

Module JsString.

Import Strings.String Strings.Ascii.
Local Open Scope string_scope.

(** Truthiness of a string value. *)
Definition nonempty (s : string) : bool := negb (String.eqb s "").

(** Truthiness of a field that may be [undefined], [null] or a string. *)
Definition truthy (o : option string) : bool :=
  match o with
  | Some s => nonempty s
  | None => false
  end.

(** [a || b] where [b] is a string. *)
Definition or_else (a : option string) (b : string) : string :=
  match a with
  | Some s => if nonempty s then s else b
  | None => b
  end.

(** [s.length]: the number of UTF-16 code units of the text whose UTF-8
    encoding the string holds.  A character of one, two or three bytes is
    one code unit, a character of four bytes is two (a surrogate pair);
    the bytes that continue a character count for nothing. *)
Definition utf16_units (c : ascii) : nat :=
  let n := nat_of_ascii c in
  if Nat.ltb n 128 then 1
  else if Nat.ltb n 192 then 0
  else if Nat.ltb n 240 then 1
  else 2.

Fixpoint js_length (s : string) : nat :=
  match s with
  | EmptyString => 0
  | String c rest => utf16_units c + js_length rest
  end.

(** [list.join(sep)] *)
Definition join (sep : string) (l : list string) : string :=
  String.concat sep l.

(** [" ".repeat(n)] *)
Fixpoint spaces (n : nat) : string :=
  match n with
  | O => ""
  | S n' => String " " (spaces n')
  end.

(** [String(n)] for a non-negative integer. *)
Definition of_nat (n : nat) : string :=
  DecimalString.NilZero.string_of_uint (Nat.to_uint n).

(** [String(k)] for an integer. *)
Definition of_Z (k : Z) : string :=
  DecimalString.NilZero.string_of_int (Z.to_int k).

(** [String(r)] for a value returned by [Math.round]. *)
Definition of_integral (r : JsNumber.integral) : string :=
  match r with
  | JsNumber.JInt k => of_Z k
  | JsNumber.JNaN => "NaN"
  | JsNumber.JInf false => "Infinity"
  | JsNumber.JInf true => "-Infinity"
  end.

(** Digit grouping of [toLocaleString("en-US")]: a comma before every
    group of three digits, counted from the right.  [digits] is reversed. *)
Fixpoint group_rev (digits : list ascii) (k : nat) : list ascii :=
  match digits with
  | [] => []
  | d :: rest =>
      match k, rest with
      | 2, _ :: _ => d :: ","%char :: group_rev rest 0
      | _, _ => d :: group_rev rest (S k)
      end
  end.

(** [n.toLocaleString("en-US")] for a non-negative integer. *)
Definition toLocaleString (n : nat) : string :=
  string_of_list_ascii
    (rev (group_rev (rev (list_ascii_of_string (of_nat n))) 0)).

(** [s.includes("/")] *)
Fixpoint includes_slash (s : string) : bool :=
  match s with
  | EmptyString => false
  | String c rest => if Ascii.eqb c "/"%char then true else includes_slash rest
  end.

End JsString.

(** [Array.prototype.sort(cmp)], as a stable insertion sort: the element
    [a] goes in front of [b] when [cmp a b] is negative, behind it when
    positive, and keeps its place otherwise.  With the consistent
    comparators of this program every stable sort gives this result. *)
Module JsArray.

Section Sort.
Context {A : Type}.
Variable cmp : A -> A -> Z.

Fixpoint insert (x : A) (l : list A) : list A :=
  match l with
  | [] => [x]
  | y :: l' => if (cmp x y <=? 0)%Z then x :: l else y :: insert x l'
  end.

Fixpoint sort (l : list A) : list A :=
  match l with
  | [] => []
  | x :: l' => insert x (sort l')
  end.

End Sort.

(** [l.slice(0, n)] *)
Definition slice0 {A : Type} (n : nat) (l : list A) : list A := firstn n l.

End JsArray.

(** A [Map], as the list of its entries in insertion order: [set] on a key
    already present replaces the value where it stands, on a new key it
    appends; a [Set] is the list of its elements in insertion order. *)
Module JsMap.

Section Map.
Context {K V : Type}.
Variable eqb : K -> K -> bool.

Definition t : Type := list (K * V).

Fixpoint get (k : K) (m : t) : option V :=
  match m with
  | [] => None
  | (k', v) :: rest => if eqb k' k then Some v else get k rest
  end.

Definition has (k : K) (m : t) : bool :=
  match get k m with
  | Some _ => true
  | None => false
  end.

Fixpoint set (k : K) (v : V) (m : t) : t :=
  match m with
  | [] => [(k, v)]
  | (k', v') :: rest =>
      if eqb k' k then (k', v) :: rest else (k', v') :: set k v rest
  end.

Fixpoint delete (k : K) (m : t) : t :=
  match m with
  | [] => []
  | (k', v') :: rest =>
      if eqb k' k then rest else (k', v') :: delete k rest
  end.

Definition keys (m : t) : list K := map fst m.
Definition values (m : t) : list V := map snd m.

End Map.

End JsMap.

Module JsSet.

Section Set_.
Context {K : Type}.
Variable eqb : K -> K -> bool.

Definition has (k : K) (s : list K) : bool := existsb (eqb k) s.

Definition add (k : K) (s : list K) : list K :=
  if has k s then s else s ++ [k].

(** [new Set(list)] *)
Definition of_list (l : list K) : list K :=
  fold_left (fun s k => add k s) l [].

End Set_.

End JsSet.

(* ================================================================== *)
(** * Aggregation and rendering                                        *)
(* ================================================================== *)

(** The [author] object of a record. *)
Module Author.
Record t : Type := mk {
  name : option String.string;
  username : option String.string;
  email : option String.string
}.
End Author.

(** A normalized activity record (commit, merge/pull request or issue) with
    the fields the aggregator and the renderer read.  A time field holds the
    instant, in milliseconds since the epoch, that [dayjs] reads from the
    field, and [None] when the field is [null] or missing; [id] and [iid]
    are the numeric identifiers of requests and issues. *)
Module Entry.
Record t : Type := mk {
  id : option nat;
  iid : option nat;
  title : option String.string;
  author : option Author.t;
  author_name : option String.string;
  author_email : option String.string;
  created_at : option Z;
  updated_at : option Z;
  merged_at : option Z;
  closed_at : option Z;
  web_url : option String.string;
  projectName : option String.string
}.
End Entry.

(** A contributor summary, as [buildMemberSummaries] creates it. *)
Module Member.
Record t : Type := mk {
  name : String.string;
  commits : nat;
  commitPct : JsNumber.integral;
  mergedMrs : nat;
  openedMrs : nat;
  issuesOpened : nat;
  issuesClosed : nat
}.
End Member.

(** The per-repository bundle returned by the collectors. *)
Module Project.
Record t : Type := mk {
  projectId : String.string;
  projectName : String.string;
  projectPath : String.string;
  commits : list Entry.t;
  mrsOpened : list Entry.t;
  mrsMerged : list Entry.t;
  issuesOpened : list Entry.t;
  issuesClosed : list Entry.t;
  monthIssuesOpened : list Entry.t;
  monthIssuesClosed : list Entry.t
}.
End Project.

Module Report.

Import Strings.String Strings.Ascii.
Import JsString.
Local Open Scope string_scope.
Local Open Scope nat_scope.

(** Concatenation of arrays, kept apart from the concatenation of
    strings. *)
Local Infix "+++" := (@List.app _) (at level 60, right associativity).

(** ["\n"] *)
Definition nl : string := String (ascii_of_nat 10) "".

(** ** Literals of the source file that are not plain ASCII *)

Definition TEAM_METRICS_HEAD : string := "**‚öôÔ∏è Team Metrics**".
Definition ICON_COMMITS : string := "üßæ".
Definition ICON_PR_OPENED : string := "üìù".
Definition ICON_PR_MERGED : string := "‚úÖ".
Definition ICON_ISSUE_OPENED : string := "‚ûï".
Definition ICON_ISSUE_CLOSED : string := "‚úîÔ∏è".
Definition BULLET : string := "‚Ä¢".
Definition DASH : string := "‚Äî".
Definition ORG_HEAD_OPEN : string := "**üìÇ".
Definition PART_SEP : string := " ‚Ä¢ ".
Definition ICON_GITHUB : string := "üêô".
Definition ICON_GITLAB : string := "ü¶ä".
Definition ELLIPSIS : string := "‚Ä¶".
Definition MAJOR_FEATURES_HEAD : string := "**‚ú® Major Features Shipped**".
Definition BUG_ACTIVITY_HEAD : string := "**üêõ Bug Activity**".
Definition VELOCITY_HEAD : string := "**üöÄ Velocity Highlights**".
Definition MULTI_ORG_LINE : string := "‚Ä¢ Multi-org delivery üíº".
Definition REPO_TABLE_HEAD : string := "**üìä By Repository (Top 10)**".
Definition INACTIVE_OPEN : string := "_‚ÑπÔ∏è No tracked activity in ".
Definition TITLE_OPEN : string := "üìä".
Definition TITLE_DASH : string := "‚Äì".

(** ** Author resolution *)

(** [entry.author?.f] *)
Definition author_field (f : Author.t -> option string) (e : Entry.t)
    : option string :=
  match Entry.author e with
  | Some a => f a
  | None => None
  end.

(** [resolveAuthorName(entry)]; [None] is a [null] or [undefined] entry. *)
Definition resolveAuthorName (entry : option Entry.t) : string :=
  match entry with
  | None => "Unknown"
  | Some e =>
      or_else (author_field Author.name e)
        (or_else (author_field Author.username e)
           (or_else (Entry.author_name e)
              (or_else (Entry.author_email e)
                 (or_else (author_field Author.email e) "Unknown"))))
  end.

(** A field holding the non-empty string [s]; a field that is missing,
    [null] or the empty string. *)
Definition present (o : option string) (s : string) : Prop :=
  o = Some s /\ s <> "".

Definition absent (o : option string) : Prop :=
  o = None \/ o = Some "".

(** The record with every empty author field removed. *)
Definition clear (o : option string) : option string :=
  if truthy o then o else None.

Definition clear_blank (e : Entry.t) : Entry.t :=
  Entry.mk (Entry.id e) (Entry.iid e) (Entry.title e)
    (match Entry.author e with
     | Some a =>
         Some (Author.mk (clear (Author.name a)) (clear (Author.username a))
                 (clear (Author.email a)))
     | None => None
     end)
    (clear (Entry.author_name e)) (clear (Entry.author_email e))
    (Entry.created_at e) (Entry.updated_at e) (Entry.merged_at e)
    (Entry.closed_at e) (Entry.web_url e) (Entry.projectName e).

(** [map.get(key) || 0] *)
Definition get_or_zero (key : string) (map : JsMap.t (K := string) (V := nat))
    : nat :=
  match JsMap.get String.eqb key map with
  | Some n => n
  | None => 0
  end.

(** [groupItemsByAuthor(items)] *)
Definition groupItemsByAuthor (items : list Entry.t)
    : JsMap.t (K := string) (V := nat) :=
  fold_left
    (fun map item =>
       let key := resolveAuthorName (Some item) in
       JsMap.set String.eqb key (get_or_zero key map + 1) map)
    items [].

(** [groupCommitsByAuthor(commits)] *)
Definition groupCommitsByAuthor (commits : list Entry.t)
    : list (string * nat) :=
  JsArray.sort (fun a b => (Z.of_nat (snd b) - Z.of_nat (snd a))%Z)
    (groupItemsByAuthor commits).

(** ** Tables and counts *)

(** [formatCount(n)] *)
Definition formatCount (n : nat) : string := toLocaleString n.

Definition plural (n : nat) : string := if n =? 1 then "" else "s".

(** The column widths collected by the first pass of [formatTable]:
    [widths[idx] = Math.max(widths[idx] || 0, text.length)], the length
    being counted in UTF-16 code units. *)
Fixpoint widen (ws : list nat) (row : list string) : list nat :=
  match row, ws with
  | [], _ => ws
  | c :: row', [] => js_length c :: widen [] row'
  | c :: row', w :: ws' => Nat.max w (js_length c) :: widen ws' row'
  end.

(** One rendered row: every cell but the last is followed by
    [widths[idx] - text.length + 2] spaces. *)
Fixpoint render_row (ws : list nat) (row : list string) : string :=
  match row with
  | [] => ""
  | [c] => c
  | c :: row' =>
      c ++ spaces (hd 0 ws - js_length c + 2) ++ render_row (tl ws) row'
  end.

(** The widths [ws] hold every cell of [row]; the column at which the
    cell of index [i] starts when every earlier column takes its width
    plus two. *)
Definition fits (ws : list nat) (row : list string) : Prop :=
  List.length row <= List.length ws
  /\ forall j, j < List.length row ->
       js_length (nth j row "") <= nth j ws 0.

(** The widths [ws'] are at least the widths [ws]. *)
Definition no_narrower (ws ws' : list nat) : Prop :=
  List.length ws <= List.length ws'
  /\ forall j, nth j ws 0 <= nth j ws' 0.

Definition column_offset (ws : list nat) (i : nat) : nat :=
  list_sum (map (fun w => w + 2) (firstn i ws)).

(** [formatTable(rows)] *)
Definition formatTable (rows : list (list string)) : string :=
  match rows with
  | [] => ""
  | _ =>
      let widths := fold_left widen rows [] in
      "```text" ++ nl ++ join nl (map (render_row widths) rows) ++ nl ++ "```"
  end.

(** [formatTeamMetrics({...})] *)
Definition formatTeamMetrics (organizationSummary : string)
    (totalMRMerged totalMROpened totalCommits totalIssuesOpened
     totalIssuesClosed totalIssuesOpenedMonth totalIssuesClosedMonth
     activeRepos contributors : nat) : string :=
  let rows :=
    [ ["Organizations"; organizationSummary];
      ["PRs Merged"; formatCount totalMRMerged];
      ["PRs Opened"; formatCount totalMROpened];
      ["Commits"; formatCount totalCommits];
      ["Issues Opened (day)"; formatCount totalIssuesOpened];
      ["Issues Closed (day)"; formatCount totalIssuesClosed];
      ["Issues Opened (month)"; formatCount totalIssuesOpenedMonth];
      ["Issues Closed (month)"; formatCount totalIssuesClosedMonth];
      ["Active Repos"; formatCount activeRepos];
      ["Contributors"; formatCount contributors] ] in
  join nl [ TEAM_METRICS_HEAD;
            "_Totals combine GitLab + GitHub repositories_";
            formatTable rows ].

(** ** Contributor summaries *)

Definition fresh (name : string) : Member.t :=
  Member.mk name 0 (JsNumber.JInt 0) 0 0 0 0.

(** [ensure(name)] followed by an update of the entry: the map keeps its
    keys in insertion order. *)
Fixpoint bump (f : Member.t -> Member.t) (name : string)
    (members : list Member.t) : list Member.t :=
  match members with
  | [] => [f (fresh name)]
  | m :: rest =>
      if String.eqb (Member.name m) name then f m :: rest
      else m :: bump f name rest
  end.

Definition add_commit (m : Member.t) : Member.t :=
  Member.mk (Member.name m) (Member.commits m + 1) (Member.commitPct m)
    (Member.mergedMrs m) (Member.openedMrs m) (Member.issuesOpened m)
    (Member.issuesClosed m).

Definition add_mergedMr (m : Member.t) : Member.t :=
  Member.mk (Member.name m) (Member.commits m) (Member.commitPct m)
    (Member.mergedMrs m + 1) (Member.openedMrs m) (Member.issuesOpened m)
    (Member.issuesClosed m).

Definition add_openedMr (m : Member.t) : Member.t :=
  Member.mk (Member.name m) (Member.commits m) (Member.commitPct m)
    (Member.mergedMrs m) (Member.openedMrs m + 1) (Member.issuesOpened m)
    (Member.issuesClosed m).

Definition add_issueOpened (m : Member.t) : Member.t :=
  Member.mk (Member.name m) (Member.commits m) (Member.commitPct m)
    (Member.mergedMrs m) (Member.openedMrs m) (Member.issuesOpened m + 1)
    (Member.issuesClosed m).

Definition add_issueClosed (m : Member.t) : Member.t :=
  Member.mk (Member.name m) (Member.commits m) (Member.commitPct m)
    (Member.mergedMrs m) (Member.openedMrs m) (Member.issuesOpened m)
    (Member.issuesClosed m + 1).

(** The keys of the map after [ensure(name)]. *)
Definition ensure_name (name : string) (names : list string) : list string :=
  if existsb (String.eqb name) names then names else names +++ [name].

(** An update that leaves the key alone. *)
Definition keeps_name (f : Member.t -> Member.t) : Prop :=
  forall m, Member.name (f m) = Member.name m.

(** The commits counted so far. *)
Definition commit_sum (ms : list Member.t) : nat :=
  list_sum (map Member.commits ms).

(** One of the five counting loops. *)
Definition tally (f : Member.t -> Member.t) (items : list Entry.t)
    (members : list Member.t) : list Member.t :=
  fold_left (fun ms item => bump f (resolveAuthorName (Some item)) ms)
            items members.

(** Three ways to round the exact quotient [n / d] of a non-negative [n]
    by a positive [d] to a nearest integer: a tie goes up (as [Math.round]
    does on the value it is given), down, or to the even neighbour. *)
Definition round_half_up (n d : Z) : Z := ((2 * n + d) / (2 * d))%Z.

Definition round_half_down (n d : Z) : Z :=
  (- ((d - 2 * n) / (2 * d)))%Z.

Definition round_half_even (n d : Z) : Z :=
  let q := (n / d)%Z in
  let r := (n mod d)%Z in
  if (2 * r <? d)%Z then q
  else if (d <? 2 * r)%Z then (q + 1)%Z
  else if Z.even q then q else (q + 1)%Z.

(** The quotient [n / d] lies half way between two integers. *)
Definition exact_tie (n d : Z) : Prop := ((2 * n) mod (2 * d) = d)%Z.

(** [totalCommits ? Math.round((commits / totalCommits) * 100) : 0] *)
Definition percentage (commits totalCommits : nat) : JsNumber.integral :=
  if totalCommits =? 0 then JsNumber.JInt 0
  else JsNumber.Math_round
         (JsNumber.mul
            (JsNumber.div (JsNumber.of_nat commits)
                          (JsNumber.of_nat totalCommits))
            (JsNumber.of_nat 100)).

Definition set_commitPct (totalCommits : nat) (m : Member.t) : Member.t :=
  Member.mk (Member.name m) (Member.commits m)
    (percentage (Member.commits m) totalCommits)
    (Member.mergedMrs m) (Member.openedMrs m) (Member.issuesOpened m)
    (Member.issuesClosed m).

(** The integer held by a percentage. *)
Definition pct_value (p : JsNumber.integral) : Z :=
  match p with
  | JsNumber.JInt k => k
  | _ => 0%Z
  end.

(** The sum of the percentage column, and the number of contributors with
    at least one commit. *)
Definition pct_sum (ms : list Member.t) : Z :=
  fold_right (fun m s => (pct_value (Member.commitPct m) + s)%Z) 0%Z ms.

Definition committers (ms : list Member.t) : nat :=
  List.length (filter (fun m => 0 <? Member.commits m) ms).

(** The number of records of a list that [resolveAuthorName] attributes
    to [name], and the number of records counted for a contributor. *)
Definition authored (name : string) (items : list Entry.t) : nat :=
  List.length
    (filter (fun e => String.eqb (resolveAuthorName (Some e)) name) items).

Definition records (m : Member.t) : nat :=
  Member.commits m + Member.mergedMrs m + Member.openedMrs m
  + Member.issuesOpened m + Member.issuesClosed m.

(** What the entries filed under [name] hold in the counter [g]. *)
Definition counted (g : Member.t -> nat) (name : string)
    (ms : list Member.t) : nat :=
  list_sum (map g (filter (fun m => String.eqb (Member.name m) name) ms)).

(** The summaries before the final sort, in insertion order. *)
Definition member_entries
    (commits mrsMerged mrsOpened issuesOpened issuesClosed : list Entry.t)
    : list Member.t :=
  let totalCommits := List.length commits in
  let members :=
    tally add_issueClosed issuesClosed
      (tally add_issueOpened issuesOpened
         (tally add_openedMr mrsOpened
            (tally add_mergedMr mrsMerged
               (tally add_commit commits [])))) in
  map (set_commitPct totalCommits) members.

Section Builtins.

(** [a.localeCompare(b)]: the collation of the host, a parameter here. *)
Variable localeCompare : string -> string -> Z.

(** [s.toLowerCase()], likewise. *)
Variable toLowerCase : string -> string.

(** The comparator of the final sort of [buildMemberSummaries]. *)
Definition member_cmp (a b : Member.t) : Z :=
  if negb (Member.mergedMrs b =? Member.mergedMrs a) then
    (Z.of_nat (Member.mergedMrs b) - Z.of_nat (Member.mergedMrs a))%Z
  else if negb (Member.commits b =? Member.commits a) then
    (Z.of_nat (Member.commits b) - Z.of_nat (Member.commits a))%Z
  else if negb (Member.issuesClosed b =? Member.issuesClosed a) then
    (Z.of_nat (Member.issuesClosed b) - Z.of_nat (Member.issuesClosed a))%Z
  else localeCompare (Member.name a) (Member.name b).

(** The ranking the comparator is meant to implement: more merged
    requests first, then more commits, then more closed issues, then the
    name that collates first. *)
Definition ranks_before (a b : Member.t) : Prop :=
  Member.mergedMrs b < Member.mergedMrs a
  \/ (Member.mergedMrs a = Member.mergedMrs b
      /\ (Member.commits b < Member.commits a
          \/ (Member.commits a = Member.commits b
              /\ (Member.issuesClosed b < Member.issuesClosed a
                  \/ (Member.issuesClosed a = Member.issuesClosed b
                      /\ (localeCompare (Member.name a) (Member.name b) < 0)%Z))))).

(** The same ranking, a name that collates the same included. *)
Definition member_not_after (a b : Member.t) : Prop :=
  Member.mergedMrs b < Member.mergedMrs a
  \/ (Member.mergedMrs a = Member.mergedMrs b
      /\ (Member.commits b < Member.commits a
          \/ (Member.commits a = Member.commits b
              /\ (Member.issuesClosed b < Member.issuesClosed a
                  \/ (Member.issuesClosed a = Member.issuesClosed b
                      /\ (localeCompare (Member.name a) (Member.name b)
                          <= 0)%Z))))).

(** Two summaries with the same three counts whose names the collation
    does not tell apart. *)
Definition member_tied (a b : Member.t) : Prop :=
  Member.mergedMrs a = Member.mergedMrs b
  /\ Member.commits a = Member.commits b
  /\ Member.issuesClosed a = Member.issuesClosed b
  /\ localeCompare (Member.name a) (Member.name b) = 0%Z.

(** [buildMemberSummaries({commits, mrsMerged, mrsOpened, issuesOpened,
    issuesClosed})] *)
Definition buildMemberSummaries
    (commits mrsMerged mrsOpened issuesOpened issuesClosed : list Entry.t)
    : list Member.t :=
  JsArray.sort member_cmp
    (member_entries commits mrsMerged mrsOpened issuesOpened issuesClosed).

(** ** Blocks *)

Definition pct_truthy (p : JsNumber.integral) : bool :=
  match p with
  | JsNumber.JInt 0 | JsNumber.JNaN => false
  | _ => true
  end.

Definition member_line (member : Member.t) : string :=
  let parts :=
    ((if 0 <? Member.commits member then
        [ ICON_COMMITS ++ " " ++ formatCount (Member.commits member) ++ " commit"
          ++ plural (Member.commits member)
          ++ (if pct_truthy (Member.commitPct member)
              then " (" ++ of_integral (Member.commitPct member) ++ "%)"
              else "") ]
      else [])
     +++ (if 0 <? Member.openedMrs member then
           [ ICON_PR_OPENED ++ " " ++ formatCount (Member.openedMrs member) ++ " PR"
             ++ plural (Member.openedMrs member) ++ " opened" ]
         else [])
     +++ (if 0 <? Member.mergedMrs member then
           [ ICON_PR_MERGED ++ " " ++ formatCount (Member.mergedMrs member) ++ " PR"
             ++ plural (Member.mergedMrs member) ++ " merged" ]
         else [])
     +++ (if 0 <? Member.issuesOpened member then
           [ ICON_ISSUE_OPENED ++ " " ++ formatCount (Member.issuesOpened member)
             ++ " issue" ++ plural (Member.issuesOpened member) ++ " opened" ]
         else [])
     +++ (if 0 <? Member.issuesClosed member then
           [ ICON_ISSUE_CLOSED ++ " " ++ formatCount (Member.issuesClosed member)
             ++ " issue" ++ plural (Member.issuesClosed member) ++ " closed" ]
         else [])) in
  let parts := match parts with [] => ["MR participation"] | _ => parts end in
  BULLET ++ " **" ++ Member.name member ++ "** " ++ DASH ++ " " ++ join " | " parts.

(** [formatTeamMembers(members, heading)] *)
Definition formatTeamMembers (members : list Member.t) (heading : string)
    : string :=
  let lines := if nonempty heading then [heading] else [] in
  match members with
  | [] =>
      join nl (lines +++ ["_No member activity captured in this window._"])
  | _ =>
      let top := JsArray.slice0 5 members in
      let remaining := List.length members - List.length top in
      join nl
        (lines +++ ["*Active Today*"] +++ map member_line top
         +++ (if List.length top <? List.length members then
               [ BULLET ++ " ...and " ++ of_nat remaining
                 ++ " more active contributor" ++ plural remaining ]
             else []))
  end.

(** The comparator shared by [formatOrgSummary] and [formatRepoTable]. *)
Definition project_cmp (a b : Project.t) : Z :=
  if negb (List.length (Project.mrsMerged b)
           =? List.length (Project.mrsMerged a)) then
    (Z.of_nat (List.length (Project.mrsMerged b))
     - Z.of_nat (List.length (Project.mrsMerged a)))%Z
  else if negb (List.length (Project.commits b)
                =? List.length (Project.commits a)) then
    (Z.of_nat (List.length (Project.commits b))
     - Z.of_nat (List.length (Project.commits a)))%Z
  else localeCompare (Project.projectName a) (Project.projectName b).

(** The ranking the comparator is meant to implement: more merged
    requests first, then more commits, then the name that collates first
    or the same. *)
Definition project_not_after (a b : Project.t) : Prop :=
  List.length (Project.mrsMerged b) < List.length (Project.mrsMerged a)
  \/ (List.length (Project.mrsMerged a) = List.length (Project.mrsMerged b)
      /\ (List.length (Project.commits b) < List.length (Project.commits a)
          \/ (List.length (Project.commits a)
               = List.length (Project.commits b)
              /\ (localeCompare (Project.projectName a)
                                (Project.projectName b) <= 0)%Z))).

(** [isGithubProjectId(id)] *)
Definition isGithubProjectId (id : string) : bool := includes_slash id.

Definition org_line (project : Project.t) : string :=
  let merged := List.length (Project.mrsMerged project) in
  let commits := List.length (Project.commits project) in
  let issuesOpened := List.length (Project.issuesOpened project) in
  let issuesClosed := List.length (Project.issuesClosed project) in
  let parts :=
    ((if 0 <? merged then ["PRs: " ++ formatCount merged] else [])
     +++ (if 0 <? commits then ["Commits: " ++ formatCount commits] else [])
     +++ (if (0 <? issuesOpened) || (0 <? issuesClosed) then
           [ "Issues: +" ++ formatCount issuesOpened ++ "/-"
             ++ formatCount issuesClosed ]
         else [])) in
  let summary :=
    match parts with
    | [] => "No activity recorded"
    | _ => join PART_SEP parts
    end in
  let displayName :=
    if nonempty (Project.projectName project) then Project.projectName project
    else if nonempty (Project.projectPath project)
         then Project.projectPath project
         else Project.projectId project in
  let icon :=
    if isGithubProjectId (Project.projectId project)
    then ICON_GITHUB else ICON_GITLAB in
  icon ++ " " ++ displayName ++ " " ++ DASH ++ " " ++ summary.

(** [formatOrgSummary(label, projects)]; [None] is [null]. *)
Definition formatOrgSummary (label : string) (projects : list Project.t)
    : option string :=
  match projects with
  | [] => None
  | _ =>
      let sorted := JsArray.sort project_cmp projects in
      let display := JsArray.slice0 3 sorted in
      let remaining := List.length sorted - List.length display in
      Some (join nl
              ([ORG_HEAD_OPEN ++ " " ++ label ++ "**"] +++ map org_line display
               +++ (if List.length display <? List.length sorted then
                     [ ELLIPSIS ++ "and " ++ of_nat remaining
                       ++ " more active repo" ++ plural remaining ++ "." ]
                   else [])))
  end.

(** ** Major features *)

(** [a.merged_at || a.updated_at || a.created_at], as read by [dayjs]:
    [None] when none of the three is set, which [valueOf] turns into
    [NaN]. *)
Definition sort_time (mr : Entry.t) : option Z :=
  match Entry.merged_at mr with
  | Some t => Some t
  | None =>
      match Entry.updated_at mr with
      | Some t => Some t
      | None => Entry.created_at mr
      end
  end.

(** The most recent of the three time fields that are set. *)
Definition later (a b : option Z) : option Z :=
  match a, b with
  | Some x, Some y => Some (Z.max x y)
  | Some x, None => Some x
  | None, _ => b
  end.

Definition most_recent (mr : Entry.t) : option Z :=
  later (Entry.merged_at mr) (later (Entry.updated_at mr) (Entry.created_at mr)).

(** [a] is not older than [b], by a time read with [key]. *)
Definition not_older (key : Entry.t -> option Z) (a b : Entry.t) : Prop :=
  exists ta tb, key a = Some ta /\ key b = Some tb /\ (tb <= ta)%Z.

(** [dayjs(bTime).valueOf() - dayjs(aTime).valueOf()], read by [sort]: a
    [NaN] difference counts as [0]. *)
Definition feature_cmp (a b : Entry.t) : Z :=
  match sort_time a, sort_time b with
  | Some ta, Some tb => (tb - ta)%Z
  | _, _ => 0%Z
  end.

(** [n || m], then its decimal form, with ["?"] when both are falsy. *)
Definition number_label (n m : option nat) : string :=
  match n with
  | Some (S k) => of_nat (S k)
  | _ =>
      match m with
      | Some (S k) => of_nat (S k)
      | _ => "?"
      end
  end.

Definition feature_line (mr : Entry.t) : string :=
  let title :=
    or_else (Entry.title mr)
      ("Merge Request #" ++ number_label (Entry.iid mr) (Entry.id mr)) in
  let mrLink :=
    match Entry.web_url mr with
    | Some url =>
        if nonempty url then "[" ++ title ++ "](" ++ url ++ ")" else title
    | None => title
    end in
  let project :=
    match Entry.projectName mr with
    | Some p => if nonempty p then " (" ++ p ++ ")" else ""
    | None => ""
    end in
  BULLET ++ " " ++ mrLink ++ project.

(** The requests shown by [formatMajorFeatures], in display order. *)
Definition major_features_top (mrs : list Entry.t) : list Entry.t :=
  JsArray.slice0 5 (JsArray.sort feature_cmp mrs).

(** [formatMajorFeatures(mrs)] *)
Definition formatMajorFeatures (mrs : list Entry.t) : option string :=
  match mrs with
  | [] => None
  | _ =>
      Some (join nl (MAJOR_FEATURES_HEAD
                     :: map feature_line (major_features_top mrs)))
  end.

(** ** Bug activity *)

(** [dayjs(t1).diff(dayjs(t0), "hour", true)]: the difference in
    milliseconds divided by the milliseconds of an hour. *)
Definition diff_hours (t1 t0 : Z) : JsNumber.number :=
  JsNumber.div (JsNumber.of_Z (t1 - t0)) (JsNumber.of_Z 3600000).

Definition same_day (issue : Entry.t) : bool :=
  match Entry.closed_at issue, Entry.created_at issue with
  | Some closed, Some created =>
      JsNumber.leb (diff_hours closed created) (JsNumber.of_Z 24)
  | _, _ => false
  end.

Definition issue_title (issue : Entry.t) : string :=
  or_else (Entry.title issue)
    ("Issue #" ++ number_label (Entry.iid issue) (Entry.id issue)).

(** [formatBugActivity(issuesOpened, issuesClosed)] *)
Definition formatBugActivity (issuesOpened issuesClosed : list Entry.t)
    : string :=
  let sameDay := List.length (filter same_day issuesClosed) in
  let fixedCount := List.length issuesClosed in
  let openedCount := List.length issuesOpened in
  let sameDayValue :=
    if 0 <? fixedCount
    then formatCount sameDay ++ "/" ++ formatCount fixedCount
    else "0" in
  let rows :=
    [ ["Fixed"; formatCount fixedCount ++ " issue" ++ plural fixedCount];
      ["Same-day fixes"; sameDayValue];
      ["Opened"; formatCount openedCount ++ " issue" ++ plural openedCount] ] in
  let lines := [BUG_ACTIVITY_HEAD; formatTable rows] in
  let highlights := JsArray.slice0 3 issuesClosed in
  join nl
    (lines
     +++ match highlights with
        | _ :: _ =>
            "**Highlights**"
            :: map (fun issue => BULLET ++ " " ++ issue_title issue) highlights
        | [] =>
            if (fixedCount =? 0) && (openedCount =? 0)
            then ["_No bug activity recorded in this window._"]
            else []
        end).

(** ** Velocity highlights *)

(** [totalMROpened || totalMRMerged || 1] *)
Definition merge_denominator (totalMROpened totalMRMerged : nat) : nat :=
  if 0 <? totalMROpened then totalMROpened
  else if 0 <? totalMRMerged then totalMRMerged
  else 1.

(** [Math.round((totalMRMerged / denominator) * 100)] *)
Definition mergeRate (totalMRMerged totalMROpened : nat)
    : JsNumber.integral :=
  JsNumber.Math_round
    (JsNumber.mul
       (JsNumber.div (JsNumber.of_nat totalMRMerged)
          (JsNumber.of_nat (merge_denominator totalMROpened totalMRMerged)))
       (JsNumber.of_nat 100)).

Definition merge_rate_line (totalMRMerged totalMROpened : nat) : string :=
  BULLET ++ " Merge rate: " ++ of_integral (mergeRate totalMRMerged totalMROpened)
  ++ "%".

(** [x.toFixed(1)] for the durations of this report (far below [1e21],
    where [toFixed] would switch to the exponent form). *)
Definition toFixed1 (x : JsNumber.number) : string :=
  match x with
  | S754_nan => "NaN"
  | S754_infinity s => if s then "-Infinity" else "Infinity"
  | S754_zero _ => "0.0"
  | S754_finite s m e =>
      let n := JsNumber.round_half_up_scaled 10 false m e in
      (if s then "-" else "") ++ of_Z (n / 10) ++ "." ++ of_Z (n mod 10)
  end.

(** The sorted turnaround times, in hours. *)
Definition durations (mrsMerged : list Entry.t) : list JsNumber.number :=
  JsArray.sort (fun a b => JsNumber.sign (JsNumber.sub a b))
    (flat_map
       (fun mr =>
          match Entry.merged_at mr, Entry.created_at mr with
          | Some merged, Some created =>
              [JsNumber.Math_abs (diff_hours merged created)]
          | _, _ => []
          end)
       mrsMerged).

Definition median_line (ds : list JsNumber.number) : list string :=
  match ds with
  | [] => []
  | _ =>
      let mid := List.length ds / 2 in
      let median :=
        if List.length ds mod 2 =? 1 then nth mid ds S754_nan
        else JsNumber.div
               (JsNumber.add (nth (mid - 1) ds S754_nan) (nth mid ds S754_nan))
               (JsNumber.of_Z 2) in
      let label :=
        if JsNumber.leb median (JsNumber.of_Z 24)
        then "Fast turnaround" else "Median merge time" in
      [BULLET ++ " " ++ label ++ ": " ++ toFixed1 median ++ "h"]
  end.

(** [formatVelocityHighlights({...})] *)
Definition formatVelocityHighlights
    (totalMRMerged totalMROpened totalCommits totalIssuesClosed : nat)
    (mrsMerged : list Entry.t) (hasMultiOrg : bool) : option string :=
  if (totalMRMerged =? 0) && (totalCommits =? 0) && (totalIssuesClosed =? 0)
  then None
  else
    Some (join nl
            ([VELOCITY_HEAD; merge_rate_line totalMRMerged totalMROpened]
             +++ (if 0 <? totalCommits
                 then [BULLET ++ " Commits: " ++ formatCount totalCommits] else [])
             +++ (if 0 <? totalIssuesClosed
                 then [BULLET ++ " Issues closed: " ++ formatCount totalIssuesClosed]
                 else [])
             +++ (if hasMultiOrg then [MULTI_ORG_LINE] else [])
             +++ median_line (durations mrsMerged))).

(** ** Tables of contributors and repositories *)

(** [formatCommitBreakdown(members, totalCommits)] *)
Definition formatCommitBreakdown (members : list Member.t)
    (totalCommits : nat) : option string :=
  if totalCommits =? 0 then None
  else
    let top :=
      JsArray.slice0 8 (filter (fun m => 0 <? Member.commits m) members) in
    let rows :=
      ([ ["Contributor"; "Commits"; "%"];
         ["-----------"; "-------"; "--"] ]
       +++ map (fun member =>
                 [ Member.name member;
                   of_nat (Member.commits member);
                   if pct_truthy (Member.commitPct member)
                   then of_integral (Member.commitPct member) ++ "%"
                   else "0%" ])
              top
       +++ [ ["TOTAL"; of_nat totalCommits; "100%"] ]) in
    Some (join nl ["**Commit Breakdown**"; formatTable rows]).

(** [formatRepoTable(projects, totals)] *)
Definition formatRepoTable (projects : list Project.t)
    (totalMRMerged totalCommits : nat) : option string :=
  match projects with
  | [] => None
  | _ =>
      let sorted := JsArray.sort project_cmp projects in
      let rows :=
        ([ ["Repo"; "PRs"; "Commits"];
           ["----"; "---"; "-------"] ]
         +++ map (fun project =>
                   [ Project.projectName project;
                     of_nat (List.length (Project.mrsMerged project));
                     of_nat (List.length (Project.commits project)) ])
                (JsArray.slice0 10 sorted)
         +++ [ ["TOTAL"; of_nat totalMRMerged; of_nat totalCommits] ]) in
      Some (join nl [REPO_TABLE_HEAD; formatTable rows])
  end.

(** [formatInactiveSummary(projects)] *)
Definition formatInactiveSummary (projects : list Project.t)
    : option string :=
  match projects with
  | [] => None
  | _ =>
      Some (INACTIVE_OPEN ++ of_nat (List.length projects) ++ " repo"
            ++ plural (List.length projects) ++ " this window._")
  end.

(** ** The report assembled by [main] *)

(** The configuration read from the environment, and the window label. *)
Variable REPORT_TITLE ORG_LABEL_INTERNAL ORG_LABEL_CLIENT label : string.
Variable CLIENT_PROJECT_ID_SET : list string.

(** [hasActivity(project)] *)
Definition hasActivity (project : Project.t) : bool :=
  (0 <? List.length (Project.commits project))
  || (0 <? List.length (Project.mrsOpened project))
  || (0 <? List.length (Project.mrsMerged project))
  || (0 <? List.length (Project.issuesOpened project))
  || (0 <? List.length (Project.issuesClosed project)).

(** [isClientProject(project)] *)
Definition isClientProject (project : Project.t) : bool :=
  existsb (String.eqb (toLowerCase (Project.projectId project)))
          CLIENT_PROJECT_ID_SET.

(** [array.reduce((sum, project) => sum + f(project).length, 0)] *)
Definition total (f : Project.t -> list Entry.t) (projects : list Project.t)
    : nat :=
  fold_left (fun sum project => sum + List.length (f project)) projects 0.

(** [new Set(names).size] *)
Definition distinct_count (names : list string) : nat :=
  List.length (nodup string_dec names).

(** [blocks.filter(Boolean)] *)
Definition filter_Boolean (blocks : list (option string)) : list string :=
  flat_map (fun b => match b with
                     | Some s => if nonempty s then [s] else []
                     | None => []
                     end) blocks.

(** What [main] computes between collection and dispatch. *)
Record report : Type := mkReport {
  activeResults : list Project.t;
  inactiveResults : list Project.t;
  summaryLine : string;
  memberSummaries : list Member.t;
  teamMetricsBlock : string;
  teamMembersBlock : string;
  internalBlock : option string;
  clientBlock : option string;
  majorFeaturesBlock : option string;
  bugActivityBlock : string;
  velocityHighlightBlock : option string;
  commitBreakdownBlock : option string;
  repoTableBlock : option string;
  inactiveSummaryBlock : option string;
  organizationalBlocks : list string;
  projectBlocks : list string;
  teamBlocks : list string;
  messages : list (list string)
}.

(** The body of [main()] after the exit taken when nothing was discovered:
    everything it computes from [results] up to the dispatch. *)
Definition assemble (results : list Project.t) : report :=
  let activeResults := filter hasActivity results in
  let inactiveResults := filter (fun p => negb (hasActivity p)) results in
  let totalCommits := total Project.commits activeResults in
  let totalMROpened := total Project.mrsOpened activeResults in
  let totalMRMerged := total Project.mrsMerged activeResults in
  let totalIssuesOpened := total Project.issuesOpened activeResults in
  let totalIssuesClosed := total Project.issuesClosed activeResults in
  let allCommits := flat_map Project.commits activeResults in
  let allMrsOpened := flat_map Project.mrsOpened activeResults in
  let allMrsMerged := flat_map Project.mrsMerged activeResults in
  let allIssuesOpened := flat_map Project.issuesOpened activeResults in
  let allIssuesClosed := flat_map Project.issuesClosed activeResults in
  let totalMonthIssuesOpened := total Project.monthIssuesOpened results in
  let totalMonthIssuesClosed := total Project.monthIssuesClosed results in
  let contributors :=
    distinct_count (map (fun c => resolveAuthorName (Some c)) allCommits) in
  let internalActive :=
    filter (fun p => negb (isClientProject p)) activeResults in
  let clientActive := filter isClientProject activeResults in
  let activeOrgLabels :=
    ((match internalActive with [] => [] | _ => [ORG_LABEL_INTERNAL] end)
     +++ (match clientActive with [] => [] | _ => [ORG_LABEL_CLIENT] end)) in
  let organizationSummary :=
    match activeOrgLabels with
    | [] => "0 (no active orgs)"
    | _ => of_nat (List.length activeOrgLabels) ++ " ("
           ++ join " + " activeOrgLabels ++ ")"
    end in
  let summaryLine :=
    match activeResults with
    | [] => "No activity recorded in the selected window."
    | _ => of_nat totalMRMerged ++ " PR" ++ plural totalMRMerged
           ++ " merged | " ++ of_nat totalCommits ++ " commit"
           ++ plural totalCommits ++ " | " ++ of_nat totalIssuesClosed
           ++ " issue" ++ plural totalIssuesClosed ++ " closed"
    end in
  let memberSummaries :=
    buildMemberSummaries allCommits allMrsMerged allMrsOpened
      allIssuesOpened allIssuesClosed in
  let teamMetricsBlock :=
    formatTeamMetrics organizationSummary totalMRMerged totalMROpened
      totalCommits totalIssuesOpened totalIssuesClosed
      totalMonthIssuesOpened totalMonthIssuesClosed
      (List.length activeResults) contributors in
  let teamMembersBlock :=
    formatTeamMembers memberSummaries "**Team Members Metrics**" in
  let internalBlock := formatOrgSummary ORG_LABEL_INTERNAL internalActive in
  let clientBlock := formatOrgSummary ORG_LABEL_CLIENT clientActive in
  let majorFeaturesBlock := formatMajorFeatures allMrsMerged in
  let bugActivityBlock := formatBugActivity allIssuesOpened allIssuesClosed in
  let velocityHighlightBlock :=
    formatVelocityHighlights totalMRMerged totalMROpened totalCommits
      totalIssuesClosed allMrsMerged
      ((0 <? List.length internalActive) && (0 <? List.length clientActive)) in
  let commitBreakdownBlock :=
    formatCommitBreakdown memberSummaries totalCommits in
  let repoTableBlock :=
    formatRepoTable
      (match activeResults with
       | [] => JsArray.slice0 8 results
       | _ => activeResults
       end)
      totalMRMerged totalCommits in
  let inactiveSummaryBlock := formatInactiveSummary inactiveResults in
  let organizationalBlocks :=
    filter_Boolean
      [ Some (TITLE_OPEN ++ " **" ++ REPORT_TITLE ++ " " ++ TITLE_DASH ++ " " ++ label ++ "**");
        Some summaryLine;
        Some teamMetricsBlock;
        velocityHighlightBlock;
        Some bugActivityBlock ] in
  let projectBlocks :=
    filter_Boolean
      [ Some "**Project Metrics**";
        internalBlock;
        clientBlock;
        majorFeaturesBlock;
        repoTableBlock;
        inactiveSummaryBlock ] in
  let teamBlocks :=
    filter_Boolean
      [ Some teamMembersBlock;
        commitBreakdownBlock;
        Some "_Posted automatically by Aquarious Velocity Bot_" ] in
  let messages :=
    filter (fun blocks => 0 <? List.length blocks)
      [organizationalBlocks; projectBlocks; teamBlocks] in
  mkReport activeResults inactiveResults summaryLine memberSummaries
    teamMetricsBlock teamMembersBlock internalBlock clientBlock
    majorFeaturesBlock bugActivityBlock velocityHighlightBlock
    commitBreakdownBlock repoTableBlock inactiveSummaryBlock
    organizationalBlocks projectBlocks teamBlocks messages.

(** [main()], from the collected results on; [None] is the exit taken when
    no project was discovered. *)
Definition main (gitlabResults githubResults : list Project.t)
    : option report :=
  match gitlabResults, githubResults with
  | [], [] => None
  | _, _ => Some (assemble (gitlabResults +++ githubResults))
  end.

End Builtins.

(** The commit percentage of every summary is the exact quotient of one
    hundred times its commits by the total, rounded by [round]. *)
Definition percentages_rounded_by (round : Z -> Z -> Z) : Prop :=
  forall (localeCompare : string -> string -> Z)
         (commits mrsMerged mrsOpened issuesOpened issuesClosed
            : list Entry.t),
    (Z.of_nat (List.length commits) < 2 ^ 32)%Z ->
    0 < List.length commits ->
    Forall (fun m =>
              Member.commitPct m
              = JsNumber.JInt
                  (round (100 * Z.of_nat (Member.commits m))%Z
                     (Z.of_nat (List.length commits))))
      (buildMemberSummaries localeCompare commits mrsMerged mrsOpened
         issuesOpened issuesClosed).

(** A collation to run the ranking with: the order of the strings' bytes. *)
Definition byte_order (a b : string) : Z :=
  match String.compare a b with
  | Eq => 0%Z
  | Lt => (-1)%Z
  | Gt => 1%Z
  end.

(** A collation nearer to the host's: the order of the bytes once the
    capital letters of ASCII are read as small ones.  Like the host's it
    puts "a" before "B", which the order of the bytes does not, and like
    the host's it fails to tell some different names apart (here those
    that differ only in case, there the canonically equivalent
    spellings). *)
Definition ascii_lower (c : ascii) : ascii :=
  let n := nat_of_ascii c in
  if (65 <=? n) && (n <=? 90) then ascii_of_nat (n + 32) else c.

Fixpoint lower (s : string) : string :=
  match s with
  | EmptyString => EmptyString
  | String c rest => String (ascii_lower c) (lower rest)
  end.

Definition caseless_order (a b : string) : Z :=
  byte_order (lower a) (lower b).

(** [a] comes before [b] in [l]. *)
Definition before {A : Type} (a b : A) (l : list A) : Prop :=
  exists l1 l2 l3, l = l1 +++ a :: l2 +++ b :: l3.

End Report.

(* ================================================================== *)
(** * Configuration lists and repository discovery                     *)
(* ================================================================== *)

Module Repo.
(** A repository as the GitHub API lists it. *)
Record t : Type := mk {
  full_name : option Chunker.js_string;
  name : option Chunker.js_string
}.
End Repo.

Module Info.
(** A project as the GitLab API lists it; [{ id }] for a forced id. *)
Record t : Type := mk {
  id : Z;
  name_with_namespace : option Chunker.js_string;
  path_with_namespace : option Chunker.js_string
}.
End Info.

Module Discovery.

Import Chunker.

Definition COMMA : code_unit := 44%N.

(** Equality of strings. *)
Fixpoint str_eqb (a b : js_string) : bool :=
  match a, b with
  | [], [] => true
  | x :: a', y :: b' => N.eqb x y && str_eqb a' b'
  | _, _ => false
  end.

(** [s.split(",")] *)
Fixpoint split_comma (s : js_string) : list js_string :=
  match s with
  | [] => [[]]
  | c :: s' =>
      if N.eqb c COMMA then [] :: split_comma s'
      else match split_comma s' with
           | l :: ls => (c :: l) :: ls
           | [] => [[c]]
           end
  end.

(** [items.join(",")] *)
Fixpoint join_comma (items : list js_string) : js_string :=
  match items with
  | [] => []
  | [x] => x
  | x :: rest => x ++ COMMA :: join_comma rest
  end.

(** [a || ""] *)
Definition or_empty (a : option js_string) : js_string :=
  match a with
  | Some s => s
  | None => []
  end.

(** [parseCsv(env)], from the value of the environment variable, [None]
    when it is not set. *)
Definition parseCsv (value : option js_string) : list js_string :=
  filter truthy (map trim (split_comma (or_empty value))).

(** An entry as [parseCsv] returns them: not empty, without a comma, and
    with no white space at either end. *)
Definition csv_entry (x : js_string) : Prop :=
  x <> []
  /\ ~ In COMMA x
  /\ is_space (hd 0%N x) = false
  /\ is_space (last x 0%N) = false.

Section Github.

(** [s.toLowerCase()] and the [test] of the two optional regular
    expressions, applied to a value that may be [undefined]: built-ins of
    the host, parameters here. *)
Variable toLowerCase : js_string -> js_string.
Variable includeRegex excludeRegex : option (option js_string -> bool).

(** [normalizeRepoName(name)] *)
Definition normalizeRepoName (name : option js_string) : js_string :=
  toLowerCase (trim (or_empty name)).

(** What holds of [repoMap] throughout: its keys are distinct, and every
    entry is filed under the normalized form of its value, which is not
    excluded and comes from [source]. *)
Definition repo_entries_ok (excludes : list js_string)
    (source : js_string -> Prop)
    (m : JsMap.t (K := js_string) (V := js_string)) : Prop :=
  NoDup (JsMap.keys m)
  /\ forall k v, In (k, v) m ->
       k = normalizeRepoName (Some v)
       /\ JsSet.has str_eqb k excludes = false
       /\ source v.

(** [includeRepo(repo)], acting on [repoMap]. *)
Definition includeRepo (excludes : list js_string)
    (repoMap : JsMap.t (K := js_string) (V := js_string))
    (repo : option Repo.t) : JsMap.t (K := js_string) (V := js_string) :=
  match repo with
  | None => repoMap
  | Some r =>
      match Repo.full_name r with
      | None => repoMap
      | Some fullName =>
          if negb (truthy fullName) then repoMap
          else
            let normalized := normalizeRepoName (Some fullName) in
            if JsSet.has str_eqb normalized excludes then repoMap
            else if match includeRegex with
                    | Some test =>
                        negb (test (Some fullName))
                        && negb (test (Repo.name r))
                    | None => false
                    end then repoMap
            else if match excludeRegex with
                    | Some test =>
                        test (Some fullName) || test (Repo.name r)
                    | None => false
                    end then repoMap
            else JsMap.set str_eqb normalized fullName repoMap
      end
  end.

(** The loop over [GITHUB_EXTRA_REPOS]. *)
Definition include_extra (excludes : list js_string)
    (repoMap : JsMap.t (K := js_string) (V := js_string))
    (extra : js_string) : JsMap.t (K := js_string) (V := js_string) :=
  let normalized := normalizeRepoName (Some extra) in
  if negb (truthy extra) || JsSet.has str_eqb normalized excludes
  then repoMap
  else JsMap.set str_eqb normalized extra repoMap.

(** [discoverGithubRepos()], from what the requests returned: [github] tells
    whether a token is configured, [fetched] lists the repositories of the
    requests that succeeded, in the order they were handed to
    [includeRepo]; [extras] and [excluded] are [GITHUB_EXTRA_REPOS] and
    [GITHUB_EXCLUDE_REPOS] as [parseCsv] returns them. *)
Definition discoverGithubRepos (github : bool)
    (fetched : list (option Repo.t)) (extras excluded : list js_string)
    : list js_string :=
  if negb github then []
  else
    let excludes :=
      JsSet.of_list str_eqb
        (map (fun e => normalizeRepoName (Some e)) excluded) in
    let repoMap := fold_left (includeRepo excludes) fetched [] in
    let repoMap := fold_left (include_extra excludes) extras repoMap in
    let repoMap :=
      fold_left (fun m e => JsMap.delete str_eqb e m) excludes repoMap in
    JsMap.values repoMap.

End Github.

Section Gitlab.

(** The [test] of the two optional regular expressions over project
    names. *)
Variable nameInc nameExc : option (js_string -> bool).

(** [a || b] for strings. *)
Definition or_str (a : option js_string) (b : js_string) : js_string :=
  match a with
  | Some s => if truthy s then s else b
  | None => b
  end.

(** The filter applied to the discovered projects. *)
Definition name_filter (p : Info.t) : bool :=
  let nameTarget :=
    or_str (Info.name_with_namespace p)
      (or_str (Info.path_with_namespace p) []) in
  let pathTarget := or_str (Info.path_with_namespace p) [] in
  if match nameInc with
     | Some test => negb (test nameTarget) && negb (test pathTarget)
     | None => false
     end then false
  else if match nameExc with
          | Some test => test nameTarget || test pathTarget
          | None => false
          end then false
  else true.

(** [{ id }] *)
Definition stub (id : Z) : Info.t := Info.mk id None None.

(** The ids [discoverProjects()] settles on, before they are turned into
    strings: [projects] is what the group and user requests returned, in
    order, [extras] and [excluded] are the numbers of [EXTRA_PROJECT_IDS]
    and [EXCLUDE_PROJECT_IDS]. *)
Definition discoverProjects (projects : list Info.t) (extras excluded : list Z)
    : list Z :=
  let uniq :=
    fold_left (fun m p => JsMap.set Z.eqb (Info.id p) p m) projects [] in
  let filtered := filter name_filter (JsMap.values uniq) in
  let uniq :=
    fold_left (fun m p => JsMap.set Z.eqb (Info.id p) p m) filtered [] in
  let excludes := JsSet.of_list Z.eqb excluded in
  let uniq :=
    fold_left (fun m id => if negb (JsSet.has Z.eqb id excludes)
                           then JsMap.set Z.eqb id (stub id) m else m)
      extras uniq in
  let uniq := fold_left (fun m id => JsMap.delete Z.eqb id m) excludes uniq in
  JsMap.keys uniq.

End Gitlab.

End Discovery.

(* ================================================================== *)
(** * Normalization of what the GitHub API returns                     *)
(* ================================================================== *)

(** The fields of the API's records that [collectForGithubRepo] reads.  A
    date field holds the instant [dayjs] reads from it, [None] when the
    field is missing or [null]. *)
Module GithubCommit.
Record t : Type := mk {
  login : option String.string;
  git_author_name : option String.string;
  git_author_email : option String.string;
  git_author_date : option Z;
  committer_name : option String.string;
  committer_email : option String.string;
  committer_date : option Z;
  message : option String.string
}.
End GithubCommit.

Module GithubItem.
(** A pull request or an issue. *)
Record t : Type := mk {
  id : option nat;
  number : option nat;
  title : option String.string;
  user_login : option String.string;
  created_at : option Z;
  updated_at : option Z;
  merged_at : option Z;
  closed_at : option Z;
  html_url : option String.string
}.
End GithubItem.

Module GithubRepoInfo.
Record t : Type := mk {
  name : option String.string;
  full_name : option String.string
}.
End GithubRepoInfo.

Module Github.

Import Strings.String Strings.Ascii.
Import JsString Report.
Local Open Scope string_scope.

(** [a || b], where both may be missing. *)
Definition or_opt {A : Type} (truthy : A -> bool) (a b : option A)
    : option A :=
  match a with
  | Some x => if truthy x then a else b
  | None => b
  end.

Definition or_string : option string -> option string -> option string :=
  or_opt nonempty.

Definition or_date : option Z -> option Z -> option Z :=
  or_opt (fun _ => true).

(** The first of the candidates that is a non-empty string, or the
    default. *)
Fixpoint first_nonempty (candidates : list (option string))
    (default : string) : string :=
  match candidates with
  | [] => default
  | c :: rest => or_else c (first_nonempty rest default)
  end.

(** [s.split(sep)[0]] and what follows the first [sep], if there is one. *)
Fixpoint before (sep : ascii) (s : string) : string :=
  match s with
  | EmptyString => ""
  | String c rest =>
      if Ascii.eqb c sep then "" else String c (before sep rest)
  end.

Fixpoint after (sep : ascii) (s : string) : option string :=
  match s with
  | EmptyString => None
  | String c rest => if Ascii.eqb c sep then Some rest else after sep rest
  end.

(** [fullName.split("/")[1]] *)
Definition repo_segment (fullName : string) : option string :=
  match after "/" fullName with
  | Some rest => Some (before "/" rest)
  | None => None
  end.

(** [t.isAfter(since) && t.isBefore(until)] and
    [!t.isBefore(monthStart) && t.isBefore(until)], for a date that may be
    missing. *)
Definition in_window (since until : Z) (date : option Z) : bool :=
  match date with
  | Some t => (since <? t)%Z && (t <? until)%Z
  | None => false
  end.

Definition in_month (monthStart until : Z) (date : option Z) : bool :=
  match date with
  | Some t => negb (t <? monthStart)%Z && (t <? until)%Z
  | None => false
  end.

(** [fetchGithubPulls(owner, repo, sinceMoment)], from what the requests
    return: [pages] lists the responses to the requests for page 1, 2 and
    so on, each with its items and whether its link header names a next
    page; a request past the end of the list returns no items.  [cutoff]
    is the instant of [sinceMoment]. *)
Definition no_item : GithubItem.t :=
  GithubItem.mk None None None None None None None None None.

Fixpoint fetchGithubPulls (github : bool) (cutoff : Z)
    (pages : list (list GithubItem.t * bool)) : list GithubItem.t :=
  if negb github then []
  else
    match pages with
    | [] => []
    | ([], _) :: _ => []
    | (data, next) :: rest =>
        data
        ++ (if negb next then []
            else
              match GithubItem.updated_at (last data no_item) with
              | Some lastUpdated =>
                  if (lastUpdated <? cutoff)%Z then []
                  else fetchGithubPulls github cutoff rest
              | None => fetchGithubPulls github cutoff rest
              end)
    end.

(** The whole listing the server holds: what the loop would collect if it
    never stopped on the date of a page's last item. *)
Fixpoint listing (pages : list (list GithubItem.t * bool))
    : list GithubItem.t :=
  match pages with
  | [] => []
  | ([], _) :: _ => []
  | (data, next) :: rest => data ++ (if negb next then [] else listing rest)
  end.

(** [a] was updated no earlier than [b]. *)
Definition updated_no_earlier (a b : GithubItem.t) : Prop :=
  exists ta tb,
    GithubItem.updated_at a = Some ta /\ GithubItem.updated_at b = Some tb
    /\ (tb <= ta)%Z.

Section Collect.

Variable projectName : string.

(** The record made of a commit; its hash, which the report never reads,
    is left out. *)
Definition simplify_commit (commit : GithubCommit.t) : Entry.t :=
  let message := or_else (GithubCommit.message commit) "" in
  let title :=
    if nonempty (before (ascii_of_nat 10) message)
    then before (ascii_of_nat 10) message else message in
  let authorName :=
    or_string (GithubCommit.git_author_name commit)
      (or_string (GithubCommit.login commit)
         (or_string (GithubCommit.committer_name commit) None)) in
  let authorEmail :=
    or_string (GithubCommit.git_author_email commit)
      (or_string (GithubCommit.committer_email commit) None) in
  let author :=
    if truthy (GithubCommit.login commit)
    then Some (Author.mk (GithubCommit.login commit)
                 (GithubCommit.login commit) None)
    else if truthy authorName
         then Some (Author.mk authorName authorName None)
         else None in
  Entry.mk None None (Some title) author authorName authorEmail
    (or_date (GithubCommit.git_author_date commit)
       (GithubCommit.committer_date commit))
    None None None None (Some projectName).

(** The record made of a pull request or an issue. *)
Definition item_author (item : GithubItem.t) : option Author.t :=
  if truthy (GithubItem.user_login item)
  then Some (Author.mk (GithubItem.user_login item)
               (GithubItem.user_login item) None)
  else None.

Definition simplify_pull (pull : GithubItem.t) : Entry.t :=
  Entry.mk (GithubItem.id pull) (GithubItem.number pull)
    (GithubItem.title pull) (item_author pull) None None
    (GithubItem.created_at pull) (GithubItem.updated_at pull)
    (GithubItem.merged_at pull) None (GithubItem.html_url pull)
    (Some projectName).

Definition simplify_issue (issue : GithubItem.t) : Entry.t :=
  Entry.mk (GithubItem.id issue) (GithubItem.number issue)
    (GithubItem.title issue) (item_author issue) None None
    (GithubItem.created_at issue) None None (GithubItem.closed_at issue)
    (GithubItem.html_url issue) (Some projectName).

End Collect.

(** [collectForGithubRepo(fullName, since, until, monthStart)], from what
    the requests returned: [github] tells whether a token is configured,
    [repoInfo] is the repository's description when it could be had. *)
Definition collectForGithubRepo (github : bool)
    (repoInfo : option GithubRepoInfo.t) (fullName : string)
    (since until monthStart : Z)
    (commitsRaw : list GithubCommit.t) (pullsRaw issuesRaw : list GithubItem.t)
    : option Project.t :=
  if negb github then None
  else
    let info_name :=
      match repoInfo with Some i => GithubRepoInfo.name i | None => None end in
    let info_full_name :=
      match repoInfo with
      | Some i => GithubRepoInfo.full_name i
      | None => None
      end in
    let projectName :=
      or_else info_name (or_else (repo_segment fullName) fullName) in
    let projectPath := or_else info_full_name fullName in
    let commits :=
      map (simplify_commit projectName)
        (filter (fun commit =>
                   in_window since until
                     (or_date (GithubCommit.git_author_date commit)
                        (GithubCommit.committer_date commit)))
           commitsRaw) in
    let pulls := map (simplify_pull projectName) pullsRaw in
    let issues := map (simplify_issue projectName) issuesRaw in
    Some (Project.mk projectPath projectName projectPath
            commits
            (filter (fun p => in_window since until (Entry.created_at p)) pulls)
            (filter (fun p => in_window since until (Entry.merged_at p)) pulls)
            (filter (fun i => in_window since until (Entry.created_at i))
               issues)
            (filter (fun i => in_window since until (Entry.closed_at i))
               issues)
            (filter (fun i => in_month monthStart until (Entry.created_at i))
               issues)
            (filter (fun i => in_month monthStart until (Entry.closed_at i))
               issues)).

End Github.

(* ================================================================== *)
(** * Properties of the chunker                                        *)
(* ================================================================== *)

Section ChunkerFacts.
Import Chunker.

Lemma truthy_true (s : js_string) : truthy s = true <-> s <> [].
Proof. destruct s; simpl; split; intros; congruence. Qed.

Lemma truthy_false (s : js_string) : truthy s = false <-> s = [].
Proof. destruct s; simpl; split; intros; congruence. Qed.

Lemma split_nl_nonnil (s : js_string) : split_nl s <> [].
Proof.
  induction s as [|c s IH]; simpl; [discriminate|].
  destruct (N.eqb c NL); [discriminate|].
  destruct (split_nl s); discriminate.
Qed.

Lemma laid_split (s : js_string) : laid 0 (split_nl s) = s.
Proof.
  induction s as [|c s IH]; simpl; [reflexivity|].
  destruct (N.eqb c NL) eqn:E.
  - apply N.eqb_eq in E; subst c. revert IH. unfold laid.
    destruct (split_nl s) as [|l rest] eqn:Es.
    + now destruct (split_nl_nonnil s).
    + simpl. intros ->. reflexivity.
  - revert IH. unfold laid.
    destruct (split_nl s) as [|l rest] eqn:Es.
    + now destruct (split_nl_nonnil s).
    + simpl. intros ->. reflexivity.
Qed.

Lemma split_nl_no_newline (s : js_string) :
  ~ In NL s -> split_nl s = [s].
Proof.
  induction s as [|c s IH]; simpl; intros H; [reflexivity|].
  destruct (N.eqb c NL) eqn:E.
  - apply N.eqb_eq in E. exfalso; apply H; left; congruence.
  - rewrite IH by tauto. reflexivity.
Qed.

Lemma split_nl_lines_clean (s : js_string) :
  Forall (fun l => ~ In NL l) (split_nl s).
Proof.
  induction s as [|c s IH]; simpl.
  - constructor; [tauto | constructor].
  - destruct (N.eqb c NL) eqn:E.
    + constructor; [tauto | exact IH].
    + destruct (split_nl s) as [|l rest]; inversion IH; subst.
      * constructor; [|constructor]. simpl. intros [->|[]].
        now rewrite N.eqb_refl in E.
      * constructor; [|assumption]. simpl. intros [->|Hin]; [|tauto].
        now rewrite N.eqb_refl in E.
Qed.

(** ** The hard split of an over-long line *)

Lemma slice_length (line : js_string) (index limit : nat) :
  length (slice line index (index + limit))
  = Nat.min limit (length line - index).
Proof.
  unfold slice. rewrite length_firstn, length_skipn.
  replace (index + limit - index) with limit by lia. reflexivity.
Qed.

Lemma slice_skipn (line : js_string) (index limit : nat) :
  slice line index (index + limit) ++ skipn (index + limit) line
  = skipn index line.
Proof.
  unfold slice. replace (index + limit - index) with limit by lia.
  rewrite Nat.add_comm, <- skipn_skipn. apply firstn_skipn.
Qed.

Lemma pieces_count_step (n limit : nat) :
  0 < limit -> 0 < n ->
  pieces_count n limit = S (pieces_count (n - limit) limit).
Proof.
  intros Hl Hn. unfold pieces_count.
  destruct (Nat.le_gt_cases n limit) as [Hle|Hgt].
  - replace (n - limit) with 0 by lia. simpl.
    rewrite (Nat.div_small (limit - 1) limit) by lia.
    replace (n + limit - 1) with ((n - 1) + 1 * limit) by lia.
    rewrite Nat.div_add by lia. rewrite Nat.div_small by lia. reflexivity.
  - replace (n + limit - 1) with ((n - limit + limit - 1) + 1 * limit) by lia.
    rewrite Nat.div_add by lia. lia.
Qed.

Lemma hardSplit_spec (line : js_string) (limit : nat) :
  0 < limit ->
  forall fuel index chunks,
    length line - index <= fuel ->
    exists pieces,
      hardSplit fuel line limit index chunks = Some (chunks ++ pieces)
      /\ concat pieces = skipn index line
      /\ Forall (piece_ok limit) pieces
      /\ length pieces = pieces_count (length line - index) limit.
Proof.
  intros Hl. induction fuel as [|fuel IH]; intros index chunks Hf; simpl.
  - destruct (index <? length line) eqn:E.
    + apply Nat.ltb_lt in E. lia.
    + apply Nat.ltb_ge in E. exists []. rewrite app_nil_r.
      repeat split; auto.
      * symmetry. apply skipn_all2. exact E.
      * replace (length line - index) with 0 by lia.
        unfold pieces_count. simpl. rewrite Nat.div_small; lia.
  - destruct (index <? length line) eqn:E.
    + apply Nat.ltb_lt in E.
      destruct (IH (index + limit)
                   (chunks ++ [slice line index (index + limit)]))
        as (pieces & Hrun & Hcat & Hok & Hlen); [lia|].
      exists (slice line index (index + limit) :: pieces).
      rewrite Hrun, <- app_assoc. simpl. repeat split.
      * rewrite Hcat. apply slice_skipn.
      * constructor; [|exact Hok]. unfold piece_ok.
        rewrite slice_length. lia.
      * rewrite Hlen.
        rewrite (pieces_count_step (length line - index) limit) by lia.
        f_equal. f_equal. lia.
    + apply Nat.ltb_ge in E. exists []. rewrite app_nil_r.
      repeat split; auto.
      * symmetry. apply skipn_all2. exact E.
      * replace (length line - index) with 0 by lia.
        unfold pieces_count. simpl. rewrite Nat.div_small; lia.
Qed.

(** ** The line loop keeps every chunk within the limit and non-empty *)

Lemma step_ok (limit : nat) (st : list js_string * js_string)
    (line : js_string) :
  0 < limit -> state_ok limit st ->
  exists st', step limit st line = Some st' /\ state_ok limit st'.
Proof.
  intros Hl [Hch Hcur]. destruct st as [chunks current]. simpl in *.
  unfold step.
  set (candidate := if truthy current then current ++ NL :: line else line).
  destruct (length candidate <=? limit) eqn:Ec.
  - apply Nat.leb_le in Ec. eexists; split; [reflexivity|].
    split; simpl; assumption.
  - assert (Hch1 : Forall (piece_ok limit)
                     (if truthy current then chunks ++ [current] else chunks)).
    { destruct (truthy current) eqn:Et; [|assumption].
      apply Forall_app; split; [assumption|].
      constructor; [|constructor]. unfold piece_ok.
      destruct current; simpl in *; [discriminate|lia]. }
    destruct (length line <=? limit) eqn:El.
    + apply Nat.leb_le in El. eexists; split; [reflexivity|].
      split; simpl; assumption.
    + destruct (hardSplit_spec line limit Hl (length line) 0
                  (if truthy current then chunks ++ [current] else chunks))
        as (pieces & Hrun & _ & Hok & _); [lia|].
      rewrite Hrun. eexists; split; [reflexivity|].
      split; simpl; [|lia]. apply Forall_app; split; assumption.
Qed.

Lemma loop_ok (limit : nat) (lines : list js_string) :
  0 < limit ->
  forall st, state_ok limit st ->
  exists st', loop limit lines st = Some st' /\ state_ok limit st'.
Proof.
  intros Hl. induction lines as [|line rest IH]; intros st Hst; simpl.
  - eauto.
  - destruct (step_ok limit st line Hl Hst) as (st1 & -> & Hst1). auto.
Qed.

(** Every run with a positive limit returns, and each of its chunks is
    non-empty and within the limit. *)
Lemma chunkMessage_pieces (text : js_string) (limit : nat) :
  0 < limit ->
  exists chunks,
    chunkMessage text limit = Some chunks
    /\ Forall (piece_ok limit) chunks.
Proof.
  intros Hl. unfold chunkMessage.
  destruct (truthy text); [|exists []; split; [reflexivity|constructor]].
  destruct (loop_ok limit (split_nl text) Hl ([], []))
    as ([chunks current] & -> & Hch & Hcur).
  { split; simpl; [constructor|lia]. }
  simpl in *. eexists; split; [reflexivity|].
  destruct (truthy current) eqn:Et; [|assumption].
  apply Forall_app; split; [assumption|].
  constructor; [|constructor]. unfold piece_ok.
  destruct current; simpl in *; [discriminate|lia].
Qed.

(** A text that is one over-long line is cut into [ceil (n / limit)]
    pieces whose concatenation is the text. *)
Lemma chunkMessage_single_line (text : js_string) (limit : nat) :
  0 < limit -> ~ In NL text -> limit < length text ->
  exists chunks,
    chunkMessage text limit = Some chunks
    /\ concat chunks = text
    /\ length chunks = pieces_count (length text) limit.
Proof.
  intros Hl Hnl Hlong. unfold chunkMessage.
  assert (Ht : truthy text = true) by (destruct text; simpl in *; [lia|auto]).
  rewrite Ht, (split_nl_no_newline text Hnl). simpl.
  assert (E1 : (length text <=? limit) = false) by (apply Nat.leb_gt; lia).
  rewrite E1.
  destruct (hardSplit_spec text limit Hl (length text) 0 [])
    as (pieces & Hrun & Hcat & _ & Hlen); [lia|].
  rewrite Hrun. simpl. exists pieces. repeat split; auto.
  rewrite Hlen. f_equal. lia.
Qed.

(** ** The recording chunker computes the same chunks *)

Lemma hardSplit_sep_forget (line : js_string) (limit : nat) :
  forall fuel index sep chunks,
    option_map (map snd) (hardSplit_sep fuel line limit index sep chunks)
    = hardSplit fuel line limit index (map snd chunks).
Proof.
  induction fuel as [|fuel IH]; intros index sep chunks; simpl;
    destruct (index <? length line); try reflexivity.
  rewrite IH, map_app. reflexivity.
Qed.

Lemma step_sep_forget (limit nl : nat)
    (st : list (nat * js_string) * js_string * nat) (line : js_string) :
  option_map forget (step_sep limit nl st line) = step limit (forget st) line.
Proof.
  destruct st as [[chunks current] sep]. unfold step_sep, step, forget. simpl.
  destruct (length (if truthy current then current ++ NL :: line else line)
            <=? limit); [reflexivity|].
  destruct (length line <=? limit).
  - simpl. destruct (truthy current); [rewrite map_app|]; reflexivity.
  - pose proof (hardSplit_sep_forget line limit (length line) 0
        (if truthy current then nl else sep + nl)
        (if truthy current then chunks ++ [(sep, current)] else chunks)) as H.
    replace (map snd
               (if truthy current then chunks ++ [(sep, current)] else chunks))
      with (if truthy current then map snd chunks ++ [current]
            else map snd chunks) in H
      by (destruct (truthy current); [rewrite map_app|]; reflexivity).
    rewrite <- H.
    destruct (hardSplit_sep (length line) line limit 0
                (if truthy current then nl else sep + nl)
                (if truthy current then chunks ++ [(sep, current)]
                 else chunks)); reflexivity.
Qed.

Lemma loop_sep_forget (limit : nat) (lines : list js_string) :
  forall nl st,
    option_map forget (loop_sep limit nl lines st)
    = loop limit lines (forget st).
Proof.
  induction lines as [|line rest IH]; intros nl st; cbn [loop_sep loop];
    [reflexivity|].
  rewrite <- (step_sep_forget limit nl).
  destruct (step_sep limit nl st line); simpl; [apply IH|reflexivity].
Qed.

Lemma chunkMessage_sep_forget (text : js_string) (limit : nat) :
  option_map (map snd) (chunkMessage_sep text limit) = chunkMessage text limit.
Proof.
  unfold chunkMessage_sep, chunkMessage.
  destruct (truthy text); [|reflexivity].
  replace (loop limit (split_nl text) ([], []))
    with (loop limit (split_nl text) (forget ([], [], 0))) by reflexivity.
  rewrite <- (loop_sep_forget limit (split_nl text) 0).
  destruct (loop_sep limit 0 (split_nl text) ([], [], 0))
    as [[[chunks current] sep]|]; simpl; [|reflexivity].
  destruct (truthy current); [rewrite map_app|]; reflexivity.
Qed.

(** ** What the recorded separators put back *)

Lemma rejoin_app (a b : list (nat * js_string)) :
  rejoin (a ++ b) = rejoin a ++ rejoin b.
Proof. unfold rejoin. rewrite map_app, concat_app. reflexivity. Qed.

Lemma rejoin_one (n : nat) (c : js_string) :
  rejoin [(n, c)] = repeat NL n ++ c.
Proof. unfold rejoin. simpl. apply app_nil_r. Qed.

Lemma hardSplit_sep_rejoin (line : js_string) (limit : nat) :
  forall fuel index sep chunks out,
    hardSplit_sep fuel line limit index sep chunks = Some out ->
    rejoin out
    = rejoin chunks
      ++ (if index <? length line then repeat NL sep else [])
      ++ skipn index line.
Proof.
  induction fuel as [|fuel IH]; intros index sep chunks out; simpl;
    destruct (index <? length line) eqn:E; intros H; try discriminate.
  - injection H as <-. apply Nat.ltb_ge in E.
    rewrite skipn_all2 by exact E. now rewrite !app_nil_r.
  - apply IH in H. rewrite H, rejoin_app, rejoin_one, <- !app_assoc.
    f_equal. f_equal.
    replace (if index + limit <? length line then repeat NL 0 else [])
      with (@nil code_unit) by (destruct (index + limit <? length line);
                                reflexivity).
    simpl. apply slice_skipn.
  - injection H as <-. apply Nat.ltb_ge in E.
    rewrite skipn_all2 by exact E. now rewrite !app_nil_r.
Qed.

Lemma step_sep_rejoin (limit nl : nat)
    (st st' : list (nat * js_string) * js_string * nat) (line : js_string) :
  (truthy (snd (fst st)) = true -> nl = 1) ->
  step_sep limit nl st line = Some st' ->
  accounted st' = accounted st ++ repeat NL nl ++ line.
Proof.
  destruct st as [[chunks current] sep]. simpl. intros Hnl.
  unfold step_sep.
  destruct (length (if truthy current then current ++ NL :: line else line)
            <=? limit).
  - intros H; injection H as <-. simpl.
    destruct (truthy current) eqn:Et.
    + rewrite (Hnl eq_refl). simpl. now rewrite <- !app_assoc.
    + apply truthy_false in Et; subst current. simpl.
      now rewrite repeat_app, <- !app_assoc.
  - destruct (length line <=? limit) eqn:El.
    + intros H; injection H as <-. simpl.
      destruct (truthy current) eqn:Et.
      * now rewrite rejoin_app, rejoin_one, <- !app_assoc.
      * apply truthy_false in Et; subst current. simpl.
        now rewrite repeat_app, <- !app_assoc.
    + destruct (hardSplit_sep (length line) line limit 0
                  (if truthy current then nl else sep + nl)
                  (if truthy current then chunks ++ [(sep, current)]
                   else chunks)) as [out|] eqn:Eh; [|discriminate].
      intros H; injection H as <-. simpl.
      apply hardSplit_sep_rejoin in Eh. rewrite Eh, app_nil_r.
      assert (E0 : (0 <? length line) = true).
      { apply Nat.ltb_lt. apply Nat.leb_gt in El. lia. }
      rewrite E0. simpl.
      destruct (truthy current) eqn:Et.
      * now rewrite rejoin_app, rejoin_one, <- !app_assoc.
      * apply truthy_false in Et; subst current. simpl.
        now rewrite repeat_app, <- !app_assoc.
Qed.

Lemma loop_sep_rejoin (limit : nat) (lines : list js_string) :
  forall nl st st',
    (truthy (snd (fst st)) = true -> nl = 1) ->
    loop_sep limit nl lines st = Some st' ->
    accounted st' = accounted st ++ laid nl lines.
Proof.
  induction lines as [|line rest IH]; intros nl st st' Hnl; simpl.
  - intros H; injection H as <-. now rewrite app_nil_r.
  - destruct (step_sep limit nl st line) as [st1|] eqn:Es; [|discriminate].
    intros H. apply IH in H; [|reflexivity].
    rewrite H, (step_sep_rejoin limit nl st st1 line Hnl Es), <- !app_assoc.
    f_equal. f_equal. f_equal.
    destruct rest as [|l rest']; reflexivity.
Qed.

(** ** With no empty line, one newline is consumed per flush *)

Lemma hardSplit_sep_single (line : js_string) (limit : nat) :
  forall fuel index sep chunks out,
    hardSplit_sep fuel line limit index sep chunks = Some out ->
    sep <= 1 -> Forall (fun p => fst p <= 1) chunks ->
    Forall (fun p => fst p <= 1) out.
Proof.
  induction fuel as [|fuel IH]; intros index sep chunks out; simpl;
    destruct (index <? length line); intros H Hs Hc; try discriminate.
  - now injection H as <-.
  - apply IH in H; auto. apply Forall_app; split; auto.
  - now injection H as <-.
Qed.

Lemma step_sep_single (limit nl : nat)
    (st st' : list (nat * js_string) * js_string * nat) (line : js_string) :
  nl <= 1 -> line <> [] -> single_seps st ->
  step_sep limit nl st line = Some st' -> single_seps st'.
Proof.
  destruct st as [[chunks current] sep]. intros Hnl Hline (Hc & Hs & H0).
  unfold step_sep.
  assert (Hc1 : Forall (fun p => fst p <= 1)
                  (if truthy current then chunks ++ [(sep, current)]
                   else chunks)).
  { destruct (truthy current); auto. apply Forall_app; split; auto. }
  assert (Hs1 : (if truthy current then nl else sep + nl) <= 1).
  { destruct (truthy current) eqn:Et; auto.
    apply truthy_false in Et. rewrite (H0 Et). simpl. exact Hnl. }
  destruct (length (if truthy current then current ++ NL :: line else line)
            <=? limit).
  - intros H; injection H as <-. simpl. split; [exact Hc|].
    destruct (truthy current) eqn:Et.
    + split; [exact Hs|]. intros E. now destruct current.
    + split; [|congruence].
      apply truthy_false in Et. rewrite (H0 Et). simpl. exact Hnl.
  - destruct (length line <=? limit).
    + intros H; injection H as <-. simpl. repeat split; auto. congruence.
    + destruct (hardSplit_sep (length line) line limit 0
                  (if truthy current then nl else sep + nl)
                  (if truthy current then chunks ++ [(sep, current)]
                   else chunks)) as [out|] eqn:Eh; [|discriminate].
      intros H; injection H as <-. simpl. repeat split; auto.
      eapply hardSplit_sep_single; eauto.
Qed.

Lemma loop_sep_single (limit : nat) (lines : list js_string) :
  forall nl st st',
    nl <= 1 -> Forall (fun l => l <> []) lines -> single_seps st ->
    loop_sep limit nl lines st = Some st' -> single_seps st'.
Proof.
  induction lines as [|line rest IH]; intros nl st st' Hnl Hl Hst; simpl.
  - now intros H; injection H as <-.
  - inversion Hl; subst.
    destruct (step_sep limit nl st line) as [st1|] eqn:Es; [|discriminate].
    apply IH; auto. eapply step_sep_single; eauto.
Qed.

Lemma rejoin_single_eq (tagged : list (nat * js_string)) :
  Forall (fun p => fst p <= 1) tagged -> rejoin_single tagged = rejoin tagged.
Proof.
  unfold rejoin_single, rejoin. induction 1 as [|[n c] rest Hn _ IH]; simpl.
  - reflexivity.
  - rewrite IH. f_equal. simpl in Hn.
    destruct n as [|[|n]]; simpl; [reflexivity|reflexivity|lia].
Qed.

(** ** Trimmed text neither starts nor ends with white space *)

Lemma trimStart_suffix (s : js_string) : exists pre, s = pre ++ trimStart s.
Proof.
  induction s as [|c s [pre IH]]; simpl.
  - now exists [].
  - destruct (is_space c).
    + exists (c :: pre). simpl. now f_equal.
    + now exists [].
Qed.

Lemma trimStart_head (s : js_string) (c : code_unit) (r : js_string) :
  trimStart s = c :: r -> is_space c = false.
Proof.
  induction s as [|a s IH]; simpl; [discriminate|].
  destruct (is_space a) eqn:E; [exact IH|].
  intros H; injection H as -> _. exact E.
Qed.

Lemma trim_head (s : js_string) (c : code_unit) (r : js_string) :
  trim s = c :: r -> is_space c = false.
Proof.
  unfold trim. intros H.
  destruct (trimStart_suffix (rev (trimStart s))) as [pre Hpre].
  apply (f_equal (@rev code_unit)) in Hpre.
  rewrite rev_involutive, rev_app_distr, H in Hpre. simpl in Hpre.
  eapply trimStart_head. exact Hpre.
Qed.

Lemma trim_last (s r : js_string) (c : code_unit) :
  trim s = r ++ [c] -> is_space c = false.
Proof.
  unfold trim. intros H.
  apply (f_equal (@rev code_unit)) in H.
  rewrite rev_involutive, rev_app_distr in H. simpl in H.
  eapply trimStart_head. exact H.
Qed.

End ChunkerFacts.

(* ================================================================== *)
(** * Chunker: size bound, non-empty chunks, re-joining                *)
(* ================================================================== *)

Section ChunkerClaims.
Import Chunker.

(** C3.  With a positive limit the chunker returns, and no chunk it returns
    is longer than the limit, the pieces cut out of an over-long line
    included; the empty text gives no chunk; a text of 5000 code units
    without a newline is cut, at the default limit of 1800, into exactly
    three chunks (each within the limit, their concatenation the text). *)
Theorem chunkMessage_within_limit :
  (forall (text : js_string) (limit : nat),
      0 < limit ->
      exists chunks,
        chunkMessage text limit = Some chunks
        /\ Forall (fun c => length c <= limit) chunks)
  /\ (forall limit : nat, chunkMessage [] limit = Some [])
  /\ (forall text : js_string,
         length text = 5000 -> ~ In NL text ->
         exists chunks,
           chunkMessage text DEFAULT_LIMIT = Some chunks
           /\ length chunks = 3
           /\ Forall (fun c => length c <= 1800) chunks
           /\ concat chunks = text).
Proof.
  split; [|split].
  - intros text limit Hl.
    destruct (chunkMessage_pieces text limit Hl) as (chunks & Hrun & Hok).
    exists chunks. split; [exact Hrun|].
    eapply Forall_impl; [|exact Hok]. unfold piece_ok. intros c Hc. lia.
  - reflexivity.
  - intros text Hlen Hnl.
    assert (Hl : 0 < DEFAULT_LIMIT) by (unfold DEFAULT_LIMIT; lia).
    destruct (chunkMessage_single_line text DEFAULT_LIMIT Hl Hnl)
      as (chunks & Hrun & Hcat & Hcount).
    { unfold DEFAULT_LIMIT. lia. }
    destruct (chunkMessage_pieces text DEFAULT_LIMIT Hl)
      as (chunks' & Hrun' & Hok).
    rewrite Hrun in Hrun'. injection Hrun' as <-.
    exists chunks. repeat split; auto.
    + rewrite Hcount, Hlen. reflexivity.
    + eapply Forall_impl; [|exact Hok]. unfold piece_ok, DEFAULT_LIMIT.
      intros c Hc. lia.
Qed.

Lemma chunkMessage_within_limit_witness :
  (exists chunks,
      chunkMessage [97; 98; 99; 10; 100; 101]%N 2 = Some chunks
      /\ Forall (fun c => length c <= 2) chunks)
  /\ (exists chunks,
         chunkMessage (repeat 97%N 5000) DEFAULT_LIMIT = Some chunks
         /\ length chunks = 3
         /\ Forall (fun c => length c <= 1800) chunks
         /\ concat chunks = repeat 97%N 5000).
Proof.
  split.
  - apply (proj1 chunkMessage_within_limit). lia.
  - apply (proj2 (proj2 chunkMessage_within_limit)).
    + apply repeat_length.
    + intros H. apply repeat_spec in H. discriminate H.
Defined.

(** C9.  With a positive limit every chunk returned by the chunker holds at
    least one code unit (an empty line never becomes a chunk), and every
    payload the dispatcher posts is non-empty. *)
Theorem chunkMessage_nonempty_chunks :
  (forall (text : js_string) (limit : nat),
      0 < limit ->
      exists chunks,
        chunkMessage text limit = Some chunks
        /\ Forall (fun c => 1 <= length c) chunks)
  /\ (forall blocks : list (option js_string),
         exists posts,
           postMessageBlocks blocks = Some posts
           /\ Forall (fun c => 1 <= length c) posts).
Proof.
  assert (H : forall text limit, 0 < limit ->
              exists chunks, chunkMessage text limit = Some chunks
                             /\ Forall (fun c => 1 <= length c) chunks).
  { intros text limit Hl.
    destruct (chunkMessage_pieces text limit Hl) as (chunks & Hrun & Hok).
    exists chunks. split; [exact Hrun|].
    eapply Forall_impl; [|exact Hok]. unfold piece_ok. intros c Hc. lia. }
  split; [exact H|].
  intros blocks. unfold postMessageBlocks.
  destruct (truthy (group_content blocks));
    [|exists []; split; [reflexivity|constructor]].
  destruct (H (group_content blocks) DEFAULT_LIMIT) as (chunks & -> & Hok).
  { unfold DEFAULT_LIMIT. lia. }
  eexists; split; [reflexivity|].
  apply Forall_forall. intros c Hc. apply filter_In in Hc.
  rewrite Forall_forall in Hok. apply Hok, Hc.
Qed.

Lemma chunkMessage_nonempty_chunks_witness :
  exists chunks,
    chunkMessage [97; 10; 10; 10; 98; 99; 100]%N 2 = Some chunks
    /\ Forall (fun c => 1 <= length c) chunks.
Proof.
  apply (proj1 chunkMessage_nonempty_chunks). lia.
Defined.

(** C4 as stated fails: a flush that falls on a blank line drops the blank
    line.  The trimmed text made of 1800 letters, an empty line and one more
    letter is cut into two chunks, and neither a newline nor nothing between
    them gives the text back. *)
Lemma chunkMessage_rejoin_counterexample :
  ~ (forall (text : js_string) (chunks : list js_string),
        chunkMessage (trim text) DEFAULT_LIMIT = Some chunks ->
        exists seps,
          length seps = length chunks - 1
          /\ Forall boundary_sep seps
          /\ weave chunks seps = trim text).
Proof.
  intros H.
  set (a := repeat 97%N 1800).
  assert (Ht : trim (a ++ [NL; NL; 98%N]) = a ++ [NL; NL; 98%N])
    by (vm_compute; reflexivity).
  assert (Hc : chunkMessage (a ++ [NL; NL; 98%N]) DEFAULT_LIMIT
               = Some [a; [98%N]]) by (vm_compute; reflexivity).
  specialize (H (a ++ [NL; NL; 98%N]) [a; [98%N]]). rewrite Ht in H.
  destruct (H Hc) as (seps & Hlen & Hsep & Hw).
  clear H Ht Hc. clearbody a.
  destruct seps as [|s [|s' seps]]; cbn [length Nat.sub] in Hlen;
    try discriminate Hlen.
  inversion Hsep as [|? ? Hs _]; subst.
  cbn [weave] in Hw. apply (f_equal (@length code_unit)) in Hw.
  rewrite !length_app in Hw.
  destruct Hs as [-> | ->]; cbn [length] in Hw;
    unfold js_string, code_unit in *; lia.
Qed.

(** C4, amended.  For a positive limit and a non-empty trimmed text, the
    chunks of the recording chunker are the chunks of the chunker, and
    putting back in front of every chunk the newlines consumed there (none
    at a cut inside an over-long line and none before the first chunk; at a
    line boundary the newline and one more for every empty line skipped at
    that boundary) gives the trimmed text back exactly.  When the text has
    no empty line, a single newline at each line boundary is enough. *)
Theorem chunkMessage_rejoin :
  forall (text : js_string) (limit : nat),
    0 < limit -> trim text <> [] ->
    exists tagged,
      chunkMessage_sep (trim text) limit = Some tagged
      /\ chunkMessage (trim text) limit = Some (map snd tagged)
      /\ rejoin tagged = trim text
      /\ hd 0 (map fst tagged) = 0
      /\ (Forall (fun l => l <> []) (split_nl (trim text)) ->
          rejoin_single tagged = trim text).
Proof.
  intros text limit Hl Hne.
  set (content := trim text) in *.
  destruct (chunkMessage_pieces content limit Hl) as (chunks & Hrun & _).
  pose proof (chunkMessage_sep_forget content limit) as Hf.
  rewrite Hrun in Hf.
  destruct (chunkMessage_sep content limit) as [tagged|] eqn:Et;
    [|discriminate].
  simpl in Hf. injection Hf as Hf.
  assert (Hfirst : exists c r, content = c :: r /\ c <> NL).
  { destruct content as [|c r] eqn:Ec; [congruence|].
    exists c, r. split; [reflexivity|]. intros ->.
    apply trim_head in Ec. discriminate Ec. }
  assert (Hlast : forall r n, content <> r ++ repeat NL (S n)).
  { intros r n E. replace (S n) with (n + 1) in E by lia.
    rewrite repeat_app, app_assoc in E. simpl in E.
    apply trim_last in E. discriminate E. }
  unfold chunkMessage_sep in Et.
  assert (Htr : truthy content = true) by (now apply truthy_true).
  rewrite Htr in Et.
  destruct (loop_sep limit 0 (split_nl content) ([], [], 0))
    as [[[chs current] sep]|] eqn:El; [|discriminate].
  pose proof (loop_sep_rejoin limit (split_nl content) 0 ([], [], 0)
                (chs, current, sep)) as Hacc.
  simpl in Hacc. specialize (Hacc ltac:(discriminate) El).
  rewrite laid_split in Hacc.
  assert (Hrej : rejoin tagged = content).
  { destruct (truthy current) eqn:Ecur; injection Et as <-.
    - now rewrite rejoin_app, rejoin_one.
    - apply truthy_false in Ecur; subst current. rewrite app_nil_r in Hacc.
      destruct sep as [|n]; [now rewrite app_nil_r in Hacc|].
      exfalso. apply (Hlast (rejoin chs) n). now symmetry. }
  exists tagged. split; [reflexivity|].
  split; [now rewrite Hf|]. split; [exact Hrej|]. split.
  - destruct Hfirst as (c & r & Hc & Hnl).
    destruct tagged as [|[n ch] rest]; [reflexivity|]. simpl.
    destruct n as [|n]; [reflexivity|].
    exfalso. rewrite <- Hrej in Hc. unfold rejoin in Hc. simpl in Hc.
    injection Hc as Hc' _. apply Hnl. now symmetry.
  - intros Hlines. rewrite <- Hrej. apply rejoin_single_eq.
    pose proof (loop_sep_single limit (split_nl content) 0 ([], [], 0)
                  (chs, current, sep)) as Hs.
    destruct Hs as (Hc & Hs & _); auto.
    { simpl. repeat split; auto. }
    destruct (truthy current); injection Et as <-; auto.
    apply Forall_app; split; auto.
Qed.

Lemma chunkMessage_rejoin_witness :
  exists tagged,
    chunkMessage_sep (trim [32; 97; 98; 99; 10; 10; 100; 101; 102; 103; 32]%N) 3
      = Some tagged
    /\ chunkMessage (trim [32; 97; 98; 99; 10; 10; 100; 101; 102; 103; 32]%N) 3
       = Some (map snd tagged)
    /\ rejoin tagged = trim [32; 97; 98; 99; 10; 10; 100; 101; 102; 103; 32]%N
    /\ hd 0 (map fst tagged) = 0
    /\ (Forall (fun l => l <> [])
          (split_nl (trim [32; 97; 98; 99; 10; 10; 100; 101; 102; 103; 32]%N)) ->
        rejoin_single tagged
        = trim [32; 97; 98; 99; 10; 10; 100; 101; 102; 103; 32]%N).
Proof.
  apply chunkMessage_rejoin; [lia | vm_compute; discriminate].
Defined.

End ChunkerClaims.

(* ================================================================== *)
(** * The sort                                                         *)
(* ================================================================== *)

Section SortFacts.

Context {A : Type}.
Variable cmp : A -> A -> Z.

Lemma insert_perm (x : A) (l : list A) :
  Permutation (JsArray.insert cmp x l) (x :: l).
Proof.
  induction l as [|y l IH]; simpl; [reflexivity|].
  destruct (cmp x y <=? 0)%Z; [reflexivity|].
  rewrite IH. apply perm_swap.
Qed.

Lemma sort_perm (l : list A) : Permutation (JsArray.sort cmp l) l.
Proof.
  induction l as [|x l IH]; simpl; [reflexivity|].
  rewrite insert_perm. now constructor.
Qed.

Lemma sort_length (l : list A) : length (JsArray.sort cmp l) = length l.
Proof. apply Permutation_length, sort_perm. Qed.

Lemma sort_nil_inv (l : list A) : JsArray.sort cmp l = [] -> l = [].
Proof.
  intros H. apply (f_equal (@length A)) in H. rewrite sort_length in H.
  now destruct l.
Qed.

(** A comparator is consistent on a set of elements when "not after" is
    total and transitive there. *)
Variable dom : A -> Prop.
Hypothesis cmp_total :
  forall a b, dom a -> dom b -> (0 < cmp a b)%Z -> (cmp b a <= 0)%Z.
Hypothesis cmp_trans :
  forall a b c, dom a -> dom b -> dom c ->
    (cmp a b <= 0)%Z -> (cmp b c <= 0)%Z -> (cmp a c <= 0)%Z.

Lemma insert_sorted (x : A) (l : list A) :
  dom x -> Forall dom l ->
  StronglySorted (fun a b => (cmp a b <= 0)%Z) l ->
  StronglySorted (fun a b => (cmp a b <= 0)%Z) (JsArray.insert cmp x l).
Proof.
  intros Hx Hd Hs. induction Hs as [|y l Hs IH Hy]; simpl.
  - repeat constructor.
  - inversion Hd as [|? ? Hdy Hdl]; subst.
    destruct (cmp x y <=? 0)%Z eqn:E.
    + apply Z.leb_le in E. constructor; [now constructor|].
      constructor; [exact E|].
      rewrite Forall_forall in *. intros z Hz.
      apply (cmp_trans x y z); auto.
    + apply Z.leb_gt in E. constructor; [now apply IH|].
      rewrite Forall_forall. intros z Hz.
      apply (Permutation_in _ (insert_perm x l)) in Hz.
      destruct Hz as [<-|Hz].
      * apply cmp_total; auto.
      * rewrite Forall_forall in Hy. now apply Hy.
Qed.

Lemma sort_sorted (l : list A) :
  Forall dom l ->
  StronglySorted (fun a b => (cmp a b <= 0)%Z) (JsArray.sort cmp l).
Proof.
  induction l as [|x l IH]; simpl; intros Hd; [constructor|].
  inversion Hd; subst. apply insert_sorted; auto.
  rewrite Forall_forall in *. intros z Hz.
  apply (Permutation_in _ (sort_perm l)) in Hz. auto.
Qed.

End SortFacts.

Lemma StronglySorted_firstn {A : Type} (R : A -> A -> Prop) (n : nat)
    (l : list A) :
  StronglySorted R l -> StronglySorted R (firstn n l).
Proof.
  intros H. revert n. induction H as [|x l Hs IH Hx]; intros [|n]; simpl;
    try constructor; auto.
  rewrite Forall_forall in *. intros y Hy. apply Hx.
  rewrite <- (firstn_skipn n l). apply in_or_app. now left.
Qed.

Lemma StronglySorted_impl_in {A : Type} (R S : A -> A -> Prop) (l : list A) :
  (forall a b, In a l -> In b l -> R a b -> S a b) ->
  StronglySorted R l -> StronglySorted S l.
Proof.
  intros H Hs. induction Hs as [|x l Hs IH Hx]; constructor.
  - apply IH. intros a b Ha Hb. apply H; now right.
  - rewrite Forall_forall in *. intros y Hy.
    apply H; [now left|now right|now apply Hx].
Qed.

(** In a strongly sorted list, what comes after the first [n] elements is
    related to each of them. *)
Lemma StronglySorted_split {A : Type} (R : A -> A -> Prop) (n : nat)
    (l : list A) :
  StronglySorted R l ->
  forall a b, In a (firstn n l) -> In b (skipn n l) -> R a b.
Proof.
  intros H. revert n. induction H as [|x l Hs IH Hx]; intros n a b Ha Hb.
  - now rewrite firstn_nil in Ha.
  - destruct n as [|n]; simpl in *; [contradiction|].
    destruct Ha as [<-|Ha].
    + rewrite Forall_forall in Hx. apply Hx.
      rewrite <- (firstn_skipn n l). apply in_or_app. now right.
    + eapply IH; eauto.
Qed.

(* ================================================================== *)
(** * Author resolution and contributor summaries                      *)
(* ================================================================== *)

Section AuthorFacts.
Import Strings.String.
Import JsString Report.
Local Open Scope string_scope.

Lemma nonempty_true (s : string) : nonempty s = true <-> s <> "".
Proof.
  unfold nonempty. destruct (String.eqb_spec s ""); simpl; split;
    intros; congruence.
Qed.

Lemma or_else_present (o : option string) (s d : string) :
  present o s -> or_else o d = s.
Proof.
  intros [-> Hs]. simpl. apply nonempty_true in Hs. now rewrite Hs.
Qed.

Lemma or_else_absent (o : option string) (d : string) :
  absent o -> or_else o d = d.
Proof. intros [-> | ->]; reflexivity. Qed.

Lemma or_else_nonempty (o : option string) (d : string) :
  d <> "" -> or_else o d <> "".
Proof.
  intros Hd. destruct o as [s|]; simpl; [|exact Hd].
  destruct (nonempty s) eqn:E; [|exact Hd]. now apply nonempty_true.
Qed.

Lemma or_else_clear (o : option string) (d : string) :
  or_else (clear o) d = or_else o d.
Proof.
  unfold clear. destruct o as [s|]; simpl; [|reflexivity].
  destruct (nonempty s) eqn:E; simpl; [now rewrite E|reflexivity].
Qed.

Lemma resolveAuthorName_nonempty (entry : option Entry.t) :
  resolveAuthorName entry <> "".
Proof.
  destruct entry as [e|]; simpl; [|discriminate].
  repeat apply or_else_nonempty. discriminate.
Qed.

End AuthorFacts.

Section MemberFacts.
Import Strings.String.
Import JsString Report.
Local Open Scope string_scope.

Lemma bump_names (f : Member.t -> Member.t) (name : string)
    (ms : list Member.t) :
  (forall m, Member.name (f m) = Member.name m) ->
  map Member.name (bump f name ms) = ensure_name name (map Member.name ms).
Proof.
  intros Hf. unfold ensure_name. induction ms as [|m ms IH]; simpl.
  - now rewrite Hf.
  - rewrite (String.eqb_sym name).
    destruct (String.eqb (Member.name m) name) eqn:E; simpl.
    + now rewrite Hf.
    + rewrite IH. now destruct (existsb (String.eqb name) (map Member.name ms)).
Qed.

Lemma ensure_name_NoDup (name : string) (names : list string) :
  NoDup names -> NoDup (ensure_name name names).
Proof.
  intros H. unfold ensure_name.
  destruct (existsb (String.eqb name) names) eqn:E; [exact H|].
  apply NoDup_app; [exact H|repeat constructor; intros []|].
  { intros x Hx [<-|[]].
    assert (existsb (String.eqb name) names = true); [|congruence].
    apply existsb_exists. exists name.
    split; [exact Hx|apply String.eqb_refl]. }
Qed.

Lemma ensure_name_Forall (P : string -> Prop) (name : string)
    (names : list string) :
  P name -> Forall P names -> Forall P (ensure_name name names).
Proof.
  intros Hn H. unfold ensure_name.
  destruct (existsb (String.eqb name) names); [exact H|].
  apply Forall_app; split; [exact H|now repeat constructor].
Qed.

Lemma tally_names_ok (f : Member.t -> Member.t) (items : list Entry.t) :
  keeps_name f ->
  forall ms,
    NoDup (map Member.name ms) /\ Forall (fun n => n <> "") (map Member.name ms) ->
    NoDup (map Member.name (tally f items ms))
    /\ Forall (fun n => n <> "") (map Member.name (tally f items ms)).
Proof.
  intros Hf. unfold tally.
  induction items as [|item items IH]; simpl; intros ms [Hnd Hne];
    [now split|].
  apply IH. rewrite (bump_names f _ ms Hf). split.
  - now apply ensure_name_NoDup.
  - apply ensure_name_Forall; [|exact Hne].
    exact (resolveAuthorName_nonempty (Some item)).
Qed.

Lemma member_entries_names
    (commits mrsMerged mrsOpened issuesOpened issuesClosed : list Entry.t) :
  let ms := member_entries commits mrsMerged mrsOpened issuesOpened
              issuesClosed in
  NoDup (map Member.name ms) /\ Forall (fun n => n <> "") (map Member.name ms).
Proof.
  simpl. unfold member_entries. rewrite map_map. simpl.
  repeat (apply tally_names_ok; [intros m; reflexivity|]).
  simpl. split; constructor.
Qed.

(** ** Counting commits *)

Lemma bump_commit_sum_keep (f : Member.t -> Member.t) (name : string)
    (ms : list Member.t) :
  (forall m, Member.commits (f m) = Member.commits m) ->
  commit_sum (bump f name ms) = commit_sum ms.
Proof.
  intros Hf. unfold commit_sum. induction ms as [|m ms IH]; simpl.
  - now rewrite Hf.
  - destruct (String.eqb (Member.name m) name); simpl; [now rewrite Hf|].
    now rewrite IH.
Qed.

Lemma bump_commit_sum_add (name : string) (ms : list Member.t) :
  commit_sum (bump add_commit name ms) = S (commit_sum ms).
Proof.
  unfold commit_sum. induction ms as [|m ms IH]; simpl; [reflexivity|].
  destruct (String.eqb (Member.name m) name); simpl; [lia|].
  rewrite IH. lia.
Qed.

Lemma tally_commit_sum_keep (f : Member.t -> Member.t)
    (items : list Entry.t) :
  (forall m, Member.commits (f m) = Member.commits m) ->
  forall ms, commit_sum (tally f items ms) = commit_sum ms.
Proof.
  intros Hf. unfold tally. induction items as [|item items IH]; simpl;
    intros ms; [reflexivity|].
  rewrite IH. now apply bump_commit_sum_keep.
Qed.

Lemma tally_commit_sum_add (items : list Entry.t) :
  forall ms,
    commit_sum (tally add_commit items ms) = List.length items + commit_sum ms.
Proof.
  unfold tally. induction items as [|item items IH]; simpl; intros ms;
    [reflexivity|].
  rewrite IH, bump_commit_sum_add. lia.
Qed.

Lemma set_commitPct_commit_sum (totalCommits : nat) (ms : list Member.t) :
  commit_sum (map (set_commitPct totalCommits) ms) = commit_sum ms.
Proof.
  unfold commit_sum. rewrite map_map. reflexivity.
Qed.

Lemma member_entries_commit_sum
    (commits mrsMerged mrsOpened issuesOpened issuesClosed : list Entry.t) :
  commit_sum (member_entries commits mrsMerged mrsOpened issuesOpened
                issuesClosed)
  = List.length commits.
Proof.
  unfold member_entries. rewrite set_commitPct_commit_sum.
  rewrite !tally_commit_sum_keep by (intros m; reflexivity).
  rewrite tally_commit_sum_add. unfold commit_sum. simpl. lia.
Qed.

Lemma member_entries_pct
    (commits mrsMerged mrsOpened issuesOpened issuesClosed : list Entry.t) :
  Forall (fun m => Member.commitPct m
                   = percentage (Member.commits m) (List.length commits))
    (member_entries commits mrsMerged mrsOpened issuesOpened issuesClosed).
Proof.
  unfold member_entries. apply Forall_map. apply Forall_forall.
  intros m _. reflexivity.
Qed.

End MemberFacts.

Section AuthorClaims.
Import Strings.String.
Import JsString Report.
Local Open Scope string_scope.

(** C7.  The display name of a record is the first non-empty field of the
    chain [author.name], [author.username], [author_name], then the e-mail
    ([author_email], then [author.email]); a record whose only populated
    field is an e-mail resolves to that e-mail; a record without any author
    field, and a missing record, resolve to ["Unknown"]. *)
Theorem resolveAuthorName_fallback :
  resolveAuthorName None = "Unknown"
  /\ forall e : Entry.t,
       let name := author_field Author.name e in
       let username := author_field Author.username e in
       let raw := Entry.author_name e in
       let mail := Entry.author_email e in
       let mail' := author_field Author.email e in
       (forall s, present name s -> resolveAuthorName (Some e) = s)
       /\ (forall s, absent name -> present username s ->
                     resolveAuthorName (Some e) = s)
       /\ (forall s, absent name -> absent username -> present raw s ->
                     resolveAuthorName (Some e) = s)
       /\ (forall s, absent name -> absent username -> absent raw ->
                     present mail s -> resolveAuthorName (Some e) = s)
       /\ (forall s, absent name -> absent username -> absent raw ->
                     absent mail -> present mail' s ->
                     resolveAuthorName (Some e) = s)
       /\ (absent name -> absent username -> absent raw -> absent mail ->
           absent mail' -> resolveAuthorName (Some e) = "Unknown").
Proof.
  split; [reflexivity|]. intros e name username raw mail mail'.
  unfold resolveAuthorName. fold name username raw mail mail'.
  repeat split; intros;
    repeat (first [ rewrite or_else_absent by assumption
                  | rewrite (or_else_present _ s) by assumption ]);
    reflexivity.
Qed.

Lemma resolveAuthorName_fallback_witness :
  resolveAuthorName
    (Some (Entry.mk None None None (Some (Author.mk None (Some "") None))
             None (Some "dev@example.org") None None None None None None))
  = "dev@example.org".
Proof.
  pose proof (proj2 resolveAuthorName_fallback
                (Entry.mk None None None
                   (Some (Author.mk None (Some "") None))
                   None (Some "dev@example.org") None None None None None
                   None)) as H.
  cbv zeta in H. destruct H as (_ & _ & _ & H & _).
  apply H.
  - left; reflexivity.
  - right; reflexivity.
  - left; reflexivity.
  - split; [reflexivity|discriminate].
Defined.

(** C10.  Author resolution never returns the empty string: an author field
    that is the empty string counts as missing (removing such fields does
    not change the result), the chain ends in ["Unknown"], and so every
    contributor summary is keyed by a non-empty name. *)
Theorem resolveAuthorName_never_empty :
  (forall entry : option Entry.t, resolveAuthorName entry <> "")
  /\ (forall e : Entry.t,
         resolveAuthorName (Some (clear_blank e))
         = resolveAuthorName (Some e))
  /\ (forall (localeCompare : string -> string -> Z)
             (commits mrsMerged mrsOpened issuesOpened issuesClosed
                : list Entry.t),
         Forall (fun m => Member.name m <> "")
           (buildMemberSummaries localeCompare commits mrsMerged mrsOpened
              issuesOpened issuesClosed)).
Proof.
  split; [exact resolveAuthorName_nonempty|]. split.
  - intros e. unfold resolveAuthorName, clear_blank, author_field. simpl.
    destruct (Entry.author e) as [a|]; simpl; now rewrite !or_else_clear.
  - intros lc commits mrsMerged mrsOpened issuesOpened issuesClosed.
    unfold buildMemberSummaries.
    destruct (member_entries_names commits mrsMerged mrsOpened issuesOpened
                issuesClosed) as [_ H].
    rewrite Forall_map in H. rewrite Forall_forall in *.
    intros m Hm. apply H.
    eapply Permutation_in; [apply sort_perm|exact Hm].
Qed.

End AuthorClaims.

(* ================================================================== *)
(** * Ranking of the contributor summaries                             *)
(* ================================================================== *)

Lemma StronglySorted_before {A : Type} (R : A -> A -> Prop)
    (l1 r : list A) (a : A) :
  StronglySorted R (l1 ++ a :: r) -> forall b, In b l1 -> R b a.
Proof.
  induction l1 as [|x l1 IH]; simpl; intros H b Hb; [contradiction|].
  inversion H as [|? ? Hs Hx]; subst. destruct Hb as [<-|Hb].
  - rewrite Forall_forall in Hx. apply Hx, in_or_app. right. now left.
  - now apply IH.
Qed.

(** ** The sort keeps the order of what the comparator does not put
    after *)

Section SortStable.
Import Report.

Context {A : Type}.
Variable cmp : A -> A -> Z.

Lemma before_cons (x a b : A) (l : list A) :
  before a b l -> before a b (x :: l).
Proof.
  intros (l1 & l2 & l3 & ->). now exists (x :: l1), l2, l3.
Qed.

Lemma before_head (a b : A) (l : list A) : In b l -> before a b (a :: l).
Proof.
  intros H. destruct (in_split b l H) as (l2 & l3 & ->).
  now exists [], l2, l3.
Qed.

Lemma before_inv (x a b : A) (l : list A) :
  before a b (x :: l) -> (x = a /\ In b l) \/ before a b l.
Proof.
  intros ([|y l1] & l2 & l3 & E); simpl in E; injection E as -> ->.
  - left. split; [reflexivity|]. apply in_or_app. right. now left.
  - right. now exists l1, l2, l3.
Qed.

Lemma insert_before_keep (x a b : A) (l : list A) :
  before a b l -> before a b (JsArray.insert cmp x l).
Proof.
  induction l as [|y l IH]; intros H.
  - destruct H as ([|? ?] & ? & ? & E); discriminate E.
  - simpl. destruct (cmp x y <=? 0)%Z; [now apply before_cons|].
    destruct (before_inv _ _ _ _ H) as [[-> Hb]|Hl].
    + apply before_head.
      apply (Permutation_in _ (Permutation_sym (insert_perm cmp x l))).
      now right.
    + apply before_cons. now apply IH.
Qed.

Lemma insert_before_new (x b : A) (l : list A) :
  In b l -> (cmp x b <= 0)%Z -> before x b (JsArray.insert cmp x l).
Proof.
  induction l as [|y l IH]; intros Hb Hc; [contradiction|].
  simpl. destruct (cmp x y <=? 0)%Z eqn:E.
  - now apply before_head.
  - apply Z.leb_gt in E. destruct Hb as [->|Hb]; [lia|].
    apply before_cons. now apply IH.
Qed.

Lemma sort_stable (a b : A) (l : list A) :
  before a b l -> (cmp a b <= 0)%Z -> before a b (JsArray.sort cmp l).
Proof.
  induction l as [|x l IH]; intros H Hc.
  - destruct H as ([|? ?] & ? & ? & E); discriminate E.
  - simpl. destruct (before_inv _ _ _ _ H) as [[-> Hb]|Hl].
    + apply insert_before_new; [|exact Hc].
      apply (Permutation_in _ (Permutation_sym (sort_perm cmp l))).
      exact Hb.
    + apply insert_before_keep. now apply IH.
Qed.

End SortStable.

Section MemberRanking.
Import Strings.String.
Import JsString Report.

Variable localeCompare : string -> string -> Z.

(** What the ranking needs from the collation: it is antisymmetric and
    transitive.  It need not tell any two different names apart. *)
Hypothesis lc_antisym :
  forall a b, (localeCompare a b < 0 <-> 0 < localeCompare b a)%Z.
Hypothesis lc_trans :
  forall a b c,
    (localeCompare a b <= 0)%Z -> (localeCompare b c <= 0)%Z ->
    (localeCompare a c <= 0)%Z.

Lemma lc_strict_trans (a b c : string) :
  (localeCompare a b < 0)%Z -> (localeCompare b c < 0)%Z ->
  (localeCompare a c < 0)%Z.
Proof.
  intros Hab Hbc.
  pose proof (lc_trans a b c ltac:(lia) ltac:(lia)) as Hac.
  destruct (Z.eq_dec (localeCompare a c) 0) as [E|E]; [exfalso|lia].
  pose proof (lc_antisym c a) as Hca. pose proof (lc_antisym a c) as Hac'.
  assert (Hca0 : (localeCompare c a <= 0)%Z) by lia.
  pose proof (lc_trans c a b Hca0 ltac:(lia)) as Hcb.
  pose proof (lc_antisym b c). lia.
Qed.

Lemma member_cmp_neg (a b : Member.t) :
  (member_cmp localeCompare a b < 0)%Z <-> ranks_before localeCompare a b.
Proof.
  unfold member_cmp, ranks_before.
  destruct (Nat.eqb_spec (Member.mergedMrs b) (Member.mergedMrs a));
    simpl; [|lia].
  destruct (Nat.eqb_spec (Member.commits b) (Member.commits a));
    simpl; [|lia].
  destruct (Nat.eqb_spec (Member.issuesClosed b) (Member.issuesClosed a));
    simpl; lia.
Qed.

Lemma member_cmp_nonpos (a b : Member.t) :
  (member_cmp localeCompare a b <= 0)%Z
  <-> member_not_after localeCompare a b.
Proof.
  unfold member_cmp, member_not_after.
  destruct (Nat.eqb_spec (Member.mergedMrs b) (Member.mergedMrs a));
    simpl; [|lia].
  destruct (Nat.eqb_spec (Member.commits b) (Member.commits a));
    simpl; [|lia].
  destruct (Nat.eqb_spec (Member.issuesClosed b) (Member.issuesClosed a));
    simpl; lia.
Qed.

Lemma member_cmp_total (a b : Member.t) :
  (0 < member_cmp localeCompare a b)%Z ->
  (member_cmp localeCompare b a <= 0)%Z.
Proof.
  pose proof (lc_antisym (Member.name b) (Member.name a)) as H.
  unfold member_cmp.
  destruct (Nat.eqb_spec (Member.mergedMrs b) (Member.mergedMrs a)),
           (Nat.eqb_spec (Member.mergedMrs a) (Member.mergedMrs b));
    simpl; try lia.
  destruct (Nat.eqb_spec (Member.commits b) (Member.commits a)),
           (Nat.eqb_spec (Member.commits a) (Member.commits b));
    simpl; try lia.
  destruct (Nat.eqb_spec (Member.issuesClosed b) (Member.issuesClosed a)),
           (Nat.eqb_spec (Member.issuesClosed a) (Member.issuesClosed b));
    simpl; lia.
Qed.

Lemma member_cmp_trans (a b c : Member.t) :
  (member_cmp localeCompare a b <= 0)%Z ->
  (member_cmp localeCompare b c <= 0)%Z ->
  (member_cmp localeCompare a c <= 0)%Z.
Proof.
  rewrite !member_cmp_nonpos. unfold member_not_after.
  pose proof (lc_trans (Member.name a) (Member.name b) (Member.name c)).
  lia.
Qed.

Lemma ranks_before_irrefl (a : Member.t) : ~ ranks_before localeCompare a a.
Proof.
  unfold ranks_before.
  pose proof (lc_antisym (Member.name a) (Member.name a)). lia.
Qed.

Lemma ranks_before_not_after (a b : Member.t) :
  ranks_before localeCompare a b -> ~ member_not_after localeCompare b a.
Proof.
  unfold ranks_before, member_not_after.
  pose proof (lc_antisym (Member.name a) (Member.name b)). lia.
Qed.

Lemma ranks_before_trans (a b c : Member.t) :
  ranks_before localeCompare a b -> ranks_before localeCompare b c ->
  ranks_before localeCompare a c.
Proof.
  unfold ranks_before.
  pose proof (lc_strict_trans (Member.name a) (Member.name b)
                (Member.name c)).
  lia.
Qed.

Lemma ranks_before_or_tied (a b : Member.t) :
  ranks_before localeCompare a b \/ ranks_before localeCompare b a
  \/ member_tied localeCompare a b.
Proof.
  unfold ranks_before, member_tied.
  pose proof (lc_antisym (Member.name b) (Member.name a)).
  lia.
Qed.

Lemma member_tied_cmp (a b : Member.t) :
  member_tied localeCompare a b -> (member_cmp localeCompare a b <= 0)%Z.
Proof.
  intros (Hm & Hc & Hi & Hn). apply member_cmp_nonpos.
  unfold member_not_after. lia.
Qed.

(** C5, amended.  For a collation that is antisymmetric and transitive,
    the summaries returned by [buildMemberSummaries] are the collected
    summaries ordered by merged requests descending, then commits
    descending, then closed issues descending, then by their names as
    [localeCompare] orders them.  This ranking is irreflexive and
    transitive, and any two summaries are ranked one way or the other
    unless they have the same three counts and names that the collation
    does not tell apart.  A summary that ranks before another comes
    before it in the result, and two summaries that are not told apart
    keep the order in which their contributors were first seen. *)
Theorem buildMemberSummaries_ranking :
  forall commits mrsMerged mrsOpened issuesOpened issuesClosed : list Entry.t,
    let entries := member_entries commits mrsMerged mrsOpened issuesOpened
                     issuesClosed in
    let out := buildMemberSummaries localeCompare commits mrsMerged
                 mrsOpened issuesOpened issuesClosed in
    Permutation out entries
    /\ StronglySorted (member_not_after localeCompare) out
    /\ (forall a b,
           (member_cmp localeCompare a b < 0)%Z
           <-> ranks_before localeCompare a b)
    /\ (forall a, ~ ranks_before localeCompare a a)
    /\ (forall a b c,
           ranks_before localeCompare a b -> ranks_before localeCompare b c ->
           ranks_before localeCompare a c)
    /\ (forall a b,
           ranks_before localeCompare a b \/ ranks_before localeCompare b a
           \/ member_tied localeCompare a b)
    /\ (forall a b,
           In a out -> In b out -> ranks_before localeCompare a b ->
           before a b out)
    /\ (forall a b,
           member_tied localeCompare a b -> before a b entries ->
           before a b out).
Proof.
  intros commits mrsMerged mrsOpened issuesOpened issuesClosed entries out.
  assert (Hperm : Permutation out entries) by apply sort_perm.
  assert (Hsorted : StronglySorted (member_not_after localeCompare) out).
  { eapply StronglySorted_impl_in;
      [|apply (sort_sorted (member_cmp localeCompare) (fun _ => True))].
    - intros a b _ _ H. now apply member_cmp_nonpos.
    - intros a b _ _. apply member_cmp_total.
    - intros a b c _ _ _. apply member_cmp_trans.
    - apply Forall_forall. auto. }
  split; [exact Hperm|]. split; [exact Hsorted|].
  split; [exact member_cmp_neg|]. split; [exact ranks_before_irrefl|].
  split; [exact ranks_before_trans|]. split; [exact ranks_before_or_tied|].
  split.
  - intros a b Ha Hb Hab.
    destruct (in_split a out Ha) as (l1 & r & Hout).
    rewrite Hout in Hb, Hsorted.
    apply in_app_or in Hb. destruct Hb as [Hb|[Hb|Hb]].
    + exfalso. apply (ranks_before_not_after a b Hab).
      exact (StronglySorted_before _ l1 r a Hsorted b Hb).
    + subst b. now destruct (ranks_before_irrefl a).
    + destruct (in_split b r Hb) as (l2 & l3 & ->).
      exists l1, l2, l3. exact Hout.
  - intros a b Htied Hbefore. apply sort_stable; [exact Hbefore|].
    now apply member_tied_cmp.
Qed.

End MemberRanking.

Section ByteOrder.
Import Strings.String Strings.Ascii.
Import JsString Report.
Local Open Scope string_scope.

Lemma string_compare_trans (a b c : string) :
  String.compare a b <> Gt -> String.compare b c <> Gt ->
  String.compare a c <> Gt.
Proof.
  revert b c. induction a as [|x a IH]; intros [|y b] [|z c]; simpl;
    try congruence.
  unfold Ascii.compare.
  destruct (N.compare_spec (N_of_ascii x) (N_of_ascii y)) as [Exy|Lxy|Gxy];
  destruct (N.compare_spec (N_of_ascii y) (N_of_ascii z)) as [Eyz|Lyz|Gyz];
  destruct (N.compare_spec (N_of_ascii x) (N_of_ascii z)) as [Exz|Lxz|Gxz];
    try congruence; try lia.
  apply IH.
Qed.

Lemma byte_order_antisym (a b : string) :
  (byte_order a b < 0 <-> 0 < byte_order b a)%Z.
Proof.
  unfold byte_order. rewrite (String.compare_antisym a b).
  destruct (String.compare b a); simpl; lia.
Qed.

Lemma byte_order_trans (a b c : string) :
  (byte_order a b <= 0)%Z -> (byte_order b c <= 0)%Z ->
  (byte_order a c <= 0)%Z.
Proof.
  unfold byte_order. pose proof (string_compare_trans a b c) as H.
  destruct (String.compare a b), (String.compare b c),
    (String.compare a c); try lia; intros _ _; exfalso; apply H; congruence.
Qed.

Lemma lower_byte_order_antisym (a b : string) :
  (caseless_order a b < 0 <-> 0 < caseless_order b a)%Z.
Proof. apply byte_order_antisym. Qed.

Lemma lower_byte_order_trans (a b c : string) :
  (caseless_order a b <= 0)%Z -> (caseless_order b c <= 0)%Z ->
  (caseless_order a c <= 0)%Z.
Proof. apply byte_order_trans. Qed.

(** C5 as stated fails wherever the collation puts "a" before "B", as
    [localeCompare] does: with one commit by "a" and one by "B" the two
    summaries have the same counts, "B" is the lexicographically earlier
    name (its first code unit is 66, against 97), and "a" sorts first. *)
Lemma buildMemberSummaries_ranking_counterexample :
  ~ (exists localeCompare : string -> string -> Z,
        (localeCompare "a" "B" < 0)%Z
        /\ forall commits mrsMerged mrsOpened issuesOpened issuesClosed
                  : list Entry.t,
             let out := buildMemberSummaries localeCompare commits mrsMerged
                          mrsOpened issuesOpened issuesClosed in
             forall a b,
               In a out -> In b out ->
               Member.mergedMrs a = Member.mergedMrs b ->
               Member.commits a = Member.commits b ->
               Member.issuesClosed a = Member.issuesClosed b ->
               (byte_order (Member.name a) (Member.name b) < 0)%Z ->
               before a b out).
Proof.
  intros (lc & Hlc & H).
  pose (commit := fun who =>
          Entry.mk None None None None (Some who) None None None None None
            None None).
  pose (ma := Member.mk "a" 1 (JsNumber.JInt 50) 0 0 0 0).
  pose (mb := Member.mk "B" 1 (JsNumber.JInt 50) 0 0 0 0).
  specialize (H [commit "a"; commit "B"] [] [] [] []).
  assert (E : member_entries [commit "a"; commit "B"] [] [] [] []
              = [ma; mb]) by (vm_compute; reflexivity).
  assert (Eout : buildMemberSummaries lc [commit "a"; commit "B"] [] [] [] []
                 = [ma; mb]).
  { unfold buildMemberSummaries. rewrite E.
    cbn [JsArray.sort JsArray.insert].
    assert (Ec : member_cmp lc ma mb = lc "a" "B") by reflexivity.
    rewrite Ec.
    assert (El : (lc "a" "B" <=? 0)%Z = true) by (apply Z.leb_le; lia).
    now rewrite El. }
  cbv zeta in H. rewrite Eout in H.
  destruct (H mb ma) as (l1 & l2 & l3 & Hl);
    [right; now left|now left|reflexivity|reflexivity|reflexivity
    |reflexivity|].
  unfold ma, mb in Hl. destruct l1 as [|x [|y l1]]; simpl in Hl.
  - discriminate Hl.
  - injection Hl as _ Hl. destruct l2; discriminate Hl.
  - injection Hl as _ _ Hl. destruct l1; discriminate Hl.
Qed.

Lemma buildMemberSummaries_ranking_witness :
  let commit who :=
    Entry.mk None None None None (Some who) None None None None None None
      None in
  let out :=
    buildMemberSummaries caseless_order
      [commit "Zed"; commit "B"; commit "alice"; commit "a"] [] [] [] [] in
  StronglySorted (member_not_after caseless_order) out
  /\ map Member.name out = ["a"; "alice"; "B"; "Zed"].
Proof.
  intros commit out. split; [|vm_compute; reflexivity].
  exact (proj1 (proj2
           (buildMemberSummaries_ranking caseless_order
              lower_byte_order_antisym lower_byte_order_trans
              [commit "Zed"; commit "B"; commit "alice"; commit "a"]
              [] [] [] []))).
Defined.

End ByteOrder.

(* ================================================================== *)
(** * Major features                                                   *)
(* ================================================================== *)

Section FeatureClaims.
Import Strings.String.
Import JsString Report.
Local Open Scope string_scope.

Lemma feature_cmp_nonpos (a b : Entry.t) :
  sort_time a <> None -> sort_time b <> None ->
  ((feature_cmp a b <= 0)%Z <-> not_older sort_time a b).
Proof.
  unfold feature_cmp, not_older. intros Ha Hb.
  destruct (sort_time a) as [ta|], (sort_time b) as [tb|]; try congruence.
  split.
  - intros H. exists ta, tb. repeat split. lia.
  - intros (ta' & tb' & Ea & Eb & H). injection Ea as <-. injection Eb as <-.
    lia.
Qed.

Lemma feature_sorted (mrs : list Entry.t) :
  Forall (fun mr => sort_time mr <> None) mrs ->
  StronglySorted (not_older sort_time) (JsArray.sort feature_cmp mrs).
Proof.
  intros Hd.
  assert (Hd' : Forall (fun mr => sort_time mr <> None)
                  (JsArray.sort feature_cmp mrs)).
  { rewrite Forall_forall in *. intros x Hx. apply Hd.
    eapply Permutation_in; [apply sort_perm|exact Hx]. }
  apply (StronglySorted_impl_in (fun a b => (feature_cmp a b <= 0)%Z)).
  - rewrite Forall_forall in Hd'. intros a b Ha Hb H.
    apply feature_cmp_nonpos; auto.
  - apply (sort_sorted feature_cmp (fun mr => sort_time mr <> None)).
    + intros a b Ha Hb. unfold feature_cmp.
      destruct (sort_time a), (sort_time b); lia.
    + intros a b c Ha Hb Hc. unfold feature_cmp.
      destruct (sort_time a), (sort_time b), (sort_time c);
        try congruence; lia.
    + exact Hd.
Qed.

(** C8 as stated fails: the sort key is the first time field that is set,
    not the most recent one.  Of two merged requests, the one merged later
    is listed first although the other one was updated after both. *)
Lemma formatMajorFeatures_counterexample :
  ~ (forall mrs : list Entry.t,
        Forall (fun mr => most_recent mr <> None) mrs ->
        StronglySorted (not_older most_recent) (major_features_top mrs)).
Proof.
  intros H.
  pose (A := Entry.mk (Some 1) (Some 1) (Some "A") None None None
               (Some 1%Z) (Some 100%Z) (Some 10%Z) None None None).
  pose (B := Entry.mk (Some 2) (Some 2) (Some "B") None None None
               (Some 2%Z) (Some 30%Z) (Some 20%Z) None None None).
  assert (Hall : Forall (fun mr => most_recent mr <> None) [A; B])
    by (repeat constructor; discriminate).
  assert (E : major_features_top [A; B] = [B; A]) by reflexivity.
  specialize (H [A; B] Hall). rewrite E in H.
  inversion H as [|? ? _ Hhd]; subst.
  inversion Hhd as [|? ? (ta & tb & Ea & Eb & Hle) _]; subst.
  vm_compute in Ea, Eb. injection Ea as <-. injection Eb as <-. lia.
Qed.

(** C8, amended.  [formatMajorFeatures] gives nothing for no request; for
    requests that each carry a time, the block is the heading followed by
    one line per request of the top five, ordered from the latest to the
    earliest by the first time that is set among [merged_at], [updated_at]
    and [created_at] (so by [merged_at] whenever it is set); every request
    left out is not later than any request shown; a request with a title, a
    link and a repository name is rendered as the linked title followed by
    the repository name in parentheses. *)
Theorem formatMajorFeatures_top5 :
  formatMajorFeatures [] = None
  /\ (forall mr t, Entry.merged_at mr = Some t -> sort_time mr = Some t)
  /\ (forall mrs : list Entry.t,
         mrs <> [] ->
         Forall (fun mr => sort_time mr <> None) mrs ->
         let top := major_features_top mrs in
         formatMajorFeatures mrs
         = Some (join nl (MAJOR_FEATURES_HEAD :: map feature_line top))
         /\ List.length top = Nat.min 5 (List.length mrs)
         /\ StronglySorted (not_older sort_time) top
         /\ exists rest,
              Permutation (top ++ rest)%list mrs
              /\ forall a b, In a top -> In b rest ->
                             not_older sort_time a b)
  /\ (forall mr t u p,
         present (Entry.title mr) t -> present (Entry.web_url mr) u ->
         present (Entry.projectName mr) p ->
         feature_line mr
         = BULLET ++ " " ++ ("[" ++ t ++ "](" ++ u ++ ")")
           ++ " (" ++ p ++ ")").
Proof.
  split; [reflexivity|]. split.
  { intros mr t H. unfold sort_time. now rewrite H. }
  split.
  - intros mrs Hne Hall top.
    pose proof (feature_sorted mrs Hall) as Hs.
    split; [now destruct mrs|].
    split.
    { unfold top, major_features_top, JsArray.slice0.
      rewrite length_firstn, sort_length. reflexivity. }
    split; [now apply StronglySorted_firstn|].
    exists (skipn 5 (JsArray.sort feature_cmp mrs)). split.
    + unfold top, major_features_top, JsArray.slice0.
      rewrite firstn_skipn. apply sort_perm.
    + intros a b Ha Hb.
      exact (StronglySorted_split _ 5 _ Hs a b Ha Hb).
  - intros mr t u p [Et Ht] [Eu Hu] [Ep Hp]. unfold feature_line.
    rewrite Et, Eu, Ep. simpl.
    apply nonempty_true in Ht, Hu, Hp. rewrite Ht, Hu, Hp. reflexivity.
Qed.

Lemma formatMajorFeatures_top5_witness :
  formatMajorFeatures
    [ Entry.mk (Some 1) (Some 1) (Some "A") None None None
        (Some 1%Z) (Some 100%Z) (Some 10%Z) None (Some "u") (Some "p");
      Entry.mk (Some 2) (Some 2) (Some "B") None None None
        (Some 2%Z) (Some 30%Z) (Some 20%Z) None (Some "v") (Some "q") ]
  = Some (join nl
            (MAJOR_FEATURES_HEAD
             :: map feature_line
                  (major_features_top
                     [ Entry.mk (Some 1) (Some 1) (Some "A") None None None
                         (Some 1%Z) (Some 100%Z) (Some 10%Z) None (Some "u")
                         (Some "p");
                       Entry.mk (Some 2) (Some 2) (Some "B") None None None
                         (Some 2%Z) (Some 30%Z) (Some 20%Z) None (Some "v")
                         (Some "q") ]))).
Proof.
  apply (proj1 (proj2 (proj2 formatMajorFeatures_top5))).
  - discriminate.
  - repeat constructor; discriminate.
Defined.

End FeatureClaims.

(* ================================================================== *)
(** * A window without activity                                        *)
(* ================================================================== *)

Section EmptyClaims.
Import Strings.String.
Import JsString Report.
Local Open Scope string_scope.

(** C2 as stated fails: [formatBugActivity] never returns [null].  With one
    discovered repository and no activity at all, the bug-activity block is
    among the blocks of the first message. *)
Lemma main_no_activity_counterexample :
  ~ (forall (localeCompare : string -> string -> Z)
            (toLowerCase : string -> string)
            (REPORT_TITLE ORG_LABEL_INTERNAL ORG_LABEL_CLIENT label : string)
            (CLIENT_PROJECT_ID_SET : list string)
            (gitlabResults githubResults : list Project.t) (r : report),
        main localeCompare toLowerCase REPORT_TITLE ORG_LABEL_INTERNAL
          ORG_LABEL_CLIENT label CLIENT_PROJECT_ID_SET gitlabResults
          githubResults = Some r ->
        activeResults r = [] ->
        summaryLine r = "No activity recorded in the selected window."
        /\ internalBlock r = None
        /\ clientBlock r = None
        /\ majorFeaturesBlock r = None
        /\ ~ In (bugActivityBlock r) (organizationalBlocks r)).
Proof.
  intros H.
  assert (E : exists r,
             main byte_order (fun s => s) "Velocity" "Internal" "Client"
               "May 1, 2025" []
               [Project.mk "42" "api" "team/api" [] [] [] [] [] [] []] []
             = Some r
             /\ activeResults r = []
             /\ In (bugActivityBlock r) (organizationalBlocks r)).
  { eexists. split; [reflexivity|]. split; [reflexivity|].
    vm_compute. do 3 right. left. reflexivity. }
  destruct E as (r & Hr & Ha & Hin).
  apply (H _ _ _ _ _ _ _ _ _ r Hr Ha). exact Hin.
Qed.

(** C2, amended.  When no repository is active, the summary line is the
    fixed sentence and the per-organization, major-features, velocity and
    commit-breakdown blocks are absent, while the bug-activity block is
    emitted, with a table of zeros and its own fixed sentence, and the
    team-members block holds its heading and fixed sentence.  On empty
    input [formatOrgSummary], [formatMajorFeatures],
    [formatVelocityHighlights], [formatCommitBreakdown], [formatRepoTable]
    and [formatInactiveSummary] return [null]. *)
Theorem main_no_activity :
  forall (localeCompare : string -> string -> Z)
         (toLowerCase : string -> string)
         (REPORT_TITLE ORG_LABEL_INTERNAL ORG_LABEL_CLIENT label : string)
         (CLIENT_PROJECT_ID_SET : list string)
         (gitlabResults githubResults : list Project.t) (r : report),
    main localeCompare toLowerCase REPORT_TITLE ORG_LABEL_INTERNAL
      ORG_LABEL_CLIENT label CLIENT_PROJECT_ID_SET gitlabResults
      githubResults = Some r ->
    activeResults r = [] ->
    (summaryLine r = "No activity recorded in the selected window."
     /\ internalBlock r = None
     /\ clientBlock r = None
     /\ majorFeaturesBlock r = None
     /\ velocityHighlightBlock r = None
     /\ commitBreakdownBlock r = None
     /\ bugActivityBlock r
        = BUG_ACTIVITY_HEAD ++ nl ++ "```text" ++ nl
          ++ "Fixed           0 issues" ++ nl
          ++ "Same-day fixes  0" ++ nl
          ++ "Opened          0 issues" ++ nl ++ "```" ++ nl
          ++ "_No bug activity recorded in this window._"
     /\ In (bugActivityBlock r) (organizationalBlocks r)
     /\ teamMembersBlock r
        = "**Team Members Metrics**" ++ nl
          ++ "_No member activity captured in this window._")
    /\ (forall l, formatOrgSummary localeCompare l [] = None)
    /\ formatMajorFeatures [] = None
    /\ (forall opened mrs multi,
           formatVelocityHighlights 0 opened 0 0 mrs multi = None)
    /\ (forall members, formatCommitBreakdown members 0 = None)
    /\ (forall merged commits,
           formatRepoTable localeCompare [] merged commits = None)
    /\ formatInactiveSummary [] = None.
Proof.
  intros lc tl T I C L S gitlab github r Hr Ha.
  split; [|repeat split; reflexivity].
  assert (Er : r = assemble lc tl T I C L S (gitlab ++ github)%list).
  { unfold main in Hr.
    destruct gitlab, github; try discriminate Hr; now injection Hr as <-. }
  subst r. revert Ha. generalize (gitlab ++ github)%list. intros results Ha.
  unfold assemble in *.
  cbn [activeResults summaryLine internalBlock clientBlock
       majorFeaturesBlock velocityHighlightBlock commitBreakdownBlock
       bugActivityBlock organizationalBlocks teamMembersBlock] in *.
  rewrite !Ha.
  split; [reflexivity|]. split; [reflexivity|]. split; [reflexivity|].
  split; [reflexivity|]. split; [reflexivity|]. split; [reflexivity|].
  split; [reflexivity|]. split; [|reflexivity].
  unfold filter_Boolean. apply in_flat_map.
  exists (Some (formatBugActivity [] [])). split.
  - cbn [In]. do 4 right. left. reflexivity.
  - left. reflexivity.
Qed.

Lemma main_no_activity_witness :
  exists r,
    main byte_order (fun s => s) "Velocity" "Internal" "Client"
      "May 1, 2025" []
      [Project.mk "42" "api" "team/api" [] [] [] [] [] [] []] []
    = Some r
    /\ summaryLine r = "No activity recorded in the selected window."
    /\ majorFeaturesBlock r = None
    /\ In (bugActivityBlock r) (organizationalBlocks r).
Proof.
  eexists. split; [reflexivity|].
  pose proof (main_no_activity byte_order (fun s => s) "Velocity" "Internal"
                "Client" "May 1, 2025" []
                [Project.mk "42" "api" "team/api" [] [] [] [] [] [] []] []
                _ eq_refl eq_refl) as H.
  split; [exact (proj1 (proj1 H))|].
  split; [exact (proj1 (proj2 (proj2 (proj2 (proj1 H)))))|].
  exact (proj1 (proj2 (proj2 (proj2 (proj2 (proj2 (proj2 (proj2 (proj1 H))))))))).
Defined.

End EmptyClaims.

(* ================================================================== *)
(** * Binary64 arithmetic: what the rounded percentage is               *)
(* ================================================================== *)

Section FloatFacts.
Import JsNumber.
Local Open Scope Z_scope.


Lemma digits2_pos_bounds (p : positive) :
  2 ^ (Z.pos (digits2_pos p) - 1) <= Z.pos p < 2 ^ Z.pos (digits2_pos p).
Proof.
  induction p as [p IH|p IH|]; simpl digits2_pos.
  - rewrite Pos2Z.inj_succ, (Pos2Z.inj_xI p).
    replace (Z.succ (Z.pos (digits2_pos p)) - 1)
      with (Z.succ (Z.pos (digits2_pos p) - 1)) by lia.
    rewrite !Z.pow_succ_r by lia. revert IH.
    generalize (2 ^ (Z.pos (digits2_pos p) - 1)) (2 ^ Z.pos (digits2_pos p)).
    intros; lia.
  - rewrite Pos2Z.inj_succ, (Pos2Z.inj_xO p).
    replace (Z.succ (Z.pos (digits2_pos p)) - 1)
      with (Z.succ (Z.pos (digits2_pos p) - 1)) by lia.
    rewrite !Z.pow_succ_r by lia. revert IH.
    generalize (2 ^ (Z.pos (digits2_pos p) - 1)) (2 ^ Z.pos (digits2_pos p)).
    intros; lia.
  - simpl. lia.
Qed.

(** The number of digits is determined by the bounds. *)
Lemma digits2_pos_unique (p : positive) (d : Z) :
  2 ^ (d - 1) <= Z.pos p < 2 ^ d -> Z.pos (digits2_pos p) = d.
Proof.
  intros [Hlo Hhi]. pose proof (digits2_pos_bounds p) as [Hlo' Hhi'].
  assert (0 < d).
  { destruct (Z.lt_ge_cases 0 d) as [H|H]; [exact H|].
    destruct (Z.eq_dec d 0) as [->|Hn].
    - simpl in Hhi. lia.
    - rewrite Z.pow_neg_r in Hhi by lia. lia. }
  destruct (Z.lt_trichotomy (Z.pos (digits2_pos p)) d) as [H1|[H1|H1]];
    [|exact H1|].
  - assert (2 ^ Z.pos (digits2_pos p) <= 2 ^ (d - 1))
      by (apply Z.pow_le_mono_r; lia). lia.
  - assert (2 ^ d <= 2 ^ (Z.pos (digits2_pos p) - 1))
      by (apply Z.pow_le_mono_r; lia). lia.
Qed.

Lemma shr_1_located (N D : Z) (m : Z) (r s : bool) :
  0 < D -> 0 <= m ->
  located N D m (loc_of_shr_record (Build_shr_record m r s)) ->
  let mrs' := shr_1 (Build_shr_record m r s) in
  shr_m mrs' = m / 2
  /\ located N (2 * D) (shr_m mrs') (loc_of_shr_record mrs').
Proof.
  intros HD Hm Hloc.
  destruct m as [|p|p]; [| |lia].
  - destruct r, s; cbn [located loc_of_shr_record shr_1 shr_m orb] in *;
      split; try reflexivity; lia.
  - destruct p as [p|p|].
    + replace (Z.pos p~1 / 2) with (Z.pos p)
        by (rewrite (Pos2Z.inj_xI p); apply Z.div_unique with 1; lia).
      rewrite (Pos2Z.inj_xI p) in Hloc.
      destruct r, s; cbn [located loc_of_shr_record shr_1 shr_m orb] in *;
        split; try reflexivity; lia.
    + replace (Z.pos p~0 / 2) with (Z.pos p)
        by (rewrite (Pos2Z.inj_xO p); apply Z.div_unique with 0; lia).
      rewrite (Pos2Z.inj_xO p) in Hloc.
      destruct r, s; cbn [located loc_of_shr_record shr_1 shr_m orb] in *;
        split; try reflexivity; lia.
    + destruct r, s; cbn [located loc_of_shr_record shr_1 shr_m orb] in *;
      split; try reflexivity; lia.
Qed.

Lemma loc_of_shr_record_of_loc (m : Z) (l : location) :
  loc_of_shr_record (shr_record_of_loc m l) = l.
Proof. now destruct l as [|[| |]]. Qed.

Lemma shr_m_of_loc (m : Z) (l : location) :
  shr_m (shr_record_of_loc m l) = m.
Proof. now destruct l as [|[| |]]. Qed.

Lemma iter_shr_located (N : Z) (k : positive) :
  forall (D : Z) (mrs : shr_record),
    0 < D -> 0 <= shr_m mrs ->
    located N D (shr_m mrs) (loc_of_shr_record mrs) ->
    let mrs' := iter_pos shr_1 k mrs in
    shr_m mrs' = shr_m mrs / 2 ^ Z.pos k
    /\ located N (2 ^ Z.pos k * D) (shr_m mrs') (loc_of_shr_record mrs').
Proof.
  assert (Hone : forall D mrs, 0 < D -> 0 <= shr_m mrs ->
            located N D (shr_m mrs) (loc_of_shr_record mrs) ->
            shr_m (shr_1 mrs) = shr_m mrs / 2
            /\ located N (2 * D) (shr_m (shr_1 mrs))
                 (loc_of_shr_record (shr_1 mrs))).
  { intros D [m r s] HD Hm Hl. exact (shr_1_located N D m r s HD Hm Hl). }
  assert (Hnn : forall m j, 0 <= m -> 0 <= m / 2 ^ Z.pos j).
  { intros m j Hm. apply Z.div_pos; [exact Hm|]. apply Z.pow_pos_nonneg; lia. }
  induction k as [k IH|k IH|]; intros D mrs HD Hm Hl; cbn [iter_pos].
  - destruct (Hone D mrs HD Hm Hl) as [E1 L1].
    assert (H1 : 0 <= shr_m (shr_1 mrs)) by (rewrite E1; apply Z.div_pos; lia).
    destruct (IH (2 * D) (shr_1 mrs) ltac:(lia) H1 L1) as [E2 L2].
    assert (H2 : 0 <= shr_m (iter_pos shr_1 k (shr_1 mrs)))
      by (rewrite E2; now apply Hnn).
    assert (HD2 : 0 < 2 ^ Z.pos k * (2 * D))
      by (apply Z.mul_pos_pos; [apply Z.pow_pos_nonneg|]; lia).
    destruct (IH _ _ HD2 H2 L2) as [E3 L3].
    split.
    + rewrite E3, E2, E1, !Z.div_div by (try apply Z.pow_pos_nonneg; lia).
      f_equal. rewrite (Pos2Z.inj_xI k).
      replace (2 * Z.pos k + 1) with (1 + Z.pos k + Z.pos k) by lia.
      rewrite !Z.pow_add_r by lia. rewrite Z.pow_1_r. ring.
    + replace (2 ^ Z.pos k~1 * D) with (2 ^ Z.pos k * (2 ^ Z.pos k * (2 * D)));
        [exact L3|].
      rewrite (Pos2Z.inj_xI k).
      replace (2 * Z.pos k + 1) with (1 + Z.pos k + Z.pos k) by lia.
      rewrite !Z.pow_add_r by lia. rewrite Z.pow_1_r. ring.
  - destruct (IH D mrs HD Hm Hl) as [E2 L2].
    assert (H2 : 0 <= shr_m (iter_pos shr_1 k mrs))
      by (rewrite E2; now apply Hnn).
    assert (HD2 : 0 < 2 ^ Z.pos k * D)
      by (apply Z.mul_pos_pos; [apply Z.pow_pos_nonneg|]; lia).
    destruct (IH _ _ HD2 H2 L2) as [E3 L3].
    split.
    + rewrite E3, E2, !Z.div_div by (try apply Z.pow_pos_nonneg; lia).
      f_equal. rewrite (Pos2Z.inj_xO k).
      replace (2 * Z.pos k) with (Z.pos k + Z.pos k) by lia.
      rewrite !Z.pow_add_r by lia. ring.
    + replace (2 ^ Z.pos k~0 * D) with (2 ^ Z.pos k * (2 ^ Z.pos k * D));
        [exact L3|].
      rewrite (Pos2Z.inj_xO k).
      replace (2 * Z.pos k) with (Z.pos k + Z.pos k) by lia.
      rewrite !Z.pow_add_r by lia. ring.
  - destruct (Hone D mrs HD Hm Hl) as [E1 L1]. split; [exact E1|].
    now rewrite Z.pow_1_r.
Qed.

Lemma round_nearest_even_close (N D m : Z) (l : location) :
  0 < D -> located N D m l ->
  m <= round_nearest_even m l <= m + 1
  /\ - D <= 2 * (round_nearest_even m l * D - N) <= D.
Proof.
  intros HD Hl.
  destruct l as [|[| |]]; cbn [located round_nearest_even] in *.
  - split; lia.
  - destruct (Z.even m); split; lia.
  - split; lia.
  - split; lia.
Qed.


Lemma fexp64_eq (e : Z) : fexp64 e = Z.max (e - 53) (-1074).
Proof. reflexivity. Qed.

Lemma shr_fexp_noshift (m e : Z) (l : location) :
  fexp64 (Zdigits2 m + e) <= e ->
  shr_fexp 53 1024 m e l = (shr_record_of_loc m l, e).
Proof.
  intros H. unfold shr_fexp, shr. change (fexp 53 1024 (Zdigits2 m + e)) with (fexp64 (Zdigits2 m + e)).
  destruct (fexp64 (Zdigits2 m + e) - e) eqn:E; try reflexivity. lia.
Qed.

Lemma shr_fexp_shift (m e : Z) (l : location) (p : positive) :
  fexp64 (Zdigits2 m + e) - e = Z.pos p ->
  shr_fexp 53 1024 m e l
  = (iter_pos shr_1 p (shr_record_of_loc m l), e + Z.pos p).
Proof.
  intros H. unfold shr_fexp, shr. change (fexp 53 1024 (Zdigits2 m + e)) with (fexp64 (Zdigits2 m + e)).
  now rewrite H.
Qed.

Lemma pow2_split (a b : Z) : 0 <= a -> 0 <= b -> 2 ^ (a + b) = 2 ^ a * 2 ^ b.
Proof. intros. now apply Z.pow_add_r. Qed.

Lemma pow2_pos (a : Z) : 0 <= a -> 0 < 2 ^ a.
Proof. intros. now apply Z.pow_pos_nonneg. Qed.

(** Rounding a positive mantissa of at least 53 digits, in the normal
    range: the result has a 53-digit mantissa and is within half a unit of
    its last place of the located value. *)
Lemma binary_round_aux_spec (sx : bool) (mx : positive) (ex : Z)
    (lx : location) (N D : Z) :
  let d := Z.pos (digits2_pos mx) in
  0 < D -> 53 <= d -> -1074 <= ex + d - 53 -> ex + d - 53 < 971 ->
  located N D (Z.pos mx) lx ->
  exists (m2 : positive) (g : Z),
    binary_round_aux 53 1024 sx (Z.pos mx) ex lx = S754_finite sx m2 (ex + g)
    /\ 2 ^ 52 <= Z.pos m2 < 2 ^ 53
    /\ (g = d - 53 \/ g = d - 52)
    /\ - (2 ^ g * D) <= 2 * (Z.pos m2 * 2 ^ g * D - N) <= 2 ^ g * D.
Proof.
  intros d HD Hd Hlo Hhi Hl.
  pose proof (digits2_pos_bounds mx) as Hb. fold d in Hb.
  set (n := d - 53).
  assert (Hn : 0 <= n) by (unfold n; lia).
  (* first shift *)
  assert (H1 : exists mrs,
             shr_fexp 53 1024 (Z.pos mx) ex lx = (mrs, ex + n)
             /\ shr_m mrs = Z.pos mx / 2 ^ n
             /\ located N (2 ^ n * D) (shr_m mrs) (loc_of_shr_record mrs)).
  { assert (Hf : fexp64 (Zdigits2 (Z.pos mx) + ex) - ex = n).
    { rewrite fexp64_eq. cbn [Zdigits2]. fold d. unfold n. lia. }
    destruct n as [|p|p] eqn:En; [| |lia].
    - exists (shr_record_of_loc (Z.pos mx) lx).
      rewrite shr_fexp_noshift by lia.
      rewrite shr_m_of_loc, loc_of_shr_record_of_loc, Z.add_0_r.
      change (2 ^ 0) with 1. rewrite Z.div_1_r, Z.mul_1_l. auto.
    - exists (iter_pos shr_1 p (shr_record_of_loc (Z.pos mx) lx)).
      rewrite (shr_fexp_shift _ _ _ p Hf).
      destruct (iter_shr_located N p D (shr_record_of_loc (Z.pos mx) lx))
        as [E L]; auto.
      + rewrite shr_m_of_loc. lia.
      + now rewrite shr_m_of_loc, loc_of_shr_record_of_loc.
      + rewrite shr_m_of_loc in E. auto. }
  destruct H1 as (mrs & Hshr & Em & Lm).
  assert (Hpn : 0 < 2 ^ n) by now apply pow2_pos.
  assert (HDn : 0 < 2 ^ n * D) by now apply Z.mul_pos_pos.
  assert (Hm : 2 ^ 52 <= shr_m mrs < 2 ^ 53).
  { rewrite Em.
    assert (E52 : 2 ^ (d - 1) = 2 ^ 52 * 2 ^ n)
      by (rewrite <- pow2_split by lia; f_equal; unfold n; lia).
    assert (E53 : 2 ^ d = 2 ^ 53 * 2 ^ n)
      by (rewrite <- pow2_split by lia; f_equal; unfold n; lia).
    rewrite E52, E53 in Hb. split.
    - apply Z.div_le_lower_bound; [exact Hpn|]. lia.
    - apply Z.div_lt_upper_bound; [exact Hpn|]. lia. }
  destruct (round_nearest_even_close N (2 ^ n * D) (shr_m mrs)
              (loc_of_shr_record mrs) HDn Lm) as [Hr Herr].
  set (m1 := round_nearest_even (shr_m mrs) (loc_of_shr_record mrs)) in *.
  unfold binary_round_aux. rewrite Hshr. fold m1.
  destruct (Z.eq_dec m1 (2 ^ 53)) as [E53|N53].
  - (* the mantissa carried into a 54th digit *)
    assert (Hs2 : shr_fexp 53 1024 m1 (ex + n) loc_Exact
                  = (Build_shr_record (2 ^ 52) false false, ex + n + 1)).
    { rewrite E53.
      rewrite (shr_fexp_shift _ _ _ 1%positive).
      - reflexivity.
      - rewrite fexp64_eq. change (Zdigits2 (2 ^ 53)) with 54. lia. }
    rewrite Hs2. cbn [shr_m].
    change (2 ^ 52) with (Z.pos (2 ^ 52)%positive) at 1.
    cbv iota. 
    assert (Hle : (ex + n + 1 <=? 1024 - 53) = true)
      by (apply Z.leb_le; unfold n; lia).
    rewrite Hle.
    exists (2 ^ 52)%positive, (n + 1). split; [f_equal; lia|].
    split; [change (Z.pos (2 ^ 52)) with (2 ^ 52); lia|].
    split; [right; unfold n; lia|].
    change (Z.pos (2 ^ 52)) with (2 ^ 52).
    rewrite (pow2_split n 1) by lia. change (2 ^ 1) with 2.
    replace (2 ^ 52 * (2 ^ n * 2) * D) with (m1 * (2 ^ n * D))
      by (rewrite E53; change (2 ^ 53) with (2 ^ 52 * 2); ring).
    lia.
  - assert (Hm1 : 2 ^ 52 <= m1 < 2 ^ 53) by lia.
    destruct m1 as [|q|q] eqn:Eq1; [lia| |lia].
    assert (Hdq : Z.pos (digits2_pos q) = 53)
      by (apply digits2_pos_unique; exact Hm1).
    rewrite shr_fexp_noshift
      by (rewrite fexp64_eq; cbn [Zdigits2]; rewrite Hdq; unfold n; lia).
    cbn [shr_record_of_loc shr_m].
    assert (Hle : (ex + n <=? 1024 - 53) = true)
      by (apply Z.leb_le; unfold n; lia).
    rewrite Hle.
    exists q, n. split; [reflexivity|]. split; [exact Hm1|].
    split; [left; reflexivity|].
    replace (Z.pos q * 2 ^ n * D) with (Z.pos q * (2 ^ n * D)) by ring.
    exact Herr.
Qed.

Lemma binary_round_aux_exact (sx : bool) (m : positive) (e : Z) :
  Z.pos (digits2_pos m) = 53 -> -1074 <= e <= 971 ->
  binary_round_aux 53 1024 sx (Z.pos m) e loc_Exact = S754_finite sx m e.
Proof.
  intros Hd He. unfold binary_round_aux.
  rewrite shr_fexp_noshift
    by (rewrite fexp64_eq; cbn [Zdigits2]; rewrite Hd; lia).
  cbn [shr_record_of_loc shr_m loc_of_shr_record round_nearest_even].
  rewrite shr_fexp_noshift
    by (rewrite fexp64_eq; cbn [Zdigits2]; rewrite Hd; lia).
  cbn [shr_record_of_loc shr_m].
  assert (Hle : (e <=? 1024 - 53) = true) by (apply Z.leb_le; lia).
  now rewrite Hle.
Qed.

Lemma iter_xO (m k : positive) :
  Z.pos (Pos.iter xO m k) = Z.pos m * 2 ^ Z.pos k.
Proof.
  induction k as [|k IH] using Pos.peano_ind.
  - simpl. rewrite (Pos2Z.inj_xO m). lia.
  - rewrite Pos.iter_succ, Pos2Z.inj_succ, Z.pow_succ_r by lia.
    rewrite (Pos2Z.inj_xO (Pos.iter xO m k)), IH. ring.
Qed.


(** The Number of a positive integer below [2^53] is that integer, with a
    53-digit mantissa. *)
Lemma of_Z_normal (z : Z) :
  0 < z < 2 ^ 53 ->
  exists (m : positive) (e : Z),
    of_Z z = S754_finite false m e
    /\ Z.pos (digits2_pos m) = 53
    /\ -52 <= e <= 0
    /\ Z.pos m = z * 2 ^ (- e).
Proof.
  intros Hz. destruct z as [|p|p]; [lia| |lia].
  unfold of_Z, prec, emax, binary_normalize, binary_round.
  pose proof (digits2_pos_bounds p) as Hb.
  set (d := Z.pos (digits2_pos p)) in *.
  assert (Hd : 1 <= d <= 53).
  { split; [unfold d; lia|].
    destruct (Z.le_gt_cases d 53) as [H|H]; [exact H|].
    assert (2 ^ 53 <= 2 ^ (d - 1)) by (apply Z.pow_le_mono_r; lia). lia. }
  replace (fexp 53 1024 (d + 0)) with (d - 53)
    by (change (fexp 53 1024 (d + 0)) with (fexp64 (d + 0));
        rewrite fexp64_eq; lia).
  unfold shl_align.
  destruct (d - 53 - 0) as [|k|k] eqn:Ek; [| lia |].
  - assert (E53 : d = 53) by lia.
    rewrite binary_round_aux_exact by (unfold d in *; lia).
    exists p, 0. repeat split; try lia; exact E53.
  - assert (Hk : Z.pos k = 53 - d) by lia.
    assert (Hv : Z.pos (Pos.iter xO p k) = Z.pos p * 2 ^ (53 - d))
      by (rewrite iter_xO, Hk; reflexivity).
    assert (Hpk : 0 < 2 ^ (53 - d)) by (apply pow2_pos; lia).
    assert (Hdig : Z.pos (digits2_pos (Pos.iter xO p k)) = 53).
    { apply digits2_pos_unique. rewrite Hv.
      replace (2 ^ (53 - 1)) with (2 ^ (d - 1) * 2 ^ (53 - d))
        by (rewrite <- pow2_split by lia; f_equal; lia).
      replace (2 ^ 53) with (2 ^ d * 2 ^ (53 - d))
        by (rewrite <- pow2_split by lia; f_equal; lia).
      split.
      - apply Z.mul_le_mono_nonneg_r; lia.
      - apply Z.mul_lt_mono_pos_r; lia. }
    rewrite binary_round_aux_exact by (try exact Hdig; lia).
    exists (Pos.iter xO p k), (d - 53).
    split; [reflexivity|]. split; [exact Hdig|]. split; [lia|].
    rewrite Hv. f_equal. f_equal. lia.
Qed.

Lemma new_location_located (m' mb q r : Z) :
  0 < mb -> 0 <= r < mb -> m' = mb * q + r ->
  located m' mb q (new_location mb r).
Proof.
  intros Hmb Hr ->. unfold new_location, new_location_even, new_location_odd.
  destruct (Z.even mb) eqn:Ev.
  - destruct (Z.eqb_spec r 0) as [->|Hr0]; cbn [located]; [lia|].
    destruct (Z.compare_spec (2 * r) mb); cbn [located]; lia.
  - destruct (Z.eqb_spec r 0) as [->|Hr0]; cbn [located]; [lia|].
    assert (Hodd : Z.odd mb = true) by (rewrite <- Z.negb_even, Ev; reflexivity).
    apply Z.odd_spec in Hodd. destruct Hodd as [j Hj].
    destruct (Z.compare_spec (2 * r + 1) mb); cbn [located]; lia.
Qed.

(** The quotient of two 53-digit mantissas. *)
Lemma div_spec (ma mb : positive) (ea eb : Z) :
  Z.pos (digits2_pos ma) = 53 -> Z.pos (digits2_pos mb) = 53 ->
  -52 <= ea <= 0 -> -52 <= eb <= 0 ->
  exists (mq : positive) (g : Z),
    SFdiv 53 1024 (S754_finite false ma ea) (S754_finite false mb eb)
    = S754_finite false mq (ea - eb - 53 + g)
    /\ 2 ^ 52 <= Z.pos mq < 2 ^ 53
    /\ 0 <= g <= 2
    /\ - (2 ^ g * Z.pos mb)
       <= 2 * (Z.pos mq * 2 ^ g * Z.pos mb - Z.pos ma * 2 ^ 53)
       <= 2 ^ g * Z.pos mb.
Proof.
  intros Hda Hdb Hea Heb.
  pose proof (digits2_pos_bounds ma) as Hba. rewrite Hda in Hba.
  pose proof (digits2_pos_bounds mb) as Hbb. rewrite Hdb in Hbb.
  change (2 ^ (53 - 1)) with (2 ^ 52) in *.
  unfold SFdiv, SFdiv_core_binary. cbn [Zdigits2 xorb].
  rewrite Hda, Hdb.
  replace (Z.min (fexp 53 1024 (53 + ea - (53 + eb))) (ea - eb))
    with (ea - eb - 53)
    by (change (fexp 53 1024 (53 + ea - (53 + eb)))
          with (fexp64 (53 + ea - (53 + eb))); rewrite fexp64_eq; lia).
  replace (ea - eb - (ea - eb - 53)) with 53 by lia.
  cbv iota.
  rewrite Z.shiftl_mul_pow2 by lia.
  pose proof (Z_div_mod (Z.pos ma * 2 ^ 53) (Z.pos mb) ltac:(lia)) as Hdm.
  destruct (Z.div_eucl (Z.pos ma * 2 ^ 53) (Z.pos mb)) as [q r].
  destruct Hdm as [Hdm Hr].
  assert (Hq : 2 ^ 52 <= q < 2 ^ 54).
  { change (2 ^ 52) with 4503599627370496 in *.
    change (2 ^ 53) with 9007199254740992 in *.
    change (2 ^ 54) with 18014398509481984. nia. }
  destruct q as [|q|q]; [lia| |lia].
  pose proof (digits2_pos_bounds q) as Hbq.
  set (d := Z.pos (digits2_pos q)) in *.
  assert (Hd : 53 <= d <= 54).
  { split.
    - destruct (Z.le_gt_cases 53 d) as [H|H]; [exact H|].
      assert (2 ^ d <= 2 ^ 52) by (apply Z.pow_le_mono_r; lia). lia.
    - destruct (Z.le_gt_cases d 54) as [H|H]; [exact H|].
      assert (2 ^ 54 <= 2 ^ (d - 1)) by (apply Z.pow_le_mono_r; lia). lia. }
  destruct (binary_round_aux_spec false q (ea - eb - 53)
              (new_location (Z.pos mb) r) (Z.pos ma * 2 ^ 53) (Z.pos mb))
    as (mq & g & Hres & Hmq & Hg & Herr); try (fold d; lia).
  { apply new_location_located; lia. }
  fold d in Hg. exists mq, g. repeat split; try lia. exact Hres.
Qed.

Lemma of_Z_100 : of_Z 100 = S754_finite false 7036874417766400 (-46).
Proof. reflexivity. Qed.

(** A 53-digit mantissa times one hundred. *)
Lemma mul100_spec (mq : positive) (eq : Z) :
  2 ^ 52 <= Z.pos mq < 2 ^ 53 -> -200 <= eq <= 100 ->
  exists (mp : positive) (h : Z),
    SFmul 53 1024 (S754_finite false mq eq) (of_Z 100)
    = S754_finite false mp (eq + h)
    /\ 2 ^ 52 <= Z.pos mp < 2 ^ 53
    /\ (h = 6 \/ h = 7 \/ h = 8)
    /\ - 2 ^ h <= 2 * (Z.pos mp * 2 ^ h - 100 * Z.pos mq) <= 2 ^ h.
Proof.
  intros Hmq Heq. rewrite of_Z_100. unfold SFmul. cbn [xorb].
  set (P := (mq * 7036874417766400)%positive).
  assert (HP : Z.pos P = Z.pos mq * 7036874417766400)
    by (unfold P; apply Pos2Z.inj_mul).
  pose proof (digits2_pos_bounds P) as Hb.
  set (d := Z.pos (digits2_pos P)) in *.
  change (2 ^ 52) with 4503599627370496 in *.
  change (2 ^ 53) with 9007199254740992 in *.
  assert (Hd : 105 <= d <= 106).
  { split.
    - destruct (Z.le_gt_cases 105 d) as [H|H]; [exact H|].
      assert (2 ^ d <= 2 ^ 104) by (apply Z.pow_le_mono_r; lia).
      change (2 ^ 104) with 20282409603651670423947251286016 in *. lia.
    - destruct (Z.le_gt_cases d 106) as [H|H]; [exact H|].
      assert (2 ^ 106 <= 2 ^ (d - 1)) by (apply Z.pow_le_mono_r; lia).
      change (2 ^ 106) with 81129638414606681695789005144064 in *. lia. }
  destruct (binary_round_aux_spec false P (eq + -46) loc_Exact (Z.pos P) 1)
    as (mp & g & Hres & Hmp & Hg & Herr); try (fold d; lia).
  { cbn [located]. lia. }
  fold d in Hg. exists mp, (g - 46).
  split; [rewrite Hres; f_equal; lia|].
  split; [exact Hmp|].
  split; [lia|].
  rewrite HP in Herr.
  destruct Hd as [Hd1 Hd2].
  assert (Hgc : g = 52 \/ g = 53 \/ g = 54) by lia.
  destruct Hgc as [-> | [-> | ->]].
  - change (52 - 46) with 6. change (2 ^ 6) with 64.
    change (2 ^ 52) with 4503599627370496 in Herr. lia.
  - change (53 - 46) with 7. change (2 ^ 7) with 128.
    change (2 ^ 53) with 9007199254740992 in Herr. lia.
  - change (54 - 46) with 8. change (2 ^ 8) with 256.
    change (2 ^ 54) with 18014398509481984 in Herr. lia.
Qed.


(** The arithmetic heart of the matter: with the three error bounds, the
    rounded value is a nearest integer of [100 c / t]. *)
Lemma nearest_from_bounds (c t mq mp U G k : Z) :
  0 < c < 2 ^ 32 -> 0 < t -> 0 < U ->
  (G = 64 \/ G = 128 \/ G = 256) ->
  2 ^ 52 <= mp ->
  - t <= 2 * (mq * t - c * (U * G)) <= t ->
  - G <= 2 * (mp * G - 100 * mq) <= G ->
  2 * U * k <= 2 * mp + U < 2 * U * k + 2 * U ->
  - t <= 2 * (t * k - 100 * c) <= t.
Proof.
  intros Hc Ht HU HG Hmp H1 H2 H3.
  change (2 ^ 32) with 4294967296 in Hc.
  change (2 ^ 52) with 4503599627370496 in Hmp.
  (* the products, as atoms *)
  set (A := mq * t) in *.
  set (B := c * U).
  set (C := mp * t).
  set (E := U * k * t).
  set (W := U * t).
  assert (H1' : - t <= 2 * (A - G * B) <= t)
    by (unfold B; replace (G * (c * U)) with (c * (U * G)) by ring; exact H1).
  assert (H2' : - (G * t) <= 2 * (C * G - 100 * A) <= G * t).
  { destruct H2 as [H2l H2u].
    apply (Z.mul_le_mono_nonneg_r _ _ t) in H2l; [|lia].
    apply (Z.mul_le_mono_nonneg_r _ _ t) in H2u; [|lia].
    unfold C, A. lia. }
  assert (H3' : 2 * E <= 2 * C + W < 2 * E + 2 * W).
  { destruct H3 as [H3l H3u].
    apply (Z.mul_le_mono_nonneg_r _ _ t) in H3l; [|lia].
    apply (Z.mul_lt_mono_pos_r t) in H3u; [|lia].
    unfold E, C, W. lia. }
  assert (HC : 4503599627370496 * t <= C)
    by (unfold C; apply Z.mul_le_mono_nonneg_r; lia).
  assert (HB : U <= B <= 4294967295 * U).
  { unfold B. split.
    - rewrite <- (Z.mul_1_l U) at 1. apply Z.mul_le_mono_nonneg_r; lia.
    - apply Z.mul_le_mono_nonneg_r; lia. }
  assert (HW : U <= W).
  { unfold W. rewrite <- (Z.mul_1_r U) at 1.
    apply Z.mul_le_mono_nonneg_l; lia. }
  assert (Hbig : 3 * t < U).
  { destruct HG as [-> | [-> | ->]]; lia. }
  split.
  - destruct (Z.le_gt_cases (- t) (2 * (t * k - 100 * c))) as [H|H];
      [exact H|exfalso].
    assert (HX : 2 * E - 200 * B <= - W - U).
    { unfold E, B, W.
      replace (2 * (U * k * t) - 200 * (c * U))
        with (U * (2 * (t * k - 100 * c))) by ring.
      replace (- (U * t) - U) with (U * (- t - 1)) by ring.
      apply Z.mul_le_mono_nonneg_l; lia. }
    destruct HG as [-> | [-> | ->]]; lia.
  - destruct (Z.le_gt_cases (2 * (t * k - 100 * c)) t) as [H|H];
      [exact H|exfalso].
    assert (HX : W + U <= 2 * E - 200 * B).
    { unfold E, B, W.
      replace (2 * (U * k * t) - 200 * (c * U))
        with (U * (2 * (t * k - 100 * c))) by ring.
      replace (U * t + U) with (U * (t + 1)) by ring.
      apply Z.mul_le_mono_nonneg_l; lia. }
    destruct HG as [-> | [-> | ->]]; lia.
Qed.


Lemma pow2_lt_inv (a b : Z) : 0 <= b -> 2 ^ a < 2 ^ b -> a < b.
Proof.
  intros Hb H. destruct (Z.lt_ge_cases a b) as [|Hge]; [assumption|].
  assert (2 ^ b <= 2 ^ a) by (apply Z.pow_le_mono_r; lia). lia.
Qed.

(** For counts below [2^32], the rounded percentage computed in binary64 is
    an integer nearest to [100 c / t]. *)
Lemma percent_round (c t : Z) :
  0 <= c < 2 ^ 32 -> 0 < t < 2 ^ 32 ->
  exists k,
    Math_round (mul (div (of_Z c) (of_Z t)) (of_Z 100)) = JInt k
    /\ - t <= 2 * (t * k - 100 * c) <= t.
Proof.
  intros Hc Ht. unfold mul, div, prec, emax.
  assert (H32 : 2 ^ 32 < 2 ^ 53) by reflexivity.
  destruct (of_Z_normal t ltac:(lia)) as (mb & eb & Eb & Hdb & Heb & Hvb).
  rewrite Eb.
  destruct (Z.eq_dec c 0) as [->|Hc0].
  { exists 0. split; [reflexivity|lia]. }
  destruct (of_Z_normal c ltac:(lia)) as (ma & ea & Ea & Hda & Hea & Hva).
  rewrite Ea.
  destruct (div_spec ma mb ea eb Hda Hdb Hea Heb)
    as (mq & g & Eq & Hmq & Hg & Herr1).
  rewrite Eq.
  destruct (mul100_spec mq (ea - eb - 53 + g) Hmq ltac:(lia))
    as (mp & h & Ep & Hmp & Hh & Herr2).
  rewrite Ep. cbn [Math_round].
  eexists. split; [reflexivity|].
  (* the exponents *)
  pose proof (digits2_pos_bounds ma) as Hba. rewrite Hda in Hba.
  change (2 ^ (53 - 1)) with (2 ^ 52) in Hba.
  assert (Hea' : ea <= -21).
  { assert (Hp : 0 < 2 ^ (- ea)) by (apply pow2_pos; lia).
    assert (2 ^ 20 < 2 ^ (- ea)); [|apply pow2_lt_inv in H; lia].
    change (2 ^ 52) with (2 ^ 32 * 2 ^ 20) in Hba. nia. }
  set (ep := ea - eb - 53 + g + h) in *.
  assert (Hep : ep < 0) by (unfold ep; lia).
  unfold round_half_up_scaled.
  assert (Hneg : (0 <=? ep) = false) by (apply Z.leb_gt; exact Hep).
  rewrite Hneg. rewrite Z.mul_1_l.
  set (U := 2 ^ (- ep)).
  assert (HU : 0 < U) by (apply pow2_pos; lia).
  set (k := (2 * Z.pos mp + U) / (2 * U)).
  assert (Hk : 2 * U * k <= 2 * Z.pos mp + U < 2 * U * k + 2 * U).
  { pose proof (Z.mul_div_le (2 * Z.pos mp + U) (2 * U) ltac:(lia)).
    pose proof (Z.mul_succ_div_gt (2 * Z.pos mp + U) (2 * U) ltac:(lia)).
    fold k in H, H0. lia. }
  set (G := 2 ^ h) in *.
  assert (HG : G = 64 \/ G = 128 \/ G = 256).
  { unfold G. destruct Hh as [-> | [-> | ->]]; auto. }
  apply (nearest_from_bounds c t (Z.pos mq) (Z.pos mp) U G k);
    try lia; try assumption.
  (* the division bound, freed of the common power of two *)
  set (P := 2 ^ g * 2 ^ (- eb)).
  assert (HP : 0 < P) by (apply Z.mul_pos_pos; apply pow2_pos; lia).
  assert (EP : 2 ^ (- ea) * 2 ^ 53 = U * G * P).
  { unfold U, G, P. rewrite <- !pow2_split by lia. f_equal.
    unfold ep. lia. }
  rewrite Hva, Hvb in Herr1.
  replace (2 ^ g * (t * 2 ^ (- eb))) with (P * t) in Herr1
    by (unfold P; ring).
  replace (2 * (Z.pos mq * 2 ^ g * (t * 2 ^ (- eb)) - c * 2 ^ (- ea) * 2 ^ 53))
    with (P * (2 * (Z.pos mq * t - c * (U * G)))) in Herr1
    by (unfold P; replace (c * 2 ^ (- ea) * 2 ^ 53)
          with (c * (2 ^ (- ea) * 2 ^ 53)) by ring; rewrite EP;
        unfold P; ring).
  replace (- (P * t)) with (P * (- t)) in Herr1 by ring.
  destruct Herr1 as [Hl Hu].
  apply Z.mul_le_mono_pos_l in Hl; [|exact HP].
  apply Z.mul_le_mono_pos_l in Hu; [|exact HP].
  lia.
Qed.

End FloatFacts.

(* ================================================================== *)
(** * Percentages: commit share and merge rate                         *)
(* ================================================================== *)

Section NumberClaims.
Import Strings.String.
Import JsString Report.
Local Open Scope Z_scope.

Lemma list_sum_perm (l l' : list nat) :
  Permutation l l' -> list_sum l = list_sum l'.
Proof. induction 1; simpl; lia. Qed.

Lemma list_sum_in (x : nat) (l : list nat) :
  In x l -> (x <= list_sum l)%nat.
Proof.
  induction l as [|y l IH]; simpl; [contradiction|].
  intros [->|H]; [lia|]. apply IH in H. lia.
Qed.

Lemma percentage_nearest (c t : nat) :
  (c <= t)%nat -> Z.of_nat t < 2 ^ 32 ->
  exists k,
    percentage c t = JsNumber.JInt k
    /\ (t = 0%nat -> k = 0)
    /\ ((0 < t)%nat ->
        - Z.of_nat t <= 2 * (Z.of_nat t * k - 100 * Z.of_nat c) <= Z.of_nat t).
Proof.
  intros Hc Ht. unfold percentage.
  destruct (Nat.eqb_spec t 0) as [->|Hn].
  - exists 0. repeat split; lia.
  - destruct (percent_round (Z.of_nat c) (Z.of_nat t)) as (k & Ek & Hk);
      [lia|lia|].
    exists k. split; [exact Ek|]. split; [lia|]. intros _. exact Hk.
Qed.

Lemma pct_sum_bound (t : Z) (ms : list Member.t) :
  0 < t ->
  Forall (fun m => exists k,
            Member.commitPct m = JsNumber.JInt k
            /\ - t <= 2 * (t * k - 100 * Z.of_nat (Member.commits m)) <= t)
    ms ->
  - (Z.of_nat (committers ms) * t)
  <= 2 * (t * pct_sum ms - 100 * Z.of_nat (commit_sum ms))
  <= Z.of_nat (committers ms) * t.
Proof.
  intros Ht H.
  induction H as [|m ms (k & Ek & Hk) _ IH].
  - unfold committers, commit_sum, pct_sum.
    cbn [filter List.length map list_sum fold_right]. lia.
  - assert (Ep : pct_sum (m :: ms) = k + pct_sum ms)
      by (unfold pct_sum; cbn [fold_right]; rewrite Ek; reflexivity).
    assert (Es : Z.of_nat (commit_sum (m :: ms))
                 = Z.of_nat (Member.commits m) + Z.of_nat (commit_sum ms))
      by (unfold commit_sum; cbn [map]; rewrite <- Nat2Z.inj_add; reflexivity).
    rewrite Ep, Es. unfold committers in *. cbn [filter].
    destruct (0 <? Member.commits m)%nat eqn:El.
    + apply Nat.ltb_lt in El. cbn [List.length]. lia.
    + apply Nat.ltb_ge in El.
      assert (Ec : Z.of_nat (Member.commits m) = 0) by lia.
      rewrite Ec in *. assert (k = 0) by nia. subst k. lia.
Qed.

Lemma nearest_unless_tie (n t k : Z) :
  0 < t -> - t <= 2 * (t * k - n) <= t ->
  (~ exact_tie n t -> k = round_half_up n t)
  /\ (exact_tie n t -> k = round_half_up n t \/ k = round_half_down n t).
Proof.
  intros Ht Hk. unfold exact_tie, round_half_up, round_half_down. split.
  - intros Hn.
    apply (Z.div_unique_pos (2 * n + t) (2 * t) k (2 * n + t - 2 * t * k));
      [|ring].
    split; [lia|].
    destruct (Z.eq_dec (2 * (t * k)) (2 * n - t)) as [E|E]; [|lia].
    exfalso. apply Hn.
    symmetry. apply (Z.mod_unique_pos (2 * n) (2 * t) k t); lia.
  - intros Htie.
    pose proof (Z.div_mod (2 * n) (2 * t) ltac:(lia)) as Hdm.
    rewrite Htie in Hdm. set (j := 2 * n / (2 * t)) in *.
    assert (Eup : (2 * n + t) / (2 * t) = j + 1).
    { symmetry. apply (Z.div_unique_pos _ _ _ 0); lia. }
    assert (Edown : (t - 2 * n) / (2 * t) = - j).
    { symmetry. apply (Z.div_unique_pos _ _ _ 0); lia. }
    rewrite Eup, Edown.
    assert (j <= k <= j + 1) by nia. lia.
Qed.

(** C6 as stated fails: the percentage is [Math.round] of a quotient that
    was rounded to binary64 before and after the multiplication by one
    hundred, not of the exact quotient.  With 23 of 40 commits (57.5) it
    is 57, where a tie going up or to the even neighbour gives 58; with 1
    of 8 commits (12.5) it is 13, where a tie going down or to the even
    neighbour gives 12. *)
Lemma buildMemberSummaries_commit_percentages_counterexample :
  ~ percentages_rounded_by round_half_up
  /\ ~ percentages_rounded_by round_half_down
  /\ ~ percentages_rounded_by round_half_even.
Proof.
  pose (commit := fun who =>
          Entry.mk None None None None (Some who) None None None None None
            None None).
  assert (E40 : map Member.commitPct
                  (buildMemberSummaries byte_order
                     (repeat (commit "A"%string) 23
                      ++ repeat (commit "B"%string) 17) [] [] [] [])
                = [JsNumber.JInt 57; JsNumber.JInt 43])
    by (vm_compute; reflexivity).
  assert (E8 : map Member.commitPct
                 (buildMemberSummaries byte_order
                    (repeat (commit "A"%string) 7
                     ++ repeat (commit "B"%string) 1) [] [] [] [])
               = [JsNumber.JInt 88; JsNumber.JInt 13])
    by (vm_compute; reflexivity).
  assert (C40 : map Member.commits
                  (buildMemberSummaries byte_order
                     (repeat (commit "A"%string) 23
                      ++ repeat (commit "B"%string) 17) [] [] [] [])
                = [23; 17]%nat) by (vm_compute; reflexivity).
  assert (C8 : map Member.commits
                 (buildMemberSummaries byte_order
                    (repeat (commit "A"%string) 7
                     ++ repeat (commit "B"%string) 1) [] [] [] [])
               = [7; 1]%nat) by (vm_compute; reflexivity).
  assert (Hmap : forall (round : Z -> Z -> Z) cs,
             percentages_rounded_by round ->
             (0 < List.length cs)%nat ->
             Z.of_nat (List.length cs) < 2 ^ 32 ->
             map Member.commitPct
               (buildMemberSummaries byte_order cs [] [] [] [])
             = map (fun c => JsNumber.JInt
                                (round (100 * Z.of_nat c)
                                   (Z.of_nat (List.length cs))))
                 (map Member.commits
                    (buildMemberSummaries byte_order cs [] [] [] []))).
  { intros round cs H Hpos Hlen.
    specialize (H byte_order cs [] [] [] [] Hlen Hpos). cbv zeta in H.
    rewrite map_map. apply map_ext_in. intros m Hm.
    rewrite Forall_forall in H. now apply H. }
  assert (P40 : (0 < List.length (repeat (commit "A"%string) 23
                                  ++ repeat (commit "B"%string) 17))%nat)
    by (apply Nat.ltb_lt; reflexivity).
  assert (P8 : (0 < List.length (repeat (commit "A"%string) 7
                                 ++ repeat (commit "B"%string) 1))%nat)
    by (apply Nat.ltb_lt; reflexivity).
  assert (L40 : Z.of_nat (List.length (repeat (commit "A"%string) 23
                                       ++ repeat (commit "B"%string) 17))
                < 2 ^ 32) by reflexivity.
  assert (L8 : Z.of_nat (List.length (repeat (commit "A"%string) 7
                                      ++ repeat (commit "B"%string) 1))
               < 2 ^ 32) by reflexivity.
  repeat split; intros H.
  - pose proof (Hmap _ _ H P40 L40) as E.
    rewrite E40, C40 in E. vm_compute in E. discriminate E.
  - pose proof (Hmap _ _ H P8 L8) as E.
    rewrite E8, C8 in E. vm_compute in E. discriminate E.
  - pose proof (Hmap _ _ H P8 L8) as E.
    rewrite E8, C8 in E. vm_compute in E. discriminate E.
Qed.

(** C6, amended.  With fewer than [2^32] commits (the bound of an array),
    every contributor's commit percentage is [0] when there are no
    commits, and otherwise an integer within one half of one hundred
    times the contributor's commits over the total: the nearest integer
    when that quotient is not half way between two integers, and one of
    the two neighbours when it is.  With commits, the percentage column
    is within half a point per committing contributor of [100]. *)
Theorem buildMemberSummaries_commit_percentages :
  forall (localeCompare : string -> string -> Z)
         (commits mrsMerged mrsOpened issuesOpened issuesClosed
            : list Entry.t),
    Z.of_nat (List.length commits) < 2 ^ 32 ->
    let total := List.length commits in
    let out := buildMemberSummaries localeCompare commits mrsMerged
                 mrsOpened issuesOpened issuesClosed in
    Forall (fun m => exists k,
              Member.commitPct m = JsNumber.JInt k
              /\ (total = 0%nat -> k = 0)
              /\ ((0 < total)%nat ->
                  - Z.of_nat total
                  <= 2 * (Z.of_nat total * k
                          - 100 * Z.of_nat (Member.commits m))
                  <= Z.of_nat total)
              /\ ((0 < total)%nat ->
                  ~ exact_tie (100 * Z.of_nat (Member.commits m))
                      (Z.of_nat total) ->
                  k = round_half_up (100 * Z.of_nat (Member.commits m))
                        (Z.of_nat total))
              /\ ((0 < total)%nat ->
                  exact_tie (100 * Z.of_nat (Member.commits m))
                    (Z.of_nat total) ->
                  k = round_half_up (100 * Z.of_nat (Member.commits m))
                        (Z.of_nat total)
                  \/ k = round_half_down (100 * Z.of_nat (Member.commits m))
                           (Z.of_nat total)))
      out
    /\ ((0 < total)%nat ->
        - Z.of_nat (committers out)
        <= 2 * (pct_sum out - 100)
        <= Z.of_nat (committers out)).
Proof.
  intros lc commits mrsMerged mrsOpened issuesOpened issuesClosed Hlen
    total out.
  set (entries := member_entries commits mrsMerged mrsOpened issuesOpened
                    issuesClosed).
  assert (Hperm : Permutation out entries) by apply sort_perm.
  assert (Hsum : commit_sum out = total).
  { unfold commit_sum.
    rewrite (list_sum_perm _ _ (Permutation_map Member.commits Hperm)).
    apply member_entries_commit_sum. }
  assert (Hall : Forall (fun m => exists k,
              Member.commitPct m = JsNumber.JInt k
              /\ (total = 0%nat -> k = 0)
              /\ ((0 < total)%nat ->
                  - Z.of_nat total
                  <= 2 * (Z.of_nat total * k
                          - 100 * Z.of_nat (Member.commits m))
                  <= Z.of_nat total)) out).
  { apply Forall_forall. intros m Hm.
    assert (Hc : (Member.commits m <= total)%nat).
    { rewrite <- Hsum. apply list_sum_in. now apply in_map. }
    pose proof (member_entries_pct commits mrsMerged mrsOpened issuesOpened
                  issuesClosed) as Hp.
    rewrite Forall_forall in Hp.
    rewrite (Hp m (Permutation_in _ Hperm Hm)).
    apply percentage_nearest; assumption. }
  split.
  { eapply Forall_impl; [|exact Hall].
    intros m (k & Ek & H0 & Hk). exists k.
    split; [exact Ek|]. split; [exact H0|]. split; [exact Hk|].
    split; intros Hpos Htie;
      apply (nearest_unless_tie (100 * Z.of_nat (Member.commits m))
               (Z.of_nat total) k ltac:(lia));
      try exact Htie;
      specialize (Hk Hpos); lia. }
  intros Hpos.
  assert (Ht : 0 < Z.of_nat total) by lia.
  pose proof (pct_sum_bound (Z.of_nat total) out Ht) as Hb.
  rewrite Hsum in Hb.
  assert (Hb' : - (Z.of_nat (committers out) * Z.of_nat total)
                <= 2 * (Z.of_nat total * pct_sum out - 100 * Z.of_nat total)
                <= Z.of_nat (committers out) * Z.of_nat total).
  { apply Hb. eapply Forall_impl; [|exact Hall].
    intros m (k & Ek & _ & Hk). exists k. split; [exact Ek|]. now apply Hk. }
  nia.
Qed.

Lemma buildMemberSummaries_commit_percentages_witness :
  let commit who :=
    Entry.mk None None None None (Some who) None None None None None None
      None in
  let out :=
    buildMemberSummaries byte_order
      [ commit "Alice"%string; commit "Bob"%string; commit "Alice"%string;
        commit "Bob"%string; commit "Alice"%string ]
      [] [] [] [] in
  - Z.of_nat (committers out)
  <= 2 * (pct_sum out - 100)
  <= Z.of_nat (committers out).
Proof.
  intros commit out.
  apply (buildMemberSummaries_commit_percentages byte_order
           [ commit "Alice"%string; commit "Bob"%string;
             commit "Alice"%string; commit "Bob"%string;
             commit "Alice"%string ]
           [] [] [] []).
  - simpl. lia.
  - simpl. lia.
Defined.

(** C1 as stated fails: the divisor is the number of opened requests
    whenever that is not zero, also when more requests were merged than
    opened.  Five merged and two opened requests give 250, not 100. *)
Lemma mergeRate_counterexample :
  ~ (forall merged opened : nat,
        exists k,
          mergeRate merged opened = JsNumber.JInt k
          /\ let D := Z.max (Z.max (Z.of_nat opened) (Z.of_nat merged)) 1 in
             - D <= 2 * (D * k - 100 * Z.of_nat merged) <= D).
Proof.
  intros H. destruct (H 5%nat 2%nat) as (k & Ek & Hk).
  vm_compute in Ek. injection Ek as <-. vm_compute in Hk.
  destruct Hk as [_ Hk]. apply Hk. reflexivity.
Qed.

(** C1, amended.  The divisor of the merge rate is the number of opened
    requests if that is not zero, else the number of merged requests if
    that is not zero, else one; it is [max(opened, merged, 1)] exactly when
    no request was opened or no more were merged than opened.  For totals
    below [2^32] the merge rate is an integer nearest to one hundred times
    merged over that divisor, and whenever the block is rendered its second
    line shows this integer followed by a percent sign. *)
Theorem formatVelocityHighlights_merge_rate :
  forall (merged opened commits closed : nat) (mrs : list Entry.t)
         (multi : bool),
    Z.of_nat merged < 2 ^ 32 -> Z.of_nat opened < 2 ^ 32 ->
    let D := merge_denominator opened merged in
    D = match opened, merged with
        | S _, _ => opened
        | O, S _ => merged
        | O, O => 1%nat
        end
    /\ (Z.of_nat D = Z.max (Z.max (Z.of_nat opened) (Z.of_nat merged)) 1
        <-> opened = 0%nat \/ (merged <= opened)%nat)
    /\ (exists k,
           mergeRate merged opened = JsNumber.JInt k
           /\ - Z.of_nat D
              <= 2 * (Z.of_nat D * k - 100 * Z.of_nat merged)
              <= Z.of_nat D)
    /\ (merged <> 0%nat \/ commits <> 0%nat \/ closed <> 0%nat ->
        exists rest,
          formatVelocityHighlights merged opened commits closed mrs multi
          = Some (join nl
                    (VELOCITY_HEAD
                     :: (BULLET ++ " Merge rate: "
                         ++ of_integral (mergeRate merged opened) ++ "%")%string
                     :: rest))).
Proof.
  intros merged opened commits closed mrs multi Hm Ho D.
  assert (HD : D = match opened, merged with
                   | S _, _ => opened
                   | O, S _ => merged
                   | O, O => 1%nat
                   end)
    by (unfold D, merge_denominator; destruct opened, merged; reflexivity).
  split; [exact HD|]. split.
  { rewrite HD. destruct opened, merged; lia. }
  split.
  - assert (HDpos : 0 < Z.of_nat D < 2 ^ 32)
      by (rewrite HD; destruct opened, merged; lia).
    unfold mergeRate. fold D.
    exact (percent_round (Z.of_nat merged) (Z.of_nat D) ltac:(lia) HDpos).
  - intros Hany. unfold formatVelocityHighlights.
    assert (E : ((merged =? 0)%nat && (commits =? 0)%nat
                 && (closed =? 0)%nat)%bool = false).
    { destruct merged, commits, closed; try reflexivity. lia. }
    rewrite E. eexists. reflexivity.
Qed.

Lemma formatVelocityHighlights_merge_rate_witness :
  exists k,
    mergeRate 3 4 = JsNumber.JInt k
    /\ - Z.of_nat (merge_denominator 4 3)
       <= 2 * (Z.of_nat (merge_denominator 4 3) * k - 100 * Z.of_nat 3)
       <= Z.of_nat (merge_denominator 4 3).
Proof.
  apply (formatVelocityHighlights_merge_rate 3 4 0 0 [] false).
  - simpl. lia.
  - simpl. lia.
Defined.

End NumberClaims.

(* ================================================================== *)
(** * Further properties of the chunker and the dispatcher             *)
(* ================================================================== *)

Section ChunkerMore.
Import Chunker.

Lemma keep_repeat_NL (n : nat) : filter not_newline (repeat NL n) = [].
Proof. induction n as [|n IH]; simpl; [reflexivity|exact IH]. Qed.

Lemma keep_rejoin (tagged : list (nat * js_string)) :
  filter not_newline (rejoin tagged)
  = filter not_newline (concat (map snd tagged)).
Proof.
  unfold rejoin. induction tagged as [|[n c] rest IH]; simpl; [reflexivity|].
  rewrite !filter_app, keep_repeat_NL, IH. reflexivity.
Qed.

(** X1.  Whatever the text and the positive limit, the chunks hold, in
    order, exactly the code units of the text that are not newlines:
    cutting never loses, repeats or reorders anything but line breaks. *)
Theorem chunkMessage_keeps_content :
  forall (text : js_string) (limit : nat),
    0 < limit ->
    exists chunks,
      chunkMessage text limit = Some chunks
      /\ filter not_newline (concat chunks) = filter not_newline text.
Proof.
  intros text limit Hl.
  destruct (chunkMessage_pieces text limit Hl) as (chunks & Hrun & _).
  exists chunks. split; [exact Hrun|].
  pose proof (chunkMessage_sep_forget text limit) as Hf.
  rewrite Hrun in Hf.
  destruct (chunkMessage_sep text limit) as [tagged|] eqn:Et;
    [|discriminate].
  simpl in Hf. injection Hf as <-.
  rewrite <- keep_rejoin.
  unfold chunkMessage_sep in Et.
  destruct (truthy text) eqn:Htr.
  - destruct (loop_sep limit 0 (split_nl text) ([], [], 0))
      as [[[chs current] sep]|] eqn:El; [|discriminate].
    pose proof (loop_sep_rejoin limit (split_nl text) 0 ([], [], 0)
                  (chs, current, sep)) as Hacc.
    simpl in Hacc. specialize (Hacc ltac:(discriminate) El).
    rewrite laid_split in Hacc. rewrite <- Hacc.
    rewrite !filter_app, keep_repeat_NL.
    destruct (truthy current) eqn:Ecur; injection Et as <-.
    + rewrite rejoin_app, rejoin_one, !filter_app, keep_repeat_NL.
      reflexivity.
    + apply truthy_false in Ecur; subst current. now rewrite app_nil_r.
  - injection Et as <-. apply truthy_false in Htr. now subst text.
Qed.

Lemma chunkMessage_keeps_content_witness :
  exists chunks,
    chunkMessage [97; 98; 10; 10; 99; 100; 101; 10]%N 2 = Some chunks
    /\ filter not_newline (concat chunks)
       = filter not_newline [97; 98; 10; 10; 99; 100; 101; 10]%N.
Proof. apply chunkMessage_keeps_content. lia. Defined.

Lemma split_nl_first_empty (text : js_string) (rest : list js_string) :
  split_nl text = [] :: rest -> text = [] \/ exists t, text = NL :: t.
Proof.
  destruct text as [|c t]; [now left|]. simpl.
  destruct (N.eqb c NL) eqn:E.
  - apply N.eqb_eq in E. subst c. right. now exists t.
  - destruct (split_nl t); discriminate.
Qed.

Lemma loop_fits (limit : nat) (rest : list js_string) :
  forall current,
    current <> [] ->
    length (current ++ concat (map (cons NL) rest)) <= limit ->
    loop limit rest ([], current)
    = Some ([], current ++ concat (map (cons NL) rest)).
Proof.
  induction rest as [|line rest IH]; intros current Hne Hlen; simpl.
  - now rewrite app_nil_r.
  - assert (Ht : truthy current = true) by now apply truthy_true.
    rewrite Ht.
    assert (Hfit : (length (current ++ NL :: line) <=? limit) = true).
    { apply Nat.leb_le. simpl in Hlen. rewrite !length_app in *.
      simpl in *. rewrite length_app in Hlen. lia. }
    rewrite Hfit. rewrite IH.
    + f_equal. f_equal. simpl. now rewrite <- app_assoc.
    + now destruct current.
    + simpl in Hlen. rewrite <- app_assoc. exact Hlen.
Qed.

(** X2.  A non-empty text that fits the limit and does not begin with a
    newline is sent as a single chunk, unchanged. *)
Theorem chunkMessage_short_text :
  forall (text : js_string) (limit : nat),
    text <> [] -> hd 0%N text <> NL -> length text <= limit ->
    chunkMessage text limit = Some [text].
Proof.
  intros text limit Hne Hhd Hlen. unfold chunkMessage.
  assert (Ht : truthy text = true) by now apply truthy_true.
  rewrite Ht.
  destruct (split_nl text) as [|l rest] eqn:Es;
    [now destruct (split_nl_nonnil text)|].
  pose proof (laid_split text) as Hlaid. rewrite Es in Hlaid.
  assert (Hl : l <> []).
  { intros ->. destruct (split_nl_first_empty text rest Es) as [E|[t E]].
    - contradiction.
    - rewrite E in Hhd. exact (Hhd eq_refl). }
  unfold laid in Hlaid. simpl in Hlaid.
  cbn [loop step truthy]. 
  assert (Hfit : (length l <=? limit) = true).
  { apply Nat.leb_le. rewrite <- Hlaid, length_app in Hlen. lia. }
  rewrite Hfit, loop_fits; [| exact Hl | now rewrite Hlaid].
  rewrite Hlaid, Ht. reflexivity.
Qed.

Lemma chunkMessage_short_text_witness :
  chunkMessage [104; 105; 10; 10; 33]%N DEFAULT_LIMIT
  = Some [[104; 105; 10; 10; 33]%N].
Proof.
  apply chunkMessage_short_text.
  - discriminate.
  - discriminate.
  - unfold DEFAULT_LIMIT. simpl. lia.
Defined.

Lemma trimStart_incl (s : js_string) (x : code_unit) :
  In x (trimStart s) -> In x s.
Proof.
  destruct (trimStart_suffix s) as [pre E]. intros H. rewrite E.
  apply in_or_app. now right.
Qed.

Lemma trim_incl (s : js_string) (x : code_unit) : In x (trim s) -> In x s.
Proof.
  unfold trim. intros H. apply in_rev in H. apply trimStart_incl in H.
  apply in_rev in H. now apply trimStart_incl.
Qed.

(** X3.  Every payload that [postMessageBlocks] posts is at most 1800 code
    units long and holds at least one code unit that is not white space;
    when every block is missing or empty, nothing is posted. *)
Theorem postMessageBlocks_payloads :
  (forall blocks : list (option js_string),
      exists posts,
        postMessageBlocks blocks = Some posts
        /\ Forall (fun c => length c <= 1800
                            /\ exists x, In x c /\ is_space x = false)
             posts)
  /\ (forall blocks : list (option js_string),
         Forall (fun b => b = None \/ b = Some []) blocks ->
         postMessageBlocks blocks = Some []).
Proof.
  split.
  - intros blocks. unfold postMessageBlocks.
    destruct (truthy (group_content blocks));
      [|exists []; split; [reflexivity|constructor]].
    destruct (chunkMessage_pieces (group_content blocks) DEFAULT_LIMIT)
      as (chunks & -> & Hok); [unfold DEFAULT_LIMIT; lia|].
    eexists; split; [reflexivity|].
    apply Forall_forall. intros c Hc. apply filter_In in Hc.
    destruct Hc as [Hin Htrim]. rewrite Forall_forall in Hok.
    split; [apply (Hok c Hin)|].
    destruct (trim c) as [|x r] eqn:Et; [discriminate|].
    exists x. split.
    + apply trim_incl. rewrite Et. now left.
    + eapply trim_head. exact Et.
  - intros blocks Hall. unfold postMessageBlocks, group_content.
    assert (E : filter_Boolean blocks = []).
    { induction Hall as [|b rest [-> | ->] _ IH]; simpl; auto. }
    rewrite E. reflexivity.
Qed.

Lemma postMessageBlocks_payloads_witness :
  postMessageBlocks [None; Some []; None] = Some [].
Proof.
  apply (proj2 postMessageBlocks_payloads).
  constructor; [now left|]. constructor; [now right|].
  constructor; [now left|]. constructor.
Defined.

End ChunkerMore.

(* ================================================================== *)
(** * Further properties of the contributor summaries                  *)
(* ================================================================== *)

Section MemberCounts.
Import Strings.String.
Import JsString Report.
Local Open Scope string_scope.

Lemma filter_perm_length {A : Type} (p : A -> bool) (l l' : list A) :
  Permutation l l' -> List.length (filter p l) = List.length (filter p l').
Proof.
  induction 1 as [|x l l' _ IH|x y l|l l' l'' _ IH1 _ IH2]; simpl.
  - reflexivity.
  - destruct (p x); simpl; now rewrite IH.
  - destruct (p x), (p y); reflexivity.
  - now rewrite IH1.
Qed.

Lemma filter_keeps_distinct {A B : Type} (keep : A -> bool) (key : A -> B) :
  forall xs : list A,
    NoDup (map key xs) -> NoDup (map key (filter keep xs)).
Proof.
  intros xs Hnd. induction xs as [|x xs IH]; [constructor|].
  cbn [map filter] in *. inversion Hnd as [|? ? Hx Hrest]; subst.
  destruct (keep x); cbn [map]; [|now apply IH].
  constructor; [|now apply IH].
  intros Hin. apply Hx. apply in_map_iff in Hin.
  destruct Hin as (y & Hy & Hin). apply filter_In in Hin.
  apply in_map_iff. exists y. now split.
Qed.

Lemma authored_pos (name : string) (items : list Entry.t) :
  0 < authored name items
  <-> exists e, In e items /\ resolveAuthorName (Some e) = name.
Proof.
  unfold authored. split.
  - intros H.
    destruct (filter (fun e => String.eqb (resolveAuthorName (Some e)) name)
                items) as [|e r] eqn:E; [simpl in H; lia|].
    assert (Hin : In e (filter (fun e => String.eqb
                          (resolveAuthorName (Some e)) name) items))
      by (rewrite E; now left).
    apply filter_In in Hin. destruct Hin as [Hin He].
    exists e. split; [exact Hin|now apply String.eqb_eq].
  - intros (e & Hin & He).
    assert (Hf : In e (filter (fun e => String.eqb
                         (resolveAuthorName (Some e)) name) items)).
    { apply filter_In. split; [exact Hin|now apply String.eqb_eq]. }
    destruct (filter _ items); [contradiction|simpl; lia].
Qed.

Section Counter.

Variable g : Member.t -> nat.
Hypothesis g_fresh : forall name, g (fresh name) = 0.

Lemma bump_counted_add (f : Member.t -> Member.t) (name n : string)
    (ms : list Member.t) :
  keeps_name f -> (forall m, g (f m) = g m + 1) ->
  counted g n (bump f name ms)
  = counted g n ms + (if String.eqb name n then 1 else 0).
Proof.
  intros Hn Hg. unfold counted. induction ms as [|m ms IH]; simpl.
  - rewrite Hn. simpl. destruct (String.eqb name n); simpl; [|reflexivity].
    rewrite Hg, g_fresh. reflexivity.
  - destruct (String.eqb (Member.name m) name) eqn:E; simpl.
    + rewrite Hn. apply String.eqb_eq in E. rewrite E.
      destruct (String.eqb name n); simpl; [rewrite Hg|]; lia.
    + destruct (String.eqb (Member.name m) n) eqn:E'; simpl.
      * rewrite IH. lia.
      * exact IH.
Qed.

Lemma bump_counted_keep (f : Member.t -> Member.t) (name n : string)
    (ms : list Member.t) :
  keeps_name f -> (forall m, g (f m) = g m) ->
  counted g n (bump f name ms) = counted g n ms.
Proof.
  intros Hn Hg. unfold counted. induction ms as [|m ms IH]; simpl.
  - rewrite Hn. simpl. destruct (String.eqb name n); simpl; [|reflexivity].
    rewrite Hg, g_fresh. reflexivity.
  - destruct (String.eqb (Member.name m) name) eqn:E; simpl.
    + rewrite Hn. destruct (String.eqb (Member.name m) n); simpl;
        [rewrite Hg|]; reflexivity.
    + destruct (String.eqb (Member.name m) n); simpl; now rewrite IH.
Qed.

Lemma tally_counted_add (f : Member.t -> Member.t) (n : string)
    (items : list Entry.t) :
  keeps_name f -> (forall m, g (f m) = g m + 1) ->
  forall ms,
    counted g n (tally f items ms) = counted g n ms + authored n items.
Proof.
  intros Hn Hg. unfold tally, authored.
  induction items as [|item items IH]; intros ms; [simpl; lia|].
  cbn [fold_left filter].
  rewrite IH, (bump_counted_add f _ n ms Hn Hg).
  destruct (String.eqb (resolveAuthorName (Some item)) n);
    cbn [List.length]; lia.
Qed.

Lemma tally_counted_keep (f : Member.t -> Member.t) (n : string)
    (items : list Entry.t) :
  keeps_name f -> (forall m, g (f m) = g m) ->
  forall ms, counted g n (tally f items ms) = counted g n ms.
Proof.
  intros Hn Hg. unfold tally.
  induction items as [|item items IH]; intros ms; [reflexivity|].
  cbn [fold_left]. rewrite IH. now apply bump_counted_keep.
Qed.

Lemma counted_set_commitPct (n : string) (t : nat) (ms : list Member.t) :
  (forall m, g (set_commitPct t m) = g m) ->
  counted g n (map (set_commitPct t) ms) = counted g n ms.
Proof.
  intros Hg. unfold counted. induction ms as [|m ms IH]; simpl;
    [reflexivity|].
  destruct (String.eqb (Member.name m) n); simpl; [rewrite Hg|];
    now rewrite IH.
Qed.

Lemma counted_absent (n : string) (ms : list Member.t) :
  ~ In n (map Member.name ms) -> counted g n ms = 0.
Proof.
  unfold counted. induction ms as [|m ms IH]; simpl; intros H;
    [reflexivity|].
  destruct (String.eqb_spec (Member.name m) n) as [E|E].
  - exfalso. apply H. now left.
  - apply IH. intros Hin. apply H. now right.
Qed.

Lemma counted_NoDup (m : Member.t) (ms : list Member.t) :
  NoDup (map Member.name ms) -> In m ms ->
  counted g (Member.name m) ms = g m.
Proof.
  induction ms as [|x ms IH]; simpl; intros Hnd Hin; [contradiction|].
  inversion Hnd as [|? ? Hx Hms]; subst.
  destruct Hin as [->|Hin].
  - unfold counted. simpl. rewrite String.eqb_refl. simpl.
    fold (counted g (Member.name m) ms).
    rewrite counted_absent by exact Hx. lia.
  - unfold counted. simpl.
    destruct (String.eqb_spec (Member.name x) (Member.name m)) as [E|E].
    + exfalso. apply Hx. rewrite E. now apply in_map.
    + now apply IH.
Qed.

Lemma counted_pos (n : string) (ms : list Member.t) :
  0 < counted g n ms -> exists m, In m ms /\ Member.name m = n /\ 0 < g m.
Proof.
  unfold counted. induction ms as [|x ms IH]; simpl; intros H; [lia|].
  destruct (String.eqb_spec (Member.name x) n) as [E|E]; simpl in H.
  - destruct (g x) eqn:Eg.
    + destruct (IH H) as (m & Hin & Hm). exists m. split; [now right|exact Hm].
    + exists x. split; [now left|]. split; [exact E|lia].
  - destruct (IH H) as (m & Hin & Hm). exists m. split; [now right|exact Hm].
Qed.

End Counter.

Lemma bump_records (f : Member.t -> Member.t) (name : string)
    (ms : list Member.t) :
  (forall m, records (f m) = records m + 1) ->
  Forall (fun m => 0 < records m) ms ->
  Forall (fun m => 0 < records m) (bump f name ms).
Proof.
  intros Hf. induction ms as [|m ms IH]; simpl; intros H.
  - constructor; [rewrite Hf; lia|constructor].
  - inversion H; subst.
    destruct (String.eqb (Member.name m) name).
    + constructor; [rewrite Hf; lia|assumption].
    + constructor; [assumption|now apply IH].
Qed.

Lemma tally_records (f : Member.t -> Member.t) (items : list Entry.t) :
  (forall m, records (f m) = records m + 1) ->
  forall ms,
    Forall (fun m => 0 < records m) ms ->
    Forall (fun m => 0 < records m) (tally f items ms).
Proof.
  intros Hf. unfold tally. induction items as [|item items IH]; simpl;
    intros ms H; [exact H|].
  apply IH. now apply bump_records.
Qed.

Lemma member_entries_records
    (commits mrsMerged mrsOpened issuesOpened issuesClosed : list Entry.t) :
  Forall (fun m => 0 < records m)
    (member_entries commits mrsMerged mrsOpened issuesOpened issuesClosed).
Proof.
  unfold member_entries. apply Forall_map.
  assert (H : forall ms, Forall (fun m => 0 < records m) ms ->
                         Forall (fun m => 0 < records (set_commitPct
                                    (List.length commits) m)) ms).
  { intros ms Hms. eapply Forall_impl; [|exact Hms]. intros m Hm. exact Hm. }
  apply H.
  repeat (apply tally_records;
          [intros m; unfold records; simpl; lia|]).
  constructor.
Qed.

Lemma member_entries_counted
    (commits mrsMerged mrsOpened issuesOpened issuesClosed : list Entry.t)
    (n : string) :
  let ms := member_entries commits mrsMerged mrsOpened issuesOpened
              issuesClosed in
  counted Member.commits n ms = authored n commits
  /\ counted Member.mergedMrs n ms = authored n mrsMerged
  /\ counted Member.openedMrs n ms = authored n mrsOpened
  /\ counted Member.issuesOpened n ms = authored n issuesOpened
  /\ counted Member.issuesClosed n ms = authored n issuesClosed.
Proof.
  cbv zeta. unfold member_entries.
  repeat split.
  - rewrite counted_set_commitPct by (intros m; reflexivity).
    rewrite !tally_counted_keep
      by first [intros m; reflexivity | intros name; reflexivity].
    rewrite tally_counted_add;
      [reflexivity| intros name; reflexivity | intros m; reflexivity
       | intros m; reflexivity].
  - rewrite counted_set_commitPct by (intros m; reflexivity).
    rewrite !tally_counted_keep
      by first [intros m; reflexivity | intros name; reflexivity].
    rewrite tally_counted_add;
      [| intros name; reflexivity | intros m; reflexivity
       | intros m; reflexivity].
    rewrite tally_counted_keep
      by first [intros m; reflexivity | intros name; reflexivity].
    reflexivity.
  - rewrite counted_set_commitPct by (intros m; reflexivity).
    rewrite !tally_counted_keep
      by first [intros m; reflexivity | intros name; reflexivity].
    rewrite tally_counted_add;
      [| intros name; reflexivity | intros m; reflexivity
       | intros m; reflexivity].
    rewrite !tally_counted_keep
      by first [intros m; reflexivity | intros name; reflexivity].
    reflexivity.
  - rewrite counted_set_commitPct by (intros m; reflexivity).
    rewrite !tally_counted_keep
      by first [intros m; reflexivity | intros name; reflexivity].
    rewrite tally_counted_add;
      [| intros name; reflexivity | intros m; reflexivity
       | intros m; reflexivity].
    rewrite !tally_counted_keep
      by first [intros m; reflexivity | intros name; reflexivity].
    reflexivity.
  - rewrite counted_set_commitPct by (intros m; reflexivity).
    rewrite tally_counted_add;
      [| intros name; reflexivity | intros m; reflexivity
       | intros m; reflexivity].
    rewrite !tally_counted_keep
      by first [intros m; reflexivity | intros name; reflexivity].
    reflexivity.
Qed.

(** X4.  Each entry of the contributor summaries holds, in each of its five
    counters, the number of records of that kind that [resolveAuthorName]
    attributes to the entry's name, and it has at least one record; every
    record's resolved author has an entry. *)
Theorem buildMemberSummaries_counts :
  forall (localeCompare : string -> string -> Z)
         (commits mrsMerged mrsOpened issuesOpened issuesClosed
            : list Entry.t),
    let out := buildMemberSummaries localeCompare commits mrsMerged
                 mrsOpened issuesOpened issuesClosed in
    (forall m, In m out ->
       Member.commits m = authored (Member.name m) commits
       /\ Member.mergedMrs m = authored (Member.name m) mrsMerged
       /\ Member.openedMrs m = authored (Member.name m) mrsOpened
       /\ Member.issuesOpened m = authored (Member.name m) issuesOpened
       /\ Member.issuesClosed m = authored (Member.name m) issuesClosed
       /\ 0 < records m)
    /\ (forall e,
          In e (commits ++ mrsMerged ++ mrsOpened ++ issuesOpened
                ++ issuesClosed)%list ->
          exists m, In m out /\ Member.name m = resolveAuthorName (Some e)).
Proof.
  intros lc commits mrsMerged mrsOpened issuesOpened issuesClosed out.
  pose (ms := member_entries commits mrsMerged mrsOpened issuesOpened
                issuesClosed).
  assert (Hperm : Permutation out ms) by apply sort_perm.
  destruct (member_entries_names commits mrsMerged mrsOpened issuesOpened
              issuesClosed) as [Hnd _]. fold ms in Hnd.
  split.
  - intros m Hm. apply (Permutation_in _ Hperm) in Hm.
    destruct (member_entries_counted commits mrsMerged mrsOpened
                issuesOpened issuesClosed (Member.name m))
      as (H1 & H2 & H3 & H4 & H5). fold ms in H1, H2, H3, H4, H5.
    rewrite counted_NoDup in H1, H2, H3, H4, H5 by assumption.
    repeat (split; [assumption|]).
    pose proof (member_entries_records commits mrsMerged mrsOpened
                  issuesOpened issuesClosed) as Hr.
    rewrite Forall_forall in Hr. now apply Hr.
  - intros e He.
    destruct (member_entries_counted commits mrsMerged mrsOpened
                issuesOpened issuesClosed (resolveAuthorName (Some e)))
      as (H1 & H2 & H3 & H4 & H5). fold ms in H1, H2, H3, H4, H5.
    assert (Hex : exists g, 0 < counted g (resolveAuthorName (Some e)) ms).
    { assert (Hpos : forall items, In e items ->
                0 < authored (resolveAuthorName (Some e)) items).
      { intros items Hin. apply authored_pos. now exists e. }
      rewrite !in_app_iff in He.
      destruct He as [He | [He | [He | [He | He]]]]; apply Hpos in He.
      - exists Member.commits. now rewrite H1.
      - exists Member.mergedMrs. now rewrite H2.
      - exists Member.openedMrs. now rewrite H3.
      - exists Member.issuesOpened. now rewrite H4.
      - exists Member.issuesClosed. now rewrite H5. }
    destruct Hex as (g & Hg).
    destruct (counted_pos g _ ms Hg) as (m & Hin & Hname & _).
    exists m. split; [|exact Hname].
    apply (Permutation_in _ (Permutation_sym Hperm)). exact Hin.
Qed.

Lemma buildMemberSummaries_counts_witness :
  let e := Entry.mk None None None None (Some "Ann") None None None None
             None None None in
  exists m,
    In m (buildMemberSummaries byte_order [e] [] [] [e] [])
    /\ Member.name m = resolveAuthorName (Some e).
Proof.
  intros e.
  pose proof (buildMemberSummaries_counts byte_order [e] [] [] [e] []) as H.
  cbv zeta in H. destruct H as [_ H]. apply (H e). now left.
Defined.

(** X5.  The contributor figure of the team metrics, the number of distinct
    resolved commit authors, is the number of entries of the contributor
    summaries that have at least one commit. *)
Theorem contributors_are_committers :
  forall (localeCompare : string -> string -> Z)
         (commits mrsMerged mrsOpened issuesOpened issuesClosed
            : list Entry.t),
    distinct_count (map (fun c => resolveAuthorName (Some c)) commits)
    = committers (buildMemberSummaries localeCompare commits mrsMerged
                    mrsOpened issuesOpened issuesClosed).
Proof.
  intros lc commits mrsMerged mrsOpened issuesOpened issuesClosed.
  pose (ms := member_entries commits mrsMerged mrsOpened issuesOpened
                issuesClosed).
  unfold committers, buildMemberSummaries.
  rewrite (filter_perm_length _ _ _ (sort_perm (member_cmp lc) ms)).
  unfold distinct_count.
  rewrite <- (length_map Member.name
                (filter (fun m => Nat.ltb 0 (Member.commits m)) ms)).
  apply Permutation_length, NoDup_Permutation.
  - apply NoDup_nodup.
  - apply filter_keeps_distinct.
    apply (member_entries_names commits mrsMerged mrsOpened issuesOpened
             issuesClosed).
  - intros x. rewrite nodup_In.
    destruct (member_entries_names commits mrsMerged mrsOpened issuesOpened
                issuesClosed) as [Hnd _]. fold ms in Hnd.
    destruct (member_entries_counted commits mrsMerged mrsOpened
                issuesOpened issuesClosed x) as (H1 & _). fold ms in H1.
    split.
    + intros Hx. apply in_map_iff in Hx. destruct Hx as (e & He & Hin).
      assert (Hpos : 0 < counted Member.commits x ms).
      { rewrite H1. apply authored_pos. now exists e. }
      destruct (counted_pos _ _ _ Hpos) as (m & Hm & Hname & Hc).
      apply in_map_iff. exists m. split; [exact Hname|].
      apply filter_In. split; [exact Hm|now apply Nat.ltb_lt].
    + intros Hx. apply in_map_iff in Hx. destruct Hx as (m & Hname & Hm).
      apply filter_In in Hm. destruct Hm as [Hm Hc].
      apply Nat.ltb_lt in Hc. subst x.
      rewrite counted_NoDup in H1 by assumption.
      rewrite H1 in Hc. apply authored_pos in Hc.
      destruct Hc as (e & He & Hn). apply in_map_iff. now exists e.
Qed.

End MemberCounts.

(* ================================================================== *)
(** * Further properties of the assembled report                       *)
(* ================================================================== *)

Section MainMore.
Import Strings.String.
Import JsString Report.
Local Open Scope string_scope.

Lemma filter_split_perm {A : Type} (p : A -> bool) (l : list A) :
  Permutation (filter p l ++ filter (fun x => negb (p x)) l) l.
Proof.
  induction l as [|x l IH]; simpl; [constructor|].
  destruct (p x); simpl.
  - now constructor.
  - apply Permutation_sym, Permutation_cons_app, Permutation_sym, IH.
Qed.

Lemma total_sum (f : Project.t -> list Entry.t) (projects : list Project.t) :
  total f projects = list_sum (map (fun p => List.length (f p)) projects).
Proof.
  unfold total.
  assert (H : forall a,
             fold_left (fun sum project => sum + List.length (f project))
               projects a
             = a + list_sum (map (fun p => List.length (f p)) projects)).
  { induction projects as [|p ps IH]; simpl; intros a; [lia|].
    rewrite IH. lia. }
  apply H.
Qed.

Lemma total_filter (f : Project.t -> list Entry.t) (keep : Project.t -> bool)
    (projects : list Project.t) :
  (forall p, keep p = false -> f p = []) ->
  total f (filter keep projects) = total f projects.
Proof.
  intros H. rewrite !total_sum.
  induction projects as [|p ps IH]; simpl; [reflexivity|].
  destruct (keep p) eqn:E; simpl; [now rewrite IH|].
  rewrite (H p E). simpl. exact IH.
Qed.

Section Config.

Variable localeCompare : string -> string -> Z.
Variable toLowerCase : string -> string.
Variable REPORT_TITLE ORG_LABEL_INTERNAL ORG_LABEL_CLIENT label : string.
Variable CLIENT_PROJECT_ID_SET : list string.

Lemma hasActivity_false (p : Project.t) :
  hasActivity p = false ->
  Project.commits p = [] /\ Project.mrsOpened p = []
  /\ Project.mrsMerged p = [] /\ Project.issuesOpened p = []
  /\ Project.issuesClosed p = [].
Proof.
  unfold hasActivity. intros H.
  repeat (apply Bool.orb_false_iff in H; destruct H as [H ?]).
  repeat match goal with
         | K : Nat.ltb 0 (List.length ?l) = false |- _ =>
             assert (l = []) by (destruct l; [reflexivity|discriminate K]);
             clear K
         end.
  repeat split; assumption.
Qed.

Lemma main_assemble (gitlabResults githubResults : list Project.t)
    (r : report) :
  main localeCompare toLowerCase REPORT_TITLE ORG_LABEL_INTERNAL
    ORG_LABEL_CLIENT label CLIENT_PROJECT_ID_SET gitlabResults githubResults
  = Some r ->
  r = assemble localeCompare toLowerCase REPORT_TITLE ORG_LABEL_INTERNAL
        ORG_LABEL_CLIENT label CLIENT_PROJECT_ID_SET
        (gitlabResults ++ githubResults)%list.
Proof.
  unfold main. intros H.
  destruct gitlabResults, githubResults; try discriminate H;
    now injection H as <-.
Qed.

End Config.

(** X6.  [main] splits the collected repositories into the active and the
    inactive ones, losing and repeating none; an inactive repository has
    no commits, merge requests or issues in the window, so the totals
    taken over the active repositories are the totals over all of them. *)
Theorem main_active_inactive :
  forall (localeCompare : string -> string -> Z)
         (toLowerCase : string -> string)
         (REPORT_TITLE ORG_LABEL_INTERNAL ORG_LABEL_CLIENT label : string)
         (CLIENT_PROJECT_ID_SET : list string)
         (gitlabResults githubResults : list Project.t) (r : report),
    main localeCompare toLowerCase REPORT_TITLE ORG_LABEL_INTERNAL
      ORG_LABEL_CLIENT label CLIENT_PROJECT_ID_SET gitlabResults
      githubResults = Some r ->
    let results := (gitlabResults ++ githubResults)%list in
    Permutation (activeResults r ++ inactiveResults r)%list results
    /\ Forall (fun p => hasActivity p = true) (activeResults r)
    /\ Forall (fun p => Project.commits p = [] /\ Project.mrsOpened p = []
                        /\ Project.mrsMerged p = []
                        /\ Project.issuesOpened p = []
                        /\ Project.issuesClosed p = [])
         (inactiveResults r)
    /\ total Project.commits (activeResults r) = total Project.commits results
    /\ total Project.mrsOpened (activeResults r)
       = total Project.mrsOpened results
    /\ total Project.mrsMerged (activeResults r)
       = total Project.mrsMerged results
    /\ total Project.issuesOpened (activeResults r)
       = total Project.issuesOpened results
    /\ total Project.issuesClosed (activeResults r)
       = total Project.issuesClosed results.
Proof.
  intros lc tl T I C L S gitlab github r Hr results.
  apply main_assemble in Hr. subst r. fold results.
  unfold assemble. cbn [activeResults inactiveResults].
  split; [apply filter_split_perm|].
  split; [apply Forall_forall; intros p Hp; now apply filter_In in Hp|].
  split.
  { apply Forall_forall. intros p Hp. apply filter_In in Hp.
    destruct Hp as [_ Hp]. apply Bool.negb_true_iff in Hp.
    now apply hasActivity_false. }
  repeat split; apply total_filter; intros p Hp;
    apply hasActivity_false in Hp; tauto.
Qed.

Lemma main_active_inactive_witness :
  exists r,
    main byte_order (fun s => s) "Velocity" "Internal" "Client"
      "May 1, 2025" []
      [Project.mk "42" "api" "team/api" [] [] [] [] [] [] []] []
    = Some r
    /\ Permutation (activeResults r ++ inactiveResults r)%list
         [Project.mk "42" "api" "team/api" [] [] [] [] [] [] []].
Proof.
  eexists. split; [reflexivity|].
  exact (proj1 (main_active_inactive byte_order (fun s => s) "Velocity"
                  "Internal" "Client" "May 1, 2025" []
                  [Project.mk "42" "api" "team/api" [] [] [] [] [] [] []] []
                  _ eq_refl)).
Defined.



End MainMore.

(* ================================================================== *)
(** * Maps and sets in insertion order                                 *)
(* ================================================================== *)

Section MapFacts.

Context {K V : Type}.
Variable eqb : K -> K -> bool.
Hypothesis eqb_eq : forall a b, eqb a b = true <-> a = b.

Lemma eqb_neq (a b : K) : eqb a b = false <-> a <> b.
Proof.
  split.
  - intros H E. apply eqb_eq in E. congruence.
  - intros H. destruct (eqb a b) eqn:E; [|reflexivity].
    apply eqb_eq in E. contradiction.
Qed.

Lemma map_get_in (k : K) (v : V) (m : JsMap.t) :
  JsMap.get eqb k m = Some v -> In (k, v) m.
Proof.
  induction m as [|[k' v'] m IH]; simpl; [discriminate|].
  destruct (eqb k' k) eqn:E.
  - intros H. injection H as <-. apply eqb_eq in E. subst. now left.
  - intros H. right. now apply IH.
Qed.

Lemma map_get_none (k : K) (m : JsMap.t (V := V)) :
  JsMap.get eqb k m = None <-> ~ In k (JsMap.keys m).
Proof.
  induction m as [|[k' v'] m IH]; simpl; [tauto|].
  destruct (eqb k' k) eqn:E.
  - apply eqb_eq in E. split; [discriminate|]. intros H. exfalso. auto.
  - apply eqb_neq in E. rewrite IH. tauto.
Qed.

Lemma map_in_get (k : K) (v : V) (m : JsMap.t) :
  NoDup (JsMap.keys m) -> In (k, v) m -> JsMap.get eqb k m = Some v.
Proof.
  induction m as [|[k' v'] m IH]; simpl; intros Hnd Hin; [contradiction|].
  inversion Hnd as [|? ? Hk Hm]; subst.
  destruct Hin as [E|Hin].
  - injection E as -> ->.
    assert (R : eqb k k = true) by now apply eqb_eq.
    now rewrite R.
  - destruct (eqb k' k) eqn:E.
    + apply eqb_eq in E. subst k'. exfalso. apply Hk.
      change k with (fst (k, v)). now apply in_map.
    + now apply IH.
Qed.

Lemma map_has_in (k : K) (m : JsMap.t (V := V)) :
  JsMap.has eqb k m = true <-> In k (JsMap.keys m).
Proof.
  unfold JsMap.has. pose proof (map_get_none k m) as H.
  destruct (JsMap.get eqb k m).
  - split; [intros _|reflexivity].
    destruct (in_dec (fun a b => match Bool.bool_dec (eqb a b) true with
                                 | left e => left (proj1 (eqb_eq a b) e)
                                 | right n =>
                                     right (fun e => n (proj2 (eqb_eq a b) e))
                                 end) k (JsMap.keys m)) as [Hin|Hout];
      [exact Hin|].
    apply H in Hout. discriminate.
  - split; [discriminate|]. intros Hin. exfalso. now apply (proj1 H).
Qed.

Lemma map_keys_set (k : K) (v : V) (m : JsMap.t) :
  JsMap.keys (JsMap.set eqb k v m)
  = if JsMap.has eqb k m then JsMap.keys m else JsMap.keys m ++ [k].
Proof.
  unfold JsMap.has, JsMap.keys.
  induction m as [|[k' v'] m IH]; simpl; [reflexivity|].
  destruct (eqb k' k) eqn:E; simpl; [reflexivity|].
  rewrite IH. now destruct (JsMap.get eqb k m).
Qed.

Lemma map_in_keys_set (k k' : K) (v : V) (m : JsMap.t) :
  In k' (JsMap.keys (JsMap.set eqb k v m)) <-> k' = k \/ In k' (JsMap.keys m).
Proof.
  rewrite map_keys_set. destruct (JsMap.has eqb k m) eqn:E.
  - apply map_has_in in E. split; [tauto|]. intros [->|H]; assumption.
  - rewrite in_app_iff. simpl. intuition.
Qed.

Lemma map_set_NoDup (k : K) (v : V) (m : JsMap.t) :
  NoDup (JsMap.keys m) -> NoDup (JsMap.keys (JsMap.set eqb k v m)).
Proof.
  intros H. rewrite map_keys_set. destruct (JsMap.has eqb k m) eqn:E;
    [exact H|].
  apply NoDup_app; [exact H|repeat constructor; intros []|].
  intros x Hx [<-|[]].
  assert (JsMap.has eqb k m = true) by now apply map_has_in.
  congruence.
Qed.

Lemma map_in_set (k k' : K) (v v' : V) (m : JsMap.t) :
  In (k', v') (JsMap.set eqb k v m) -> (k' = k /\ v' = v) \/ In (k', v') m.
Proof.
  induction m as [|[k0 v0] m IH]; simpl.
  - intros [E|[]]. injection E as <- <-. now left.
  - destruct (eqb k0 k) eqn:E; simpl.
    + intros [H|H]; [|now right; right].
      injection H as <- <-. apply eqb_eq in E. now left.
    + intros [H|H]; [now right; left|].
      destruct (IH H) as [?|?]; [now left|now right; right].
Qed.

Lemma map_get_set_same (k : K) (v : V) (m : JsMap.t) :
  JsMap.get eqb k (JsMap.set eqb k v m) = Some v.
Proof.
  assert (R : eqb k k = true) by now apply eqb_eq.
  induction m as [|[k0 v0] m IH]; simpl; [now rewrite R|].
  destruct (eqb k0 k) eqn:E; simpl; now rewrite E.
Qed.

Lemma map_get_set_other (k k' : K) (v : V) (m : JsMap.t) :
  k' <> k -> JsMap.get eqb k' (JsMap.set eqb k v m) = JsMap.get eqb k' m.
Proof.
  intros Hne. induction m as [|[k0 v0] m IH]; simpl.
  - assert (R : eqb k k' = false) by (apply eqb_neq; congruence).
    now rewrite R.
  - destruct (eqb k0 k) eqn:E; simpl.
    + apply eqb_eq in E. subst k0.
      assert (R : eqb k k' = false) by (apply eqb_neq; congruence).
      now rewrite R.
    + destruct (eqb k0 k'); [reflexivity|exact IH].
Qed.

Lemma map_in_delete (k k' : K) (v' : V) (m : JsMap.t) :
  In (k', v') (JsMap.delete eqb k m) -> In (k', v') m.
Proof.
  induction m as [|[k0 v0] m IH]; simpl; [tauto|].
  destruct (eqb k0 k); simpl; [now right|].
  intros [H|H]; [now left|right; now apply IH].
Qed.

Lemma map_delete_keep (k k' : K) (v' : V) (m : JsMap.t) :
  k' <> k -> In (k', v') m -> In (k', v') (JsMap.delete eqb k m).
Proof.
  intros Hne. induction m as [|[k0 v0] m IH]; simpl; [tauto|].
  destruct (eqb k0 k) eqn:E; simpl.
  - intros [H|H]; [|exact H]. injection H as -> ->.
    apply eqb_eq in E. contradiction.
  - intros [H|H]; [now left|right; now apply IH].
Qed.

Lemma map_delete_NoDup (k : K) (m : JsMap.t (V := V)) :
  NoDup (JsMap.keys m) -> NoDup (JsMap.keys (JsMap.delete eqb k m)).
Proof.
  induction m as [|[k0 v0] m IH]; simpl; intros H; [constructor|].
  inversion H as [|? ? Hk Hm]; subst.
  destruct (eqb k0 k); simpl; [exact Hm|].
  constructor; [|now apply IH].
  intros Hin. apply Hk. apply in_map_iff in Hin.
  destruct Hin as ([k1 v1] & E & Hin). simpl in E. subst k1.
  apply map_in_delete in Hin. change k0 with (fst (k0, v1)).
  now apply in_map.
Qed.

Lemma map_delete_gone (k : K) (m : JsMap.t (V := V)) :
  NoDup (JsMap.keys m) -> ~ In k (JsMap.keys (JsMap.delete eqb k m)).
Proof.
  induction m as [|[k0 v0] m IH]; simpl; intros H; [tauto|].
  inversion H as [|? ? Hk Hm]; subst.
  destruct (eqb k0 k) eqn:E; simpl.
  - apply eqb_eq in E. now subst k0.
  - apply eqb_neq in E. intros [Hin|Hin]; [contradiction|].
    now apply IH.
Qed.

Lemma map_in_keys (k : K) (m : JsMap.t (V := V)) :
  In k (JsMap.keys m) <-> exists v, In (k, v) m.
Proof.
  unfold JsMap.keys. rewrite in_map_iff. split.
  - intros ([k0 v0] & E & Hin). simpl in E. subst. now exists v0.
  - intros (v & Hin). now exists (k, v).
Qed.

(** Deleting a list of keys. *)
Lemma map_delete_all_in (ks : list K) :
  forall (m : JsMap.t (V := V)) k v,
    In (k, v) (fold_left (fun m e => JsMap.delete eqb e m) ks m) ->
    In (k, v) m.
Proof.
  induction ks as [|e ks IH]; simpl; intros m k v H; [exact H|].
  apply IH in H. now apply map_in_delete in H.
Qed.

Lemma map_delete_all_keep (ks : list K) :
  forall (m : JsMap.t (V := V)) k v,
    ~ In k ks -> In (k, v) m ->
    In (k, v) (fold_left (fun m e => JsMap.delete eqb e m) ks m).
Proof.
  induction ks as [|e ks IH]; simpl; intros m k v Hk H; [exact H|].
  apply IH; [tauto|]. apply map_delete_keep; [|exact H].
  intros ->. apply Hk. now left.
Qed.

Lemma map_delete_all_NoDup (ks : list K) :
  forall m : JsMap.t (V := V),
    NoDup (JsMap.keys m) ->
    NoDup (JsMap.keys (fold_left (fun m e => JsMap.delete eqb e m) ks m)).
Proof.
  induction ks as [|e ks IH]; simpl; intros m H; [exact H|].
  apply IH. now apply map_delete_NoDup.
Qed.

Lemma map_delete_all_gone (ks : list K) :
  forall (m : JsMap.t (V := V)) k,
    NoDup (JsMap.keys m) -> In k ks ->
    ~ In k (JsMap.keys (fold_left (fun m e => JsMap.delete eqb e m) ks m)).
Proof.
  induction ks as [|e ks IH]; simpl; intros m k Hnd Hk; [contradiction|].
  intros Hin.
  destruct (eqb e k) eqn:E.
  - apply eqb_eq in E. subst e.
    apply map_in_keys in Hin. destruct Hin as (v & Hin).
    apply map_delete_all_in in Hin.
    apply (map_delete_gone k m Hnd). apply map_in_keys. now exists v.
  - apply eqb_neq in E. destruct Hk as [->|Hk]; [congruence|].
    revert Hin. apply IH; [now apply map_delete_NoDup|exact Hk].
Qed.

(** Sets. *)
Lemma set_has_in (k : K) (s : list K) :
  JsSet.has eqb k s = true <-> In k s.
Proof.
  unfold JsSet.has. rewrite existsb_exists. split.
  - intros (x & Hx & E). apply eqb_eq in E. now subst.
  - intros H. exists k. split; [exact H|now apply eqb_eq].
Qed.

Lemma set_of_list_in (l : list K) (k : K) :
  In k (JsSet.of_list eqb l) <-> In k l.
Proof.
  unfold JsSet.of_list.
  assert (H : forall s, In k (fold_left (fun s k => JsSet.add eqb k s) l s)
                        <-> In k s \/ In k l).
  { induction l as [|x l IH]; simpl; intros s; [tauto|].
    rewrite IH. unfold JsSet.add.
    destruct (JsSet.has eqb x s) eqn:E.
    - apply set_has_in in E. split; [tauto|].
      intros [H|[->|H]]; tauto.
    - rewrite in_app_iff. simpl. tauto. }
  rewrite H. simpl. tauto.
Qed.

End MapFacts.

(* ================================================================== *)
(** * Commits grouped by author                                        *)
(* ================================================================== *)

Section Grouping.
Import Strings.String.
Import JsString Report.
Local Open Scope string_scope.

Lemma get_or_zero_set_same (k : string) (v : nat) (m : JsMap.t) :
  get_or_zero k (JsMap.set String.eqb k v m) = v.
Proof.
  unfold get_or_zero. now rewrite (map_get_set_same _ String.eqb_eq).
Qed.

Lemma get_or_zero_set_other (k k' : string) (v : nat) (m : JsMap.t) :
  k' <> k -> get_or_zero k' (JsMap.set String.eqb k v m) = get_or_zero k' m.
Proof.
  intros H. unfold get_or_zero.
  now rewrite (map_get_set_other _ String.eqb_eq) by exact H.
Qed.

Lemma values_set_sum (k : string) (m : JsMap.t) :
  list_sum (JsMap.values (JsMap.set String.eqb k (get_or_zero k m + 1) m))
  = list_sum (JsMap.values m) + 1.
Proof.
  unfold get_or_zero, JsMap.values.
  induction m as [|[k0 v0] m IH]; simpl; [reflexivity|].
  destruct (String.eqb k0 k) eqn:E; simpl; [lia|].
  rewrite IH. lia.
Qed.

Lemma groupItemsByAuthor_fold (items : list Entry.t) :
  forall m : JsMap.t,
    NoDup (JsMap.keys m) ->
    (forall k v, In (k, v) m -> 0 < v) ->
    let m' :=
      fold_left
        (fun map item =>
           let key := resolveAuthorName (Some item) in
           JsMap.set String.eqb key (get_or_zero key map + 1) map)
        items m in
    NoDup (JsMap.keys m')
    /\ (forall k v, In (k, v) m' -> 0 < v)
    /\ (forall n, get_or_zero n m' = get_or_zero n m + authored n items)
    /\ list_sum (JsMap.values m')
       = list_sum (JsMap.values m) + List.length items.
Proof.
  induction items as [|item items IH]; intros m Hnd Hpos.
  - cbn [fold_left]. unfold authored. simpl.
    repeat split; auto; intros; lia.
  - cbn [fold_left]. cbv zeta.
    set (key := resolveAuthorName (Some item)).
    set (m1 := JsMap.set String.eqb key (get_or_zero key m + 1) m).
    assert (Hnd1 : NoDup (JsMap.keys m1))
      by (apply (map_set_NoDup _ String.eqb_eq); exact Hnd).
    assert (Hpos1 : forall k v, In (k, v) m1 -> 0 < v).
    { intros k v Hin.
      apply (map_in_set _ String.eqb_eq) in Hin.
      destruct Hin as [[_ ->]|Hin]; [lia|now apply (Hpos k)]. }
    pose proof (IH m1 Hnd1 Hpos1) as IH1. cbv zeta in IH1.
    destruct IH1 as (H1 & H2 & H3 & H4).
    split; [exact H1|]. split; [exact H2|]. split.
    + intros n. rewrite H3. unfold authored. cbn [filter].
      fold key. destruct (String.eqb_spec key n) as [E|E].
      * subst n. unfold m1. rewrite get_or_zero_set_same.
        cbn [List.length]. lia.
      * unfold m1. rewrite get_or_zero_set_other by congruence. lia.
    + rewrite H4. unfold m1. rewrite values_set_sum.
      cbn [List.length]. lia.
Qed.

(** X8.  [groupCommitsByAuthor] lists each resolved author of the commits
    once, with the number of commits attributed to that name, and no one
    else; the counts add up to the number of commits, and the list runs
    from the largest count to the smallest. *)
Theorem groupCommitsByAuthor_counts :
  forall commits : list Entry.t,
    let groups := groupCommitsByAuthor commits in
    NoDup (map fst groups)
    /\ (forall name count,
          In (name, count) groups
          <-> count = authored name commits /\ 0 < count)
    /\ list_sum (map snd groups) = List.length commits
    /\ StronglySorted (fun a b => snd b <= snd a) groups.
Proof.
  intros commits groups.
  destruct (groupItemsByAuthor_fold commits [] (NoDup_nil _)
              (fun k v (H : In (k, v) []) => match H with end))
    as (Hnd & Hpos & Hcnt & Hsum).
  cbv zeta in Hnd, Hpos, Hcnt, Hsum.
  fold (groupItemsByAuthor commits) in Hnd, Hpos, Hcnt, Hsum.
  remember (groupItemsByAuthor commits) as m eqn:Em.
  assert (Hperm : Permutation groups m)
    by (rewrite Em; apply sort_perm).
  split; [|split; [|split]].
  - apply (Permutation_NoDup (Permutation_sym (Permutation_map fst Hperm))).
    exact Hnd.
  - intros name count. split.
    + intros Hin. apply (Permutation_in _ Hperm) in Hin.
      split; [|now apply (Hpos name)].
      specialize (Hcnt name). unfold get_or_zero in Hcnt.
      rewrite (map_in_get _ String.eqb_eq _ _ _ Hnd Hin) in Hcnt.
      simpl in Hcnt. exact Hcnt.
    + intros [-> Hc].
      apply (Permutation_in _ (Permutation_sym Hperm)).
      specialize (Hcnt name). simpl in Hcnt. rewrite <- Hcnt in *.
      unfold get_or_zero in *.
      destruct (JsMap.get String.eqb name m) as [c|] eqn:E; [|lia].
      now apply (map_get_in _ String.eqb_eq).
  - rewrite (list_sum_perm _ _ (Permutation_map snd Hperm)).
    exact Hsum.
  - unfold groups, groupCommitsByAuthor. clear.
    eapply StronglySorted_impl_in;
      [|apply (sort_sorted _ (fun _ => True))].
    + intros a b _ _ H. simpl in H. lia.
    + intros a b _ _ H. lia.
    + intros a b c _ _ _ H1 H2. lia.
    + apply Forall_forall. intros; exact I.
Qed.

Lemma groupCommitsByAuthor_counts_witness :
  let e := Entry.mk None None None None (Some "Ann") None None None None
             None None None in
  In ("Ann", 2) (groupCommitsByAuthor [e; e]).
Proof.
  intros e.
  apply (proj1 (proj2 (groupCommitsByAuthor_counts [e; e]))).
  split; [reflexivity|unfold lt; apply le_S, le_n].
Defined.

End Grouping.

(* ================================================================== *)
(** * Comma-separated configuration lists                              *)
(* ================================================================== *)

Section CsvFacts.
Import Chunker Discovery.

Lemma str_eqb_eq (a b : js_string) : str_eqb a b = true <-> a = b.
Proof.
  revert b. induction a as [|x a IH]; intros [|y b]; simpl;
    try (split; [discriminate|discriminate]); [tauto|].
  rewrite Bool.andb_true_iff, N.eqb_eq, IH.
  split; [intros [-> ->]; reflexivity|intros H; injection H; auto].
Qed.

Lemma split_comma_nonnil (s : js_string) : split_comma s <> [].
Proof.
  induction s as [|c s IH]; simpl; [discriminate|].
  destruct (N.eqb c COMMA); [discriminate|].
  destruct (split_comma s); [contradiction|discriminate].
Qed.

Lemma split_comma_free (s : js_string) :
  Forall (fun x => ~ In COMMA x) (split_comma s).
Proof.
  induction s as [|c s IH]; simpl.
  - constructor; [tauto|constructor].
  - destruct (N.eqb c COMMA) eqn:E.
    + constructor; [tauto|exact IH].
    + apply N.eqb_neq in E.
      destruct (split_comma s) as [|l ls]; [repeat constructor; simpl; intuition|].
      inversion IH; subst. constructor; [|assumption].
      simpl. intuition.
Qed.

Lemma split_comma_app (x s : js_string) :
  ~ In COMMA x -> split_comma (x ++ COMMA :: s) = x :: split_comma s.
Proof.
  induction x as [|c x IH]; simpl; intros H.
  - reflexivity.
  - assert (E : N.eqb c COMMA = false) by (apply N.eqb_neq; intuition).
    rewrite E, IH by tauto. reflexivity.
Qed.

Lemma split_comma_one (x : js_string) :
  ~ In COMMA x -> split_comma x = [x].
Proof.
  induction x as [|c x IH]; simpl; intros H; [reflexivity|].
  assert (E : N.eqb c COMMA = false) by (apply N.eqb_neq; intuition).
  rewrite E, IH by tauto. reflexivity.
Qed.

Lemma split_join_comma (items : list js_string) :
  items <> [] -> Forall (fun x => ~ In COMMA x) items ->
  split_comma (join_comma items) = items.
Proof.
  induction items as [|x items IH]; intros Hne Hall; [contradiction|].
  inversion Hall as [|? ? Hx Hrest]; subst.
  destruct items as [|y items].
  - simpl. now apply split_comma_one.
  - change (join_comma (x :: y :: items))
      with (x ++ COMMA :: join_comma (y :: items)).
    rewrite split_comma_app by exact Hx.
    rewrite IH; [reflexivity|discriminate|exact Hrest].
Qed.

Lemma trimStart_fixed (x : js_string) :
  is_space (hd 0%N x) = false -> trimStart x = x.
Proof.
  destruct x as [|c x]; simpl; [reflexivity|]. now intros ->.
Qed.

Lemma trim_fixed (x : js_string) :
  x <> [] -> is_space (hd 0%N x) = false -> is_space (last x 0%N) = false ->
  trim x = x.
Proof.
  intros Hne Hh Hl. unfold trim. rewrite (trimStart_fixed x Hh).
  destruct (exists_last Hne) as (r & c & ->).
  rewrite last_last in Hl. rewrite rev_app_distr. simpl. rewrite Hl.
  change (c :: rev r) with (rev [c] ++ rev r).
  rewrite <- rev_app_distr. apply rev_involutive.
Qed.

(** X9.  Every entry that [parseCsv] returns is non-empty, holds no comma
    and has no white space at either end; an unset variable gives the
    empty list. *)
Theorem parseCsv_entries :
  (forall value : option js_string, Forall csv_entry (parseCsv value))
  /\ parseCsv None = [].
Proof.
  split; [|reflexivity].
  intros value. unfold parseCsv. apply Forall_forall. intros x Hx.
  apply filter_In in Hx. destruct Hx as [Hx Ht].
  apply in_map_iff in Hx. destruct Hx as (p & <- & Hp).
  assert (Hne : trim p <> []) by now apply truthy_true.
  split; [exact Hne|]. split.
  - intros Hc. apply trim_incl in Hc.
    pose proof (split_comma_free (or_empty value)) as Hf.
    rewrite Forall_forall in Hf. exact (Hf p Hp Hc).
  - split.
    + destruct (trim p) as [|c r] eqn:E; [contradiction|].
      simpl. eapply trim_head. exact E.
    + destruct (exists_last Hne) as (r & c & E). rewrite E.
      rewrite last_last. eapply trim_last. exact E.
Qed.

(** X10.  [parseCsv] undoes [join(",")] on a list of entries that are
    non-empty, comma-free and without white space at either end. *)
Theorem parseCsv_join :
  forall items : list js_string,
    Forall csv_entry items ->
    parseCsv (Some (join_comma items)) = items.
Proof.
  intros items Hall. unfold parseCsv. cbn [or_empty].
  destruct items as [|x items]; [reflexivity|].
  rewrite split_join_comma;
    [|discriminate
     |eapply Forall_impl; [|exact Hall]; intros a Ha; apply Ha].
  induction Hall as [|y l Hy Hl IH]; [reflexivity|].
  destruct Hy as (Hne & _ & Hh & Hlast).
  cbn [map filter]. rewrite (trim_fixed y Hne Hh Hlast).
  assert (Ht : truthy y = true) by now apply truthy_true.
  rewrite Ht. f_equal. exact IH.
Qed.

Lemma parseCsv_join_witness :
  parseCsv (Some (join_comma [[49; 50]; [97; 32; 98]]%N))
  = [[49; 50]; [97; 32; 98]]%N.
Proof.
  apply parseCsv_join.
  constructor; [|constructor; [|constructor]].
  - split; [discriminate|]. split; [|split; reflexivity].
    intros [H|[H|[]]]; discriminate H.
  - split; [discriminate|]. split; [|split; reflexivity].
    intros [H|[H|[H|[]]]]; discriminate H.
Defined.

End CsvFacts.

(* ================================================================== *)
(** * Repository discovery                                             *)
(* ================================================================== *)

Section MapFolds.

Context {K V : Type}.
Variable eqb : K -> K -> bool.
Hypothesis eqb_eq : forall a b, eqb a b = true <-> a = b.

Lemma map_delete_all_keys (ks : list K) (m : JsMap.t (V := V)) (k : K) :
  NoDup (JsMap.keys m) ->
  (In k (JsMap.keys (fold_left (fun m e => JsMap.delete eqb e m) ks m))
   <-> In k (JsMap.keys m) /\ ~ In k ks).
Proof.
  intros Hnd. split.
  - intros Hin. split.
    + apply map_in_keys in Hin. destruct Hin as (v & Hin).
      apply map_delete_all_in in Hin. apply map_in_keys. now exists v.
    + intros Hk. revert Hin.
      now apply (map_delete_all_gone eqb eqb_eq).
  - intros [Hin Hk]. apply map_in_keys in Hin. destruct Hin as (v & Hin).
    apply map_in_keys. exists v.
    now apply (map_delete_all_keep eqb eqb_eq).
Qed.

Variable key : V -> K.

Lemma map_set_all (l : list V) :
  forall m : JsMap.t,
    let m' := fold_left (fun m p => JsMap.set eqb (key p) p m) l m in
    (NoDup (JsMap.keys m) -> NoDup (JsMap.keys m'))
    /\ (forall k, In k (JsMap.keys m')
                  <-> In k (JsMap.keys m) \/ In k (map key l))
    /\ (forall k v, In (k, v) m' -> In (k, v) m \/ (In v l /\ key v = k)).
Proof.
  induction l as [|p l IH]; intros m; cbn [fold_left]; cbv zeta.
  - split; [auto|]. split; [simpl; tauto|auto].
  - pose proof (IH (JsMap.set eqb (key p) p m)) as IH1. cbv zeta in IH1.
    destruct IH1 as (H1 & H2 & H3).
    split; [|split].
    + intros Hnd. apply H1. now apply (map_set_NoDup eqb eqb_eq).
    + intros k. rewrite H2, (map_in_keys_set eqb eqb_eq). simpl.
      intuition.
    + intros k v Hin. apply H3 in Hin.
      destruct Hin as [Hin|[Hin E]]; [|right; split; [now right|exact E]].
      apply (map_in_set eqb eqb_eq) in Hin.
      destruct Hin as [[-> ->]|Hin]; [right; split; [now left|reflexivity]|].
      now left.
Qed.

End MapFolds.

Section GithubDiscovery.
Import Chunker Discovery.

Variable toLowerCase : js_string -> js_string.
Variable includeRegex excludeRegex : option (option js_string -> bool).

Variable excludes : list js_string.
Variable source : js_string -> Prop.


Lemma includeRepo_ok (m : JsMap.t) (repo : option Repo.t) :
  (forall r v, repo = Some r -> Repo.full_name r = Some v -> source v) ->
  repo_entries_ok toLowerCase excludes source m ->
  repo_entries_ok toLowerCase excludes source
    (includeRepo toLowerCase includeRegex excludeRegex excludes m repo).
Proof.
  intros Hsrc Hm. unfold includeRepo.
  destruct repo as [r|]; [|exact Hm].
  destruct (Repo.full_name r) as [fullName|] eqn:Ef; [|exact Hm].
  destruct (negb (truthy fullName)); [exact Hm|].
  cbv zeta.
  destruct (JsSet.has str_eqb _ excludes) eqn:Ex; [exact Hm|].
  destruct (match includeRegex with Some _ => _ | None => _ end);
    [exact Hm|].
  destruct (match excludeRegex with Some _ => _ | None => _ end);
    [exact Hm|].
  destruct Hm as [Hnd Hall]. split.
  - now apply (map_set_NoDup _ str_eqb_eq).
  - intros k v Hin. apply (map_in_set _ str_eqb_eq) in Hin.
    destruct Hin as [[-> ->]|Hin]; [|now apply Hall].
    split; [reflexivity|]. split; [exact Ex|].
    now apply (Hsrc r).
Qed.

Lemma includeRepo_all_ok (l : list (option Repo.t)) :
  forall m,
    (forall r v, In (Some r) l -> Repo.full_name r = Some v -> source v) ->
    repo_entries_ok toLowerCase excludes source m ->
    repo_entries_ok toLowerCase excludes source
      (fold_left
                (includeRepo toLowerCase includeRegex excludeRegex excludes)
                l m).
Proof.
  induction l as [|repo l IH]; intros m Hsrc Hm; [exact Hm|].
  cbn [fold_left]. apply IH.
  - intros r v Hin. apply Hsrc. now right.
  - apply includeRepo_ok; [|exact Hm].
    intros r v -> Hv. apply (Hsrc r); [now left|exact Hv].
Qed.

Lemma include_extra_all_ok (l : list js_string) :
  forall m,
    (forall v, In v l -> source v) ->
    repo_entries_ok toLowerCase excludes source m ->
    repo_entries_ok toLowerCase excludes source
      (fold_left (include_extra toLowerCase excludes) l m).
Proof.
  induction l as [|extra l IH]; intros m Hsrc Hm; [exact Hm|].
  cbn [fold_left]. apply IH; [intros v Hv; apply Hsrc; now right|].
  unfold include_extra. cbv zeta.
  destruct (negb (truthy extra)); [exact Hm|]. cbn [orb].
  destruct (JsSet.has str_eqb _ excludes) eqn:Ex; [exact Hm|].
  destruct Hm as [Hnd Hall]. split.
  - now apply (map_set_NoDup _ str_eqb_eq).
  - intros k v Hin. apply (map_in_set _ str_eqb_eq) in Hin.
    destruct Hin as [[-> ->]|Hin]; [|now apply Hall].
    split; [reflexivity|]. split; [exact Ex|].
    apply Hsrc. now left.
Qed.

(** Keys are only ever added by the two loops. *)
Lemma includeRepo_keeps (m : JsMap.t) (repo : option Repo.t) (k : js_string) :
  In k (JsMap.keys m) ->
  In k (JsMap.keys
          (includeRepo toLowerCase includeRegex excludeRegex excludes m repo)).
Proof.
  intros H. unfold includeRepo.
  destruct repo as [r|]; [|exact H].
  destruct (Repo.full_name r) as [fullName|]; [|exact H].
  destruct (negb (truthy fullName)); [exact H|].
  cbv zeta.
  destruct (JsSet.has str_eqb _ excludes); [exact H|].
  destruct (match includeRegex with Some _ => _ | None => _ end);
    [exact H|].
  destruct (match excludeRegex with Some _ => _ | None => _ end);
    [exact H|].
  apply (map_in_keys_set _ str_eqb_eq). now right.
Qed.

Lemma includeRepo_all_keeps (l : list (option Repo.t)) :
  forall m k,
    In k (JsMap.keys m) ->
    In k (JsMap.keys
            (fold_left
               (includeRepo toLowerCase includeRegex excludeRegex excludes)
               l m)).
Proof.
  induction l as [|repo l IH]; intros m k H; [exact H|].
  cbn [fold_left]. apply IH. now apply includeRepo_keeps.
Qed.

Lemma include_extra_keeps (m : JsMap.t) (extra k : js_string) :
  In k (JsMap.keys m) ->
  In k (JsMap.keys (include_extra toLowerCase excludes m extra)).
Proof.
  intros H. unfold include_extra. cbv zeta.
  destruct (negb (truthy extra) || JsSet.has str_eqb _ excludes);
    [exact H|].
  apply (map_in_keys_set _ str_eqb_eq). now right.
Qed.

Lemma include_extra_all_keeps (l : list js_string) :
  forall m k,
    In k (JsMap.keys m) ->
    In k (JsMap.keys (fold_left (include_extra toLowerCase excludes) l m)).
Proof.
  induction l as [|extra l IH]; intros m k H; [exact H|].
  cbn [fold_left]. apply IH. now apply include_extra_keeps.
Qed.

Lemma include_extra_all_adds (l : list js_string) (extra : js_string) :
  In extra l -> extra <> [] ->
  JsSet.has str_eqb (normalizeRepoName toLowerCase (Some extra)) excludes
  = false ->
  forall m,
    In (normalizeRepoName toLowerCase (Some extra))
       (JsMap.keys (fold_left (include_extra toLowerCase excludes) l m)).
Proof.
  intros Hin Hne Hex. induction l as [|x l IH]; intros m; [contradiction|].
  cbn [fold_left]. destruct Hin as [->|Hin]; [|now apply IH].
  apply include_extra_all_keeps. unfold include_extra. cbv zeta.
  rewrite Hex. apply truthy_true in Hne. rewrite Hne. cbn [negb orb].
  apply (map_in_keys_set _ str_eqb_eq). now left.
Qed.

Lemma includeRepo_all_adds (l : list (option Repo.t)) (r : Repo.t)
    (fullName : js_string) :
  In (Some r) l -> Repo.full_name r = Some fullName -> fullName <> [] ->
  JsSet.has str_eqb (normalizeRepoName toLowerCase (Some fullName)) excludes
  = false ->
  match includeRegex with
  | Some test => test (Some fullName) = true \/ test (Repo.name r) = true
  | None => True
  end ->
  match excludeRegex with
  | Some test => test (Some fullName) = false /\ test (Repo.name r) = false
  | None => True
  end ->
  forall m,
    In (normalizeRepoName toLowerCase (Some fullName))
       (JsMap.keys
          (fold_left
             (includeRepo toLowerCase includeRegex excludeRegex excludes)
             l m)).
Proof.
  intros Hin Hf Hne Hex Hinc Hexc.
  induction l as [|x l IH]; intros m; [contradiction|].
  cbn [fold_left]. destruct Hin as [->|Hin]; [|now apply IH].
  apply includeRepo_all_keeps. unfold includeRepo. rewrite Hf.
  apply truthy_true in Hne. rewrite Hne. cbn [negb]. cbv zeta.
  rewrite Hex.
  assert (E1 : match includeRegex with
               | Some test =>
                   negb (test (Some fullName)) && negb (test (Repo.name r))
               | None => false
               end = false).
  { destruct includeRegex as [test|]; [|reflexivity].
    destruct Hinc as [-> | ->]; [reflexivity|apply Bool.andb_false_r]. }
  assert (E2 : match excludeRegex with
               | Some test => test (Some fullName) || test (Repo.name r)
               | None => false
               end = false).
  { destruct excludeRegex as [test|]; [|reflexivity].
    destruct Hexc as [-> ->]. reflexivity. }
  rewrite E1, E2. apply (map_in_keys_set _ str_eqb_eq). now left.
Qed.

End GithubDiscovery.

Section GithubDiscoveryResult.
Import Chunker Discovery.

(** X11.  What [discoverGithubRepos] returns, given what the requests
    delivered: no repository whose normalized name is excluded, none
    twice under one normalized name, and nothing but delivered full names
    and forced extras; every forced extra that is not excluded is
    represented, and so is every delivered repository that is not
    excluded and passes the two optional regular expressions. *)
Theorem discoverGithubRepos_selection :
  forall (toLowerCase : js_string -> js_string)
         (includeRegex excludeRegex : option (option js_string -> bool))
         (fetched : list (option Repo.t)) (extras excluded : list js_string),
    let norm := fun v => normalizeRepoName toLowerCase (Some v) in
    let result := discoverGithubRepos toLowerCase includeRegex excludeRegex
                    true fetched extras excluded in
    (forall v, In v result -> ~ In (norm v) (map norm excluded))
    /\ NoDup (map norm result)
    /\ (forall v, In v result ->
          In v extras
          \/ exists r, In (Some r) fetched /\ Repo.full_name r = Some v)
    /\ (forall extra,
          In extra extras -> extra <> [] ->
          ~ In (norm extra) (map norm excluded) ->
          exists v, In v result /\ norm v = norm extra)
    /\ (forall r fullName,
          In (Some r) fetched -> Repo.full_name r = Some fullName ->
          fullName <> [] ->
          ~ In (norm fullName) (map norm excluded) ->
          match includeRegex with
          | Some test =>
              test (Some fullName) = true \/ test (Repo.name r) = true
          | None => True
          end ->
          match excludeRegex with
          | Some test =>
              test (Some fullName) = false /\ test (Repo.name r) = false
          | None => True
          end ->
          exists v, In v result /\ norm v = norm fullName).
Proof.
  intros toLowerCase includeRegex excludeRegex fetched extras excluded
    norm result.
  pose (excludes := JsSet.of_list str_eqb (map norm excluded)).
  pose (source := fun v =>
          In v extras
          \/ exists r, In (Some r) fetched /\ Repo.full_name r = Some v).
  pose (m1 := fold_left
                (includeRepo toLowerCase includeRegex excludeRegex excludes)
                fetched []).
  pose (m2 := fold_left (include_extra toLowerCase excludes) extras m1).
  pose (m3 := fold_left (fun m e => JsMap.delete str_eqb e m) excludes m2).
  assert (Hres : result = JsMap.values m3) by reflexivity.
  assert (Hex : forall k,
             JsSet.has str_eqb k excludes = false
             <-> ~ In k (map norm excluded)).
  { intros k. unfold excludes.
    rewrite <- (set_of_list_in _ str_eqb_eq).
    rewrite <- (set_has_in _ str_eqb_eq).
    destruct (JsSet.has str_eqb k _); split; congruence. }
  assert (H1 : NoDup (JsMap.keys m1)
               /\ forall k v, In (k, v) m1 ->
                    k = norm v /\ JsSet.has str_eqb k excludes = false
                    /\ source v).
  { apply (includeRepo_all_ok toLowerCase includeRegex excludeRegex
             excludes source fetched []).
    - intros r v Hin Hv. right. now exists r.
    - split; [constructor|intros k v []]. }
  assert (H2 : NoDup (JsMap.keys m2)
               /\ forall k v, In (k, v) m2 ->
                    k = norm v /\ JsSet.has str_eqb k excludes = false
                    /\ source v).
  { apply (include_extra_all_ok toLowerCase excludes source extras m1);
      [|exact H1].
    intros v Hv. now left. }
  destruct H2 as [Hnd2 Hall2].
  assert (Hall3 : forall k v, In (k, v) m3 ->
                    k = norm v /\ JsSet.has str_eqb k excludes = false
                    /\ source v).
  { intros k v Hin. apply Hall2. now apply map_delete_all_in in Hin. }
  assert (Hnd3 : NoDup (JsMap.keys m3))
    by now apply map_delete_all_NoDup.
  assert (Hval : forall v, In v result -> exists k, In (k, v) m3).
  { intros v Hv. rewrite Hres in Hv. unfold JsMap.values in Hv.
    apply in_map_iff in Hv. destruct Hv as ([k v'] & E & Hin).
    simpl in E. subst v'. now exists k. }
  assert (Hkey : forall k, In k (JsMap.keys m2) ->
                   ~ In k (map norm excluded) ->
                   exists v, In v result /\ norm v = k).
  { intros k Hk Hout.
    assert (Hk3 : In k (JsMap.keys m3)).
    { apply (map_delete_all_keys _ str_eqb_eq); [exact Hnd2|].
      split; [exact Hk|]. unfold excludes.
      now rewrite (set_of_list_in _ str_eqb_eq). }
    apply map_in_keys in Hk3. destruct Hk3 as (v & Hin).
    exists v. split.
    - rewrite Hres. unfold JsMap.values.
      change v with (snd (k, v)). now apply in_map.
    - symmetry. now apply (Hall3 k v). }
  split; [|split; [|split; [|split]]].
  - intros v Hv. destruct (Hval v Hv) as (k & Hin).
    destruct (Hall3 k v Hin) as (-> & Hx & _). now apply Hex.
  - assert (E : map norm result = JsMap.keys m3).
    { rewrite Hres. unfold JsMap.values, JsMap.keys. rewrite map_map.
      apply map_ext_in. intros [k v] Hin. simpl.
      symmetry. now apply (Hall3 k v). }
    rewrite E. exact Hnd3.
  - intros v Hv. destruct (Hval v Hv) as (k & Hin).
    now apply (Hall3 k v).
  - intros extra Hin Hne Hout. apply Hkey; [|exact Hout].
    apply include_extra_all_adds; [exact Hin|exact Hne|now apply Hex].
  - intros r fullName Hin Hf Hne Hout Hinc Hexc.
    apply Hkey; [|exact Hout].
    apply include_extra_all_keeps.
    apply (includeRepo_all_adds toLowerCase includeRegex excludeRegex
             excludes fetched r fullName); auto.
    now apply Hex.
Qed.

Lemma discoverGithubRepos_selection_witness :
  exists v,
    In v (discoverGithubRepos (fun s => s) None None true
            [Some (Repo.mk (Some [97; 47; 98]%N) (Some [98]%N))]
            [[99; 47; 100]%N] [[97; 47; 98]%N])
    /\ normalizeRepoName (fun s => s) (Some v)
       = normalizeRepoName (fun s => s) (Some [99; 47; 100]%N).
Proof.
  pose proof (discoverGithubRepos_selection (fun s => s) None None
                [Some (Repo.mk (Some [97; 47; 98]%N) (Some [98]%N))]
                [[99; 47; 100]%N] [[97; 47; 98]%N]) as H.
  cbv zeta in H. destruct H as (_ & _ & _ & H & _).
  apply (H [99; 47; 100]%N).
  - now left.
  - discriminate.
  - intros [E|[]]. discriminate E.
Defined.

End GithubDiscoveryResult.

Section GitlabDiscovery.
Import Chunker Discovery.

Lemma extras_fold (excludes : list Z) (extras : list Z) :
  forall m : JsMap.t (K := Z) (V := Info.t),
    let m' :=
      fold_left (fun m id => if negb (JsSet.has Z.eqb id excludes)
                             then JsMap.set Z.eqb id (stub id) m else m)
        extras m in
    (NoDup (JsMap.keys m) -> NoDup (JsMap.keys m'))
    /\ (forall k, In k (JsMap.keys m')
                  <-> In k (JsMap.keys m)
                      \/ (In k extras /\ ~ In k excludes)).
Proof.
  induction extras as [|id extras IH]; intros m; cbn [fold_left]; cbv zeta.
  - split; [auto|]. simpl. tauto.
  - destruct (JsSet.has Z.eqb id excludes) eqn:E; cbn [negb].
    + pose proof (IH m) as IH1. cbv zeta in IH1. destruct IH1 as [H1 H2].
      split; [exact H1|]. intros k. rewrite H2.
      apply (set_has_in _ Z.eqb_eq) in E. simpl.
      split; [tauto|]. intros [H|[[->|H] Hk]]; tauto.
    + pose proof (IH (JsMap.set Z.eqb id (stub id) m)) as IH1.
      cbv zeta in IH1. destruct IH1 as [H1 H2].
      assert (Hout : ~ In id excludes).
      { intros Hin. apply (set_has_in _ Z.eqb_eq) in Hin. congruence. }
      split.
      * intros Hnd. apply H1. now apply (map_set_NoDup _ Z.eqb_eq).
      * intros k. rewrite H2, (map_in_keys_set _ Z.eqb_eq). simpl.
        split.
        -- intros [[->|H]|H]; [right; split; [now left|exact Hout]|tauto|tauto].
        -- intros [H|[[->|H] Hk]]; tauto.
Qed.

(** X12.  The ids [discoverProjects] settles on, given the projects the
    requests delivered: each id once, none that is excluded, and each one
    either forced or the id of a delivered project that passes the name
    filter; every forced id that is not excluded is there, and so is the
    id of every delivered project that is not excluded, provided all
    records delivered under that id pass the filter. *)
Theorem discoverProjects_selection :
  forall (nameInc nameExc : option (js_string -> bool))
         (projects : list Info.t) (extras excluded : list Z),
    let result := discoverProjects nameInc nameExc projects extras excluded in
    NoDup result
    /\ (forall id, In id result -> ~ In id excluded)
    /\ (forall id, In id result ->
          In id extras
          \/ exists p, In p projects /\ Info.id p = id
                       /\ name_filter nameInc nameExc p = true)
    /\ (forall id, In id extras -> ~ In id excluded -> In id result)
    /\ (forall p,
          In p projects ->
          (forall q, In q projects -> Info.id q = Info.id p ->
                     name_filter nameInc nameExc q = true) ->
          ~ In (Info.id p) excluded ->
          In (Info.id p) result).
Proof.
  intros nameInc nameExc projects extras excluded result.
  pose (uniq1 := fold_left (fun m p => JsMap.set Z.eqb (Info.id p) p m)
                   projects []).
  pose (filtered := filter (name_filter nameInc nameExc)
                      (JsMap.values uniq1)).
  pose (uniq2 := fold_left (fun m p => JsMap.set Z.eqb (Info.id p) p m)
                   filtered []).
  pose (excludes := JsSet.of_list Z.eqb excluded).
  pose (uniq3 := fold_left
                   (fun m id => if negb (JsSet.has Z.eqb id excludes)
                                then JsMap.set Z.eqb id (stub id) m else m)
                   extras uniq2).
  pose (uniq4 := fold_left (fun m id => JsMap.delete Z.eqb id m)
                   excludes uniq3).
  assert (Hres : result = JsMap.keys uniq4) by reflexivity.
  pose proof (map_set_all Z.eqb Z.eqb_eq Info.id projects []) as H1.
  cbv zeta in H1. fold uniq1 in H1. destruct H1 as (Hnd1 & Hk1 & Hv1).
  pose proof (map_set_all Z.eqb Z.eqb_eq Info.id filtered []) as H2.
  cbv zeta in H2. fold uniq2 in H2. destruct H2 as (Hnd2 & Hk2 & _).
  pose proof (extras_fold excludes extras uniq2) as H3.
  cbv zeta in H3. fold uniq3 in H3. destruct H3 as (Hnd3 & Hk3).
  specialize (Hnd1 (NoDup_nil _)). specialize (Hnd2 (NoDup_nil _)).
  specialize (Hnd3 Hnd2).
  assert (Hk4 : forall k, In k result
                          <-> In k (JsMap.keys uniq3) /\ ~ In k excluded).
  { intros k. rewrite Hres. unfold uniq4.
    rewrite (map_delete_all_keys _ Z.eqb_eq) by exact Hnd3.
    unfold excludes. now rewrite (set_of_list_in _ Z.eqb_eq). }
  assert (Hex : forall k, In k excludes <-> In k excluded).
  { intros k. unfold excludes. apply (set_of_list_in _ Z.eqb_eq). }
  assert (Hf : forall k, In k (JsMap.keys uniq2)
                         <-> exists v, In (k, v) uniq1
                                       /\ name_filter nameInc nameExc v = true).
  { intros k. rewrite Hk2. simpl. split.
    - intros [[]|Hin]. apply in_map_iff in Hin.
      destruct Hin as (v & <- & Hv). unfold filtered in Hv.
      apply filter_In in Hv. destruct Hv as [Hv Hkeep].
      unfold JsMap.values in Hv. apply in_map_iff in Hv.
      destruct Hv as ([k v'] & E & Hin). simpl in E. subst v'.
      exists v. split; [|exact Hkeep].
      destruct (Hv1 k v Hin) as [[]|[_ E]]. now rewrite E.
    - intros (v & Hin & Hkeep). right.
      destruct (Hv1 k v Hin) as [[]|[_ E]]. rewrite <- E.
      apply in_map. unfold filtered. apply filter_In. split; [|exact Hkeep].
      unfold JsMap.values. change v with (snd (k, v)). now apply in_map. }
  split; [|split; [|split; [|split]]].
  - rewrite Hres. now apply map_delete_all_NoDup.
  - intros id Hin. now apply Hk4 in Hin.
  - intros id Hin. apply Hk4 in Hin. destruct Hin as [Hin _].
    apply Hk3 in Hin. destruct Hin as [Hin|[Hin _]]; [|now left].
    right. apply Hf in Hin. destruct Hin as (v & Hin & Hkeep).
    destruct (Hv1 id v Hin) as [[]|[Hp E]]. now exists v.
  - intros id Hin Hout. apply Hk4. split; [|exact Hout].
    apply Hk3. right. split; [exact Hin|]. now rewrite Hex.
  - intros p Hp Hall Hout. apply Hk4. split; [|exact Hout].
    apply Hk3. left. apply Hf.
    assert (Hkey : In (Info.id p) (JsMap.keys uniq1)).
    { apply Hk1. right. now apply in_map. }
    apply map_in_keys in Hkey. destruct Hkey as (v & Hin).
    exists v. split; [exact Hin|].
    destruct (Hv1 _ v Hin) as [[]|[Hv E]]. now apply Hall.
Qed.

Lemma discoverProjects_selection_witness :
  In 7%Z (discoverProjects None None [Info.mk 3 None None] [7; 9]%Z [9; 3]%Z).
Proof.
  pose proof (discoverProjects_selection None None [Info.mk 3 None None]
                [7; 9]%Z [9; 3]%Z) as H.
  cbv zeta in H. destruct H as (_ & _ & _ & H & _).
  apply (H 7%Z).
  - now left.
  - intros [E|[E|[]]]; discriminate E.
Defined.

End GitlabDiscovery.

(* ================================================================== *)
(** * Ranking of the repositories                                      *)
(* ================================================================== *)

Section ProjectRanking.
Import Strings.String.
Import JsString Report.
Local Open Scope string_scope.
Local Infix "+++" := (@List.app _) (at level 60, right associativity).

Variable localeCompare : string -> string -> Z.

Hypothesis lc_antisym :
  forall a b, (localeCompare a b < 0 <-> 0 < localeCompare b a)%Z.
Hypothesis lc_trans :
  forall a b c,
    (localeCompare a b <= 0)%Z -> (localeCompare b c <= 0)%Z ->
    (localeCompare a c <= 0)%Z.

Lemma project_cmp_nonpos (a b : Project.t) :
  (project_cmp localeCompare a b <= 0)%Z
  <-> project_not_after localeCompare a b.
Proof.
  unfold project_cmp, project_not_after.
  destruct (Nat.eqb_spec (List.length (Project.mrsMerged b))
              (List.length (Project.mrsMerged a))); simpl; [|lia].
  destruct (Nat.eqb_spec (List.length (Project.commits b))
              (List.length (Project.commits a))); simpl; lia.
Qed.

Lemma project_cmp_total (a b : Project.t) :
  (0 < project_cmp localeCompare a b)%Z ->
  (project_cmp localeCompare b a <= 0)%Z.
Proof.
  pose proof (lc_antisym (Project.projectName b) (Project.projectName a)).
  unfold project_cmp.
  destruct (Nat.eqb_spec (List.length (Project.mrsMerged b))
              (List.length (Project.mrsMerged a))),
           (Nat.eqb_spec (List.length (Project.mrsMerged a))
              (List.length (Project.mrsMerged b))); simpl; try lia.
  destruct (Nat.eqb_spec (List.length (Project.commits b))
              (List.length (Project.commits a))),
           (Nat.eqb_spec (List.length (Project.commits a))
              (List.length (Project.commits b))); simpl; lia.
Qed.

Lemma project_cmp_trans (a b c : Project.t) :
  (project_cmp localeCompare a b <= 0)%Z ->
  (project_cmp localeCompare b c <= 0)%Z ->
  (project_cmp localeCompare a c <= 0)%Z.
Proof.
  rewrite !project_cmp_nonpos. unfold project_not_after.
  pose proof (lc_trans (Project.projectName a) (Project.projectName b)
                (Project.projectName c)).
  lia.
Qed.

Lemma project_sorted (projects : list Project.t) :
  StronglySorted (project_not_after localeCompare)
    (JsArray.sort (project_cmp localeCompare) projects).
Proof.
  eapply StronglySorted_impl_in;
    [|apply (sort_sorted (project_cmp localeCompare) (fun _ => True))].
  - intros a b _ _ H. now apply project_cmp_nonpos.
  - intros a b _ _. apply project_cmp_total.
  - intros a b c _ _ _. apply project_cmp_trans.
  - apply Forall_forall. auto.
Qed.

Lemma firstn_short {A : Type} (n : nat) (l : list A) :
  List.length (firstn n l) = Nat.min n (List.length l).
Proof. apply length_firstn. Qed.

(** X13.  With a collation that is antisymmetric and transitive, the
    organization summary shows the three repositories that rank first and
    the repository table the ten that rank first, in ranking order: more
    merged requests first, then more commits, then the name that collates
    first; no repository left out ranks before one that is shown, and
    the organization summary says how many are left out. *)
Theorem project_ranking :
  forall (label : string) (projects : list Project.t)
         (totalMRMerged totalCommits : nat),
    projects <> [] ->
    let sorted := JsArray.sort (project_cmp localeCompare) projects in
    Permutation sorted projects
    /\ StronglySorted (project_not_after localeCompare) sorted
    /\ (forall n a b, In a (firstn n sorted) -> In b (skipn n sorted) ->
                      project_not_after localeCompare a b)
    /\ formatOrgSummary localeCompare label projects
       = Some (join nl
                 ([ORG_HEAD_OPEN ++ " " ++ label ++ "**"]
                  +++ map org_line (firstn 3 sorted)
                  +++ (if Nat.ltb 3 (List.length projects)
                       then [ ELLIPSIS ++ "and "
                              ++ of_nat (List.length projects - 3)
                              ++ " more active repo"
                              ++ plural (List.length projects - 3) ++ "." ]
                       else [])))
    /\ formatRepoTable localeCompare projects totalMRMerged totalCommits
       = Some (join nl
                 [ REPO_TABLE_HEAD;
                   formatTable
                     ([ ["Repo"; "PRs"; "Commits"];
                        ["----"; "---"; "-------"] ]
                      +++ map (fun project =>
                                [ Project.projectName project;
                                  of_nat (List.length
                                            (Project.mrsMerged project));
                                  of_nat (List.length
                                            (Project.commits project)) ])
                           (firstn 10 sorted)
                      +++ [ ["TOTAL"; of_nat totalMRMerged;
                             of_nat totalCommits] ]) ]).
Proof.
  intros label projects merged commits Hne sorted.
  pose proof (project_sorted projects) as Hs. fold sorted in Hs.
  split; [apply sort_perm|]. split; [exact Hs|]. split.
  { intros n a b. now apply StronglySorted_split. }
  split.
  - unfold formatOrgSummary.
    destruct projects as [|p ps]; [contradiction|].
    cbv beta iota zeta. fold sorted.
    unfold JsArray.slice0. rewrite firstn_short.
    assert (Hlen : List.length sorted = List.length (p :: ps))
      by apply sort_length.
    rewrite Hlen.
    destruct (Nat.ltb_spec 3 (List.length (p :: ps))) as [H|H].
    + rewrite Nat.min_l by lia.
      destruct (Nat.ltb_spec 3 (List.length (p :: ps))); [|lia].
      reflexivity.
    + rewrite Nat.min_r by lia.
      destruct (Nat.ltb_spec (List.length (p :: ps))
                  (List.length (p :: ps))); [lia|].
      reflexivity.
  - unfold formatRepoTable.
    destruct projects as [|p ps]; [contradiction|]. reflexivity.
Qed.

End ProjectRanking.

Section ProjectRankingWitness.
Import Strings.String.
Import JsString Report.
Local Open Scope string_scope.

Lemma project_ranking_witness :
  StronglySorted (project_not_after byte_order)
    (JsArray.sort (project_cmp byte_order)
       [ Project.mk "1" "api" "team/api" [] [] [] [] [] [] [];
         Project.mk "2" "web" "team/web" [] [] [] [] [] [] [] ]).
Proof.
  exact (proj1 (proj2
           (project_ranking byte_order byte_order_antisym byte_order_trans
              "Internal"
              [ Project.mk "1" "api" "team/api" [] [] [] [] [] [] [];
                Project.mk "2" "web" "team/web" [] [] [] [] [] [] [] ]
              0 0 ltac:(discriminate)))).
Defined.

End ProjectRankingWitness.

(* ================================================================== *)
(** * Tables                                                           *)
(* ================================================================== *)

Section TableFacts.
Import Strings.String Strings.Ascii.
Import JsString Report.
Local Open Scope string_scope.

Lemma js_length_app (a b : string) :
  js_length (a ++ b) = js_length a + js_length b.
Proof.
  induction a as [|c a IH]; simpl; [reflexivity|]. rewrite IH. lia.
Qed.

Lemma string_app_assoc (a b c : string) : (a ++ b) ++ c = a ++ b ++ c.
Proof. induction a as [|x a IH]; simpl; [reflexivity|now rewrite IH]. Qed.

Lemma string_app_nil_r (a : string) : a ++ "" = a.
Proof. induction a as [|x a IH]; simpl; [reflexivity|now rewrite IH]. Qed.

Lemma spaces_length (n : nat) : js_length (spaces n) = n.
Proof.
  induction n as [|n IH]; [reflexivity|].
  change (js_length (spaces (S n))) with (1 + js_length (spaces n)).
  now rewrite IH.
Qed.

Lemma no_narrower_refl (ws : list nat) : no_narrower ws ws.
Proof. split; auto. Qed.

Lemma no_narrower_trans (a b c : list nat) :
  no_narrower a b -> no_narrower b c -> no_narrower a c.
Proof.
  intros [H1 H2] [H3 H4]. split; [lia|].
  intros j. specialize (H2 j). specialize (H4 j). lia.
Qed.

Lemma widen_no_narrower (row : list string) :
  forall ws, no_narrower ws (widen ws row).
Proof.
  induction row as [|c row IH]; intros ws.
  - destruct ws; apply no_narrower_refl.
  - destruct ws as [|w ws]; cbn [widen].
    + split; [simpl; lia|]. intros j. destruct j; simpl; lia.
    + destruct (IH ws) as [H1 H2]. split; [simpl; lia|].
      intros [|j]; simpl; [lia|apply H2].
Qed.

Lemma widen_fits (row : list string) : forall ws, fits (widen ws row) row.
Proof.
  induction row as [|c row IH]; intros ws.
  - split; [simpl; lia|]. intros j Hj. simpl in Hj. lia.
  - destruct ws as [|w ws]; cbn [widen].
    + destruct (IH []) as [H1 H2]. split; [simpl; lia|].
      intros [|j] Hj; simpl; [lia|]. apply H2. simpl in Hj. lia.
    + destruct (IH ws) as [H1 H2]. split; [simpl; lia|].
      intros [|j] Hj; simpl; [lia|]. apply H2. simpl in Hj. lia.
Qed.

Lemma fits_wider (ws ws' : list nat) (row : list string) :
  fits ws row -> no_narrower ws ws' -> fits ws' row.
Proof.
  intros [H1 H2] [H3 H4]. split; [lia|].
  intros j Hj. specialize (H2 j Hj). specialize (H4 j). lia.
Qed.

Lemma widths_fit (rows : list (list string)) :
  forall ws,
    no_narrower ws (fold_left widen rows ws)
    /\ forall row, In row rows -> fits (fold_left widen rows ws) row.
Proof.
  induction rows as [|r rows IH]; intros ws; cbn [fold_left].
  - split; [apply no_narrower_refl|intros row []].
  - destruct (IH (widen ws r)) as [H1 H2]. split.
    + eapply no_narrower_trans; [apply widen_no_narrower|exact H1].
    + intros row [<-|Hin]; [|now apply H2].
      eapply fits_wider; [apply widen_fits|exact H1].
Qed.

Lemma render_row_cell (row : list string) :
  forall ws i,
    fits ws row -> i < List.length row ->
    exists pre post,
      render_row ws row = pre ++ nth i row "" ++ post
      /\ js_length pre = column_offset ws i.
Proof.
  induction row as [|c row IH]; intros ws i Hfit Hi; [simpl in Hi; lia|].
  destruct i as [|i].
  - exists "". cbn [nth]. destruct row as [|c' row'].
    + exists "". split; [simpl; now rewrite string_app_nil_r|reflexivity].
    + eexists. split; [reflexivity|reflexivity].
  - destruct row as [|c' row']; [simpl in Hi; lia|].
    destruct Hfit as [Hlen Hcell].
    destruct ws as [|w ws]; [simpl in Hlen; lia|].
    assert (Hfit' : fits ws (c' :: row')).
    { split; [simpl in *; lia|]. intros j Hj.
      apply (Hcell (S j)). simpl in *. lia. }
    destruct (IH ws i Hfit' ltac:(simpl in *; lia)) as (pre & post & E & L).
    exists (c ++ spaces (w - js_length c + 2) ++ pre), post.
    split.
    + change (render_row (w :: ws) (c :: c' :: row'))
        with (c ++ spaces (w - js_length c + 2)
                ++ render_row ws (c' :: row')).
      rewrite E. cbn [nth].
      now rewrite !string_app_assoc.
    + rewrite !js_length_app, spaces_length, L.
      unfold column_offset. cbn [firstn map]. unfold list_sum.
      cbn [fold_right].
      specialize (Hcell 0 ltac:(simpl; lia)). simpl in Hcell. lia.
Qed.

Lemma widen_attained (row : list string) :
  forall ws j,
    j < List.length (widen ws row) ->
    (j < List.length ws /\ nth j (widen ws row) 0 = nth j ws 0)
    \/ (j < List.length row
        /\ nth j (widen ws row) 0 = js_length (nth j row "")).
Proof.
  induction row as [|c row IH]; intros ws j Hj.
  - left. destruct ws; simpl in *; [lia|split; [lia|reflexivity]].
  - destruct ws as [|w ws]; cbn [widen] in *.
    + destruct j as [|j]; [right; simpl; split; [lia|reflexivity]|].
      simpl in Hj. destruct (IH [] j ltac:(lia)) as [[H _]|[H E]];
        [simpl in H; lia|].
      right. simpl. split; [lia|exact E].
    + destruct j as [|j].
      * simpl. destruct (Nat.max_spec w (js_length c)) as [[_ E]|[_ E]];
          rewrite E; [right|left]; split; try lia; reflexivity.
      * simpl in Hj. destruct (IH ws j ltac:(lia)) as [[H E]|[H E]].
        -- left. simpl. split; [lia|exact E].
        -- right. simpl. split; [lia|exact E].
Qed.

Lemma widths_attained (rows : list (list string)) :
  forall (ws : list nat) (seen : list (list string)),
    (forall j, j < List.length ws ->
               exists row, In row seen /\ j < List.length row
                           /\ js_length (nth j row "") = nth j ws 0) ->
    forall j, j < List.length (fold_left widen rows ws) ->
              exists row, In row (List.app seen rows) /\ j < List.length row
                          /\ js_length (nth j row "")
                             = nth j (fold_left widen rows ws) 0.
Proof.
  induction rows as [|r rows IH]; intros ws seen Hseen j Hj;
    cbn [fold_left] in *.
  - rewrite app_nil_r. now apply Hseen.
  - replace (List.app seen (r :: rows))
      with (List.app (List.app seen [r]) rows)
      by (rewrite <- app_assoc; reflexivity).
    apply (IH (widen ws r)); [|exact Hj].
    intros i Hi. destruct (widen_attained r ws i Hi) as [[H E]|[H E]].
    + destruct (Hseen i H) as (row & Hin & Hlen & Hw).
      exists row. split; [apply in_or_app; now left|].
      split; [exact Hlen|]. now rewrite E.
    + exists r. split; [apply in_or_app; right; now left|].
      split; [exact H|]. now rewrite E.
Qed.

(** X15.  In a table rendered by [formatTable], a column is as wide as
    its longest cell, lengths being counted in UTF-16 code units, and the
    cell of a given index starts at the same column in every line that
    has it: the sum, over the earlier columns, of the column's width plus
    two. *)
Theorem formatTable_alignment :
  forall (rows : list (list string)) (row : list string) (i : nat),
    In row rows -> i < List.length row ->
    let widths := fold_left widen rows [] in
    formatTable rows
    = "```text" ++ nl ++ join nl (map (render_row widths) rows) ++ nl
      ++ "```"
    /\ (forall r j, In r rows -> j < List.length r ->
                    js_length (nth j r "") <= nth j widths 0)
    /\ (forall j, j < List.length widths ->
                  exists r, In r rows /\ j < List.length r
                            /\ js_length (nth j r "") = nth j widths 0)
    /\ exists pre post,
         render_row widths row = pre ++ nth i row "" ++ post
         /\ js_length pre = column_offset widths i.
Proof.
  intros rows row i Hin Hi widths.
  assert (Hfit : forall r, In r rows -> fits widths r)
    by (intros r Hr; now apply (widths_fit rows [])).
  split; [|split; [|split]].
  - unfold formatTable. destruct rows; [contradiction|reflexivity].
  - intros r j Hr Hj. now apply (Hfit r Hr).
  - intros j Hj.
    apply (widths_attained rows [] []); [|exact Hj].
    intros k Hk. simpl in Hk. lia.
  - apply render_row_cell; [now apply Hfit|exact Hi].
Qed.

Lemma formatTable_alignment_witness :
  exists pre post,
    render_row (fold_left widen [["Repo"; "PRs"]; ["api"; "12"]] [])
      ["api"; "12"]
    = pre ++ "12" ++ post
    /\ js_length pre = 6.
Proof.
  pose proof (formatTable_alignment [["Repo"; "PRs"]; ["api"; "12"]]
                ["api"; "12"] 1) as H.
  cbv zeta in H. destruct H as (_ & _ & _ & H).
  - right. left. reflexivity.
  - unfold lt. apply le_n.
  - exact H.
Defined.

End TableFacts.

(* ================================================================== *)
(** * Records collected from GitHub                                    *)
(* ================================================================== *)

Section GithubFacts.
Import Strings.String Strings.Ascii.
Import JsString Report Github.
Local Open Scope string_scope.

Lemma or_else_falsy (a : option string) (d : string) :
  truthy a = false -> or_else a d = d.
Proof.
  destruct a as [s|]; simpl; [|reflexivity]. now intros ->.
Qed.

Lemma or_else_truthy (a : option string) (d : string) :
  truthy a = true -> exists s, a = Some s /\ or_else a d = s.
Proof.
  destruct a as [s|]; simpl; [|discriminate]. intros H. exists s.
  now rewrite H.
Qed.

Lemma or_string_truthy (a b : option string) :
  truthy a = true -> or_string a b = a.
Proof.
  destruct a as [s|]; simpl; [|discriminate].
  unfold or_string, or_opt. now intros ->.
Qed.

Lemma or_string_falsy (a b : option string) :
  truthy a = false -> or_string a b = b.
Proof.
  destruct a as [s|]; simpl; [|reflexivity].
  unfold or_string, or_opt. now intros ->.
Qed.

(** X16.  A commit collected from GitHub is attributed to the login of
    its GitHub author when there is one, otherwise to the name of its git
    author, then of its committer, then to the e-mail address of the git
    author, then of the committer, and to "Unknown" when all are missing
    or empty; a pull request or an issue is attributed to the login of
    its user, or to "Unknown". *)
Theorem github_attribution :
  forall projectName : string,
    (forall commit : GithubCommit.t,
        resolveAuthorName (Some (simplify_commit projectName commit))
        = first_nonempty
            [ GithubCommit.login commit;
              GithubCommit.git_author_name commit;
              GithubCommit.committer_name commit;
              GithubCommit.git_author_email commit;
              GithubCommit.committer_email commit ]
            "Unknown")
    /\ (forall item : GithubItem.t,
          resolveAuthorName (Some (simplify_pull projectName item))
          = or_else (GithubItem.user_login item) "Unknown"
          /\ resolveAuthorName (Some (simplify_issue projectName item))
             = or_else (GithubItem.user_login item) "Unknown").
Proof.
  intros projectName. split.
  - intros [login gname gemail gdate cname cemail cdate message].
    unfold simplify_commit, resolveAuthorName, author_field.
    cbn [GithubCommit.login GithubCommit.git_author_name
         GithubCommit.committer_name GithubCommit.git_author_email
         GithubCommit.committer_email Entry.author Entry.author_name
         Entry.author_email first_nonempty].
    cbv zeta.
    destruct (truthy login) eqn:El.
    + cbn [Author.name].
      destruct (or_else_truthy login
                  (or_else (Author.username
                              (Author.mk login login None)) "x") El)
        as (s & -> & _).
      simpl in El. simpl. now rewrite El.
    + rewrite (or_string_falsy login _ El).
      rewrite (or_else_falsy login _ El).
      destruct (truthy gname) eqn:Eg.
      * rewrite (or_string_truthy gname _ Eg). rewrite Eg.
        cbn [Author.name].
        destruct gname as [g|]; [|discriminate]. simpl in Eg. simpl.
        now rewrite Eg.
      * rewrite (or_string_falsy gname _ Eg).
        rewrite (or_else_falsy gname _ Eg).
        destruct (truthy cname) eqn:Ec.
        -- rewrite (or_string_truthy cname _ Ec). rewrite Ec.
           cbn [Author.name].
           destruct cname as [c|]; [|discriminate]. simpl in Ec. simpl.
           now rewrite Ec.
        -- rewrite (or_string_falsy cname _ Ec). cbn [truthy].
           rewrite (or_else_falsy cname _ Ec).
           cbn [or_else].
           destruct (truthy gemail) eqn:Ee.
           ++ rewrite (or_string_truthy gemail _ Ee).
              destruct gemail as [e|]; [|discriminate]. simpl in Ee. simpl.
              now rewrite Ee.
           ++ rewrite (or_string_falsy gemail _ Ee).
              rewrite (or_else_falsy gemail _ Ee).
              destruct (truthy cemail) eqn:Ece.
              ** rewrite (or_string_truthy cemail _ Ece). reflexivity.
              ** rewrite (or_string_falsy cemail _ Ece).
                 now rewrite (or_else_falsy cemail _ Ece).
  - intros item.
    unfold simplify_pull, simplify_issue, resolveAuthorName, author_field,
      item_author.
    cbn [Entry.author Entry.author_name Entry.author_email].
    destruct (GithubItem.user_login item) as [l|]; simpl; [|now split].
    destruct (nonempty l) eqn:E; simpl; rewrite ?E; now split.
Qed.

(** X17.  What [collectForGithubRepo] keeps lies strictly inside the
    window: every commit by its date, every opened pull request or issue
    by its creation, every merged pull request by its merge and every
    closed issue by its closing; nothing is collected without a token.
    When the window does not begin before the month, the issues opened or
    closed in the window are among those of the month to date. *)
Theorem collectForGithubRepo_window :
  forall (repoInfo : option GithubRepoInfo.t) (fullName : string)
         (since until monthStart : Z)
         (commitsRaw : list GithubCommit.t)
         (pullsRaw issuesRaw : list GithubItem.t),
    collectForGithubRepo false repoInfo fullName since until monthStart
      commitsRaw pullsRaw issuesRaw = None
    /\ exists project,
         collectForGithubRepo true repoInfo fullName since until monthStart
           commitsRaw pullsRaw issuesRaw = Some project
         /\ Project.projectId project = Project.projectPath project
         /\ Forall (fun e => exists t, Entry.created_at e = Some t
                                       /\ (since < t < until)%Z)
              (Project.commits project ++ Project.mrsOpened project
               ++ Project.issuesOpened project)%list
         /\ Forall (fun e => exists t, Entry.merged_at e = Some t
                                       /\ (since < t < until)%Z)
              (Project.mrsMerged project)
         /\ Forall (fun e => exists t, Entry.closed_at e = Some t
                                       /\ (since < t < until)%Z)
              (Project.issuesClosed project)
         /\ ((monthStart <= since)%Z ->
             incl (Project.issuesOpened project)
                  (Project.monthIssuesOpened project)
             /\ incl (Project.issuesClosed project)
                     (Project.monthIssuesClosed project)).
Proof.
  intros repoInfo fullName since until monthStart commitsRaw pullsRaw
    issuesRaw.
  split; [reflexivity|].
  eexists. split; [reflexivity|].
  cbn [Project.projectId Project.projectPath Project.commits
       Project.mrsOpened Project.mrsMerged Project.issuesOpened
       Project.issuesClosed Project.monthIssuesOpened
       Project.monthIssuesClosed].
  assert (Hw : forall d, in_window since until d = true ->
                 exists t, d = Some t /\ (since < t < until)%Z).
  { intros [t|] H; [|discriminate]. exists t. split; [reflexivity|].
    simpl in H. apply Bool.andb_true_iff in H. destruct H as [H1 H2].
    apply Z.ltb_lt in H1. apply Z.ltb_lt in H2. lia. }
  split; [reflexivity|]. split; [|split; [|split]].
  - rewrite !Forall_app. repeat split.
    + apply Forall_forall. intros e He. apply in_map_iff in He.
      destruct He as (c & <- & Hc). apply filter_In in Hc.
      destruct Hc as [_ Hc]. exact (Hw _ Hc).
    + apply Forall_forall. intros e He. apply filter_In in He.
      destruct He as [_ He]. exact (Hw _ He).
    + apply Forall_forall. intros e He. apply filter_In in He.
      destruct He as [_ He]. exact (Hw _ He).
  - apply Forall_forall. intros e He. apply filter_In in He.
    destruct He as [_ He]. exact (Hw _ He).
  - apply Forall_forall. intros e He. apply filter_In in He.
    destruct He as [_ He]. exact (Hw _ He).
  - intros Hm.
    assert (Hin : forall d, in_window since until d = true ->
                    in_month monthStart until d = true).
    { intros d H. destruct (Hw d H) as (t & -> & Ht). simpl.
      apply Bool.andb_true_iff. split.
      - apply Bool.negb_true_iff. apply Z.ltb_ge. lia.
      - apply Z.ltb_lt. lia. }
    split; intros e He; apply filter_In in He; destruct He as [He Hd];
      apply filter_In; (split; [exact He|now apply Hin]).
Qed.

Lemma collectForGithubRepo_window_witness :
  exists project,
    collectForGithubRepo true None "team/api" 0 100 0 []
      [] [GithubItem.mk (Some 1) (Some 7) (Some "Crash") (Some "ann")
            (Some 10%Z) None None (Some 20%Z) None]
    = Some project
    /\ incl (Project.issuesOpened project) (Project.monthIssuesOpened project).
Proof.
  destruct (proj2 (collectForGithubRepo_window None "team/api" 0 100 0 []
              [] [GithubItem.mk (Some 1) (Some 7) (Some "Crash") (Some "ann")
                    (Some 10%Z) None None (Some 20%Z) None]))
    as (project & Hp & _ & _ & _ & _ & Hm).
  exists project. split; [exact Hp|].
  apply Hm. apply Z.le_refl.
Defined.

End GithubFacts.

(* ================================================================== *)
(** * Same-day fixes                                                   *)
(* ================================================================== *)

Section SameDay.
Import JsNumber.
Local Open Scope Z_scope.

Lemma of_Z_hour : of_Z 3600000 = S754_finite false 7730941132800000 (-31).
Proof. vm_compute. reflexivity. Qed.

Lemma of_Z_24 : of_Z 24 = S754_finite false 6755399441055744 (-48).
Proof. vm_compute. reflexivity. Qed.

(** The Number of a negative integer above [-2^53]. *)
Lemma of_Z_normal_neg (z : Z) :
  - 2 ^ 53 < z < 0 ->
  exists (m : positive) (e : Z),
    of_Z z = S754_finite true m e
    /\ Z.pos (digits2_pos m) = 53
    /\ -52 <= e <= 0.
Proof.
  intros Hz. destruct z as [|p|p]; [lia|lia|].
  assert (Hp : Z.pos p < 2 ^ 53) by lia.
  unfold of_Z, prec, emax, binary_normalize, binary_round.
  pose proof (digits2_pos_bounds p) as Hb.
  set (d := Z.pos (digits2_pos p)) in *.
  assert (Hd : 1 <= d <= 53).
  { split; [unfold d; lia|].
    destruct (Z.le_gt_cases d 53) as [H|H]; [exact H|].
    assert (2 ^ 53 <= 2 ^ (d - 1)) by (apply Z.pow_le_mono_r; lia). lia. }
  replace (fexp 53 1024 (d + 0)) with (d - 53)
    by (change (fexp 53 1024 (d + 0)) with (fexp64 (d + 0));
        rewrite fexp64_eq; lia).
  unfold shl_align.
  destruct (d - 53 - 0) as [|k|k] eqn:Ek; [| lia |].
  - assert (E53 : d = 53) by lia.
    rewrite binary_round_aux_exact by (unfold d in *; lia).
    exists p, 0. repeat split; try lia; exact E53.
  - assert (Hk : Z.pos k = 53 - d) by lia.
    assert (Hv : Z.pos (Pos.iter xO p k) = Z.pos p * 2 ^ (53 - d))
      by (rewrite iter_xO, Hk; reflexivity).
    assert (Hpk : 0 < 2 ^ (53 - d)) by (apply pow2_pos; lia).
    assert (Hdig : Z.pos (digits2_pos (Pos.iter xO p k)) = 53).
    { apply digits2_pos_unique. rewrite Hv.
      replace (2 ^ (53 - 1)) with (2 ^ (d - 1) * 2 ^ (53 - d))
        by (rewrite <- pow2_split by lia; f_equal; lia).
      replace (2 ^ 53) with (2 ^ d * 2 ^ (53 - d))
        by (rewrite <- pow2_split by lia; f_equal; lia).
      split.
      - apply Z.mul_le_mono_nonneg_r; lia.
      - apply Z.mul_lt_mono_pos_r; lia. }
    rewrite binary_round_aux_exact by (try exact Hdig; lia).
    exists (Pos.iter xO p k), (d - 53).
    split; [reflexivity|]. split; [exact Hdig|lia].
Qed.

(** The quotient of a negative by a positive 53-digit mantissa is a
    negative finite number. *)
Lemma div_negative (ma mb : positive) (ea eb : Z) :
  Z.pos (digits2_pos ma) = 53 -> Z.pos (digits2_pos mb) = 53 ->
  -52 <= ea <= 0 -> -52 <= eb <= 0 ->
  exists (mq : positive) (eq : Z),
    SFdiv 53 1024 (S754_finite true ma ea) (S754_finite false mb eb)
    = S754_finite true mq eq.
Proof.
  intros Hda Hdb Hea Heb.
  pose proof (digits2_pos_bounds ma) as Hba. rewrite Hda in Hba.
  pose proof (digits2_pos_bounds mb) as Hbb. rewrite Hdb in Hbb.
  change (2 ^ (53 - 1)) with (2 ^ 52) in *.
  unfold SFdiv, SFdiv_core_binary. cbn [Zdigits2 xorb].
  rewrite Hda, Hdb.
  replace (Z.min (fexp 53 1024 (53 + ea - (53 + eb))) (ea - eb))
    with (ea - eb - 53)
    by (change (fexp 53 1024 (53 + ea - (53 + eb)))
          with (fexp64 (53 + ea - (53 + eb))); rewrite fexp64_eq; lia).
  replace (ea - eb - (ea - eb - 53)) with 53 by lia.
  cbv iota.
  rewrite Z.shiftl_mul_pow2 by lia.
  pose proof (Z_div_mod (Z.pos ma * 2 ^ 53) (Z.pos mb) ltac:(lia)) as Hdm.
  destruct (Z.div_eucl (Z.pos ma * 2 ^ 53) (Z.pos mb)) as [q r].
  destruct Hdm as [Hdm Hr].
  assert (Hq : 2 ^ 52 <= q < 2 ^ 54).
  { change (2 ^ 52) with 4503599627370496 in *.
    change (2 ^ 53) with 9007199254740992 in *.
    change (2 ^ 54) with 18014398509481984. nia. }
  destruct q as [|q|q]; [lia| |lia].
  pose proof (digits2_pos_bounds q) as Hbq.
  set (d := Z.pos (digits2_pos q)) in *.
  assert (Hd : 53 <= d <= 54).
  { split.
    - destruct (Z.le_gt_cases 53 d) as [H|H]; [exact H|].
      assert (2 ^ d <= 2 ^ 52) by (apply Z.pow_le_mono_r; lia). lia.
    - destruct (Z.le_gt_cases d 54) as [H|H]; [exact H|].
      assert (2 ^ 54 <= 2 ^ (d - 1)) by (apply Z.pow_le_mono_r; lia). lia. }
  destruct (binary_round_aux_spec true q (ea - eb - 53)
              (new_location (Z.pos mb) r) (Z.pos ma * 2 ^ 53) (Z.pos mb))
    as (mq & g & Hres & _); try (fold d; lia).
  { apply new_location_located; lia. }
  exists mq, (ea - eb - 53 + g). exact Hres.
Qed.

(** The quotient by the milliseconds of an hour, against [24]: the
    mantissa [mq] and the scale [s] of the quotient of [d]. *)
Lemma hours_quotient (d : Z) :
  0 < d < 2 ^ 53 ->
  exists (mq : positive) (s : Z),
    div (of_Z d) (of_Z 3600000) = S754_finite false mq (- s)
    /\ 2 ^ 52 <= Z.pos mq < 2 ^ 53
    /\ 20 <= s <= 74
    /\ - 3600000 <= 2 * (Z.pos mq * 3600000 - d * 2 ^ s) <= 3600000.
Proof.
  intros Hd.
  destruct (of_Z_normal d Hd) as (ma & ea & Ha & Hda & Hea & Hma).
  destruct (div_spec ma 7730941132800000 ea (-31) Hda eq_refl Hea
              ltac:(lia)) as (mq & g & Hres & Hmq & Hg & Herr).
  exists mq, (- ea + 22 - g).
  split.
  { rewrite Ha, of_Z_hour. unfold div, prec, emax. rewrite Hres.
    f_equal. lia. }
  split; [exact Hmq|]. split; [lia|].
  rewrite Hma in Herr.
  assert (Hg31 : 0 < 2 ^ (g + 31)) by (apply pow2_pos; lia).
  assert (E1 : 2 ^ g * 7730941132800000 = 3600000 * 2 ^ (g + 31)).
  { rewrite pow2_split by lia. change (2 ^ 31) with 2147483648. ring. }
  assert (E2 : Z.pos mq * 2 ^ g * 7730941132800000
               = Z.pos mq * 3600000 * 2 ^ (g + 31)).
  { rewrite pow2_split by lia. change (2 ^ 31) with 2147483648. ring. }
  assert (E3 : d * 2 ^ (- ea) * 2 ^ 53
               = d * 2 ^ (- ea + 22 - g) * 2 ^ (g + 31)).
  { rewrite <- !Z.mul_assoc. f_equal. rewrite <- !pow2_split by lia.
    f_equal. lia. }
  change (Z.pos 7730941132800000) with 7730941132800000 in Herr.
  rewrite E1, E2, E3 in Herr.
  set (P := 2 ^ (g + 31)) in *. set (S := 2 ^ (- ea + 22 - g)) in *.
  split.
  - apply (Z.mul_le_mono_pos_r _ _ P Hg31). lia.
  - apply (Z.mul_le_mono_pos_r _ _ P Hg31). lia.
Qed.

Lemma compare_cont_Eq (p q : positive) :
  PosDef.Pos.compare_cont Eq p q = Pos.compare p q.
Proof. reflexivity. Qed.

Lemma pow2_le_mono (a b : Z) : 0 <= a <= b -> 2 ^ a <= 2 ^ b.
Proof. intros H. apply Z.pow_le_mono_r; lia. Qed.

Lemma hours_within_day (d : Z) :
  0 < d < 2 ^ 53 ->
  (leb (div (of_Z d) (of_Z 3600000)) (of_Z 24) = true <-> d <= 86400000).
Proof.
  intros Hd.
  destruct (hours_quotient d Hd) as (mq & s & -> & Hmq & Hs & Herr).
  rewrite of_Z_24. unfold leb, SFleb, SFcompare.
  change (2 ^ 52) with 4503599627370496 in Hmq.
  change (2 ^ 53) with 9007199254740992 in Hmq, Hd.
  destruct (Z.compare_spec (- s) (-48)) as [Es|Es|Es].
  - assert (s = 48) by lia. subst s.
    change (2 ^ 48) with 281474976710656 in Herr.
    rewrite (compare_cont_Eq mq).
    rewrite (Pos2Z.inj_compare mq 6755399441055744).
    destruct (Z.compare_spec (Z.pos mq) (Z.pos 6755399441055744))
      as [Em|Em|Em]; split; intros H; try reflexivity; try discriminate;
      lia.
  - assert (H49 : 2 ^ 49 <= 2 ^ s) by (apply pow2_le_mono; lia).
    change (2 ^ 49) with 562949953421312 in H49.
    split; [intros _|reflexivity].
    destruct (Z.le_gt_cases d 86400000) as [H|H]; [exact H|exfalso].
    assert (86400001 * 562949953421312 <= d * 2 ^ s).
    { transitivity (d * 562949953421312).
      - apply Z.mul_le_mono_nonneg_r; lia.
      - apply Z.mul_le_mono_nonneg_l; lia. }
    lia.
  - assert (H47 : 2 ^ s <= 2 ^ 47) by (apply pow2_le_mono; lia).
    change (2 ^ 47) with 140737488355328 in H47.
    assert (Hps : 0 < 2 ^ s) by (apply pow2_pos; lia).
    split; [discriminate|]. intros H. exfalso.
    assert (d * 2 ^ s <= 86400000 * 140737488355328).
    { transitivity (d * 140737488355328).
      - apply Z.mul_le_mono_nonneg_l; lia.
      - apply Z.mul_le_mono_nonneg_r; lia. }
    lia.
Qed.

Lemma hours_not_positive (d : Z) :
  - 2 ^ 53 < d <= 0 ->
  leb (div (of_Z d) (of_Z 3600000)) (of_Z 24) = true.
Proof.
  intros Hd. destruct (Z.eq_dec d 0) as [->|Hne]; [reflexivity|].
  destruct (of_Z_normal_neg d ltac:(lia)) as (ma & ea & Ha & Hda & Hea).
  destruct (div_negative ma 7730941132800000 ea (-31) Hda eq_refl Hea
              ltac:(lia)) as (mq & eq & Hres).
  rewrite Ha, of_Z_hour, of_Z_24. unfold div, prec, emax. rewrite Hres.
  reflexivity.
Qed.

End SameDay.

Section SameDayClaim.
Import Report.
Local Open Scope Z_scope.

(** X18.  A closed issue counts as a same-day fix exactly when it was
    closed at most 86,400,000 milliseconds after it was created, an issue
    closed before it was created included; an issue without a creation or
    closing date never counts. *)
Theorem same_day_threshold :
  forall issue : Entry.t,
    (forall closed created,
        Entry.closed_at issue = Some closed ->
        Entry.created_at issue = Some created ->
        - 2 ^ 53 < closed - created < 2 ^ 53 ->
        (same_day issue = true <-> closed - created <= 86400000))
    /\ (Entry.closed_at issue = None \/ Entry.created_at issue = None ->
        same_day issue = false).
Proof.
  intros issue. split.
  - intros closed created Hc Hr Hd. unfold same_day, diff_hours.
    rewrite Hc, Hr.
    destruct (Z.lt_ge_cases 0 (closed - created)) as [Hpos|Hneg].
    + apply hours_within_day. lia.
    + split; [intros _; lia|intros _].
      apply hours_not_positive. lia.
  - unfold same_day. intros [-> | ->]; [reflexivity|].
    now destruct (Entry.closed_at issue).
Qed.

Lemma same_day_threshold_witness :
  same_day (Entry.mk (Some 1%nat) None None None None None
              (Some 1700000000000) None None (Some 1700086400000) None None)
  = true.
Proof.
  apply (proj1 (same_day_threshold
                  (Entry.mk (Some 1%nat) None None None None None
                     (Some 1700000000000) None None (Some 1700086400000)
                     None None))
           1700086400000 1700000000000 eq_refl eq_refl).
  - split; reflexivity.
  - apply Z.leb_le. reflexivity.
Defined.

End SameDayClaim.

(* ================================================================== *)
(** * Paging through the pull requests                                 *)
(* ================================================================== *)

Section PullPages.
Import Github.
Local Open Scope Z_scope.

Lemma last_in {A : Type} (l : list A) (d : A) : l <> [] -> In (last l d) l.
Proof.
  induction l as [|x l IH]; [contradiction|]. intros _.
  destruct l as [|y l]; [now left|].
  right. apply IH. discriminate.
Qed.

Lemma sorted_after_last (R : GithubItem.t -> GithubItem.t -> Prop)
    (data rest : list GithubItem.t) :
  data <> [] -> StronglySorted R (data ++ rest) ->
  forall b, In b rest -> R (last data no_item) b.
Proof.
  intros Hne Hs b Hb.
  destruct (exists_last Hne) as (init & x & ->).
  rewrite last_last. rewrite <- app_assoc in Hs. simpl in Hs. clear Hne.
  induction init as [|y init IH]; simpl in Hs;
    apply StronglySorted_inv in Hs; destruct Hs as [Hs Hall].
  - rewrite Forall_forall in Hall. now apply Hall.
  - now apply IH.
Qed.

(** X19.  [fetchGithubPulls] collects a beginning of the server's listing
    of pull requests, and nothing without a token.  When the listing runs
    from the most recently updated to the least, everything it leaves out
    was last updated before the cutoff: stopping at a page whose last
    item is older than the cutoff loses no pull request updated since. *)
Theorem fetchGithubPulls_complete :
  forall (cutoff : Z) (pages : list (list GithubItem.t * bool)),
    fetchGithubPulls false cutoff pages = []
    /\ exists left_out,
         listing pages = fetchGithubPulls true cutoff pages ++ left_out
         /\ (StronglySorted updated_no_earlier (listing pages) ->
             Forall (fun p => exists t, GithubItem.updated_at p = Some t
                                        /\ t < cutoff)
               left_out).
Proof.
  intros cutoff pages. split; [now destruct pages|].
  induction pages as [|[data next] rest IH].
  - exists []. split; [reflexivity|constructor].
  - destruct data as [|x data].
    + exists []. split; [reflexivity|constructor].
    + set (d := x :: data) in *.
      assert (Hd : d <> []) by discriminate.
      change (listing ((d, next) :: rest))
        with (d ++ (if negb next then [] else listing rest)).
      change (fetchGithubPulls true cutoff ((d, next) :: rest))
        with (d ++ (if negb next then []
                    else
                      match GithubItem.updated_at (last d no_item) with
                      | Some lastUpdated =>
                          if lastUpdated <? cutoff then []
                          else fetchGithubPulls true cutoff rest
                      | None => fetchGithubPulls true cutoff rest
                      end)).
      destruct next; cbn [negb].
      * destruct IH as (left_out & Hl & Hs).
        assert (Hgo : exists out,
                   listing rest = fetchGithubPulls true cutoff rest ++ out
                   /\ (StronglySorted updated_no_earlier (d ++ listing rest)
                       -> Forall (fun p => exists t,
                                    GithubItem.updated_at p = Some t
                                    /\ t < cutoff) out)).
        { exists left_out. split; [exact Hl|]. intros Hsort. apply Hs.
          clear - Hsort. induction d as [|y d IHd]; [exact Hsort|].
          simpl in Hsort. inversion Hsort; subst. now apply IHd. }
        destruct (GithubItem.updated_at (last d no_item)) as [t|] eqn:Et.
        -- destruct (Z.ltb_spec t cutoff) as [Hlt|Hge].
           ++ exists (listing rest). split; [now rewrite app_nil_r|].
              intros Hsort. apply Forall_forall. intros b Hb.
              destruct (sorted_after_last _ d (listing rest) Hd Hsort b Hb)
                as (ta & tb & Ha & Hb' & Hle).
              rewrite Et in Ha. injection Ha as <-.
              exists tb. split; [exact Hb'|lia].
           ++ destruct Hgo as (out & Hl' & Hs'). exists out.
              split; [now rewrite Hl', app_assoc|exact Hs'].
        -- destruct Hgo as (out & Hl' & Hs'). exists out.
           split; [now rewrite Hl', app_assoc|exact Hs'].
      * exists []. split; [now rewrite !app_nil_r|constructor].
Qed.

Lemma fetchGithubPulls_complete_witness :
  exists left_out,
    listing
      [ ([GithubItem.mk (Some 1%nat) None None None None (Some 50) None None
            None], true);
        ([GithubItem.mk (Some 2%nat) None None None None (Some 10) None None
            None], false) ]
    = fetchGithubPulls true 20
        [ ([GithubItem.mk (Some 1%nat) None None None None (Some 50) None
              None None], true);
          ([GithubItem.mk (Some 2%nat) None None None None (Some 10) None
              None None], false) ]
      ++ left_out
    /\ Forall (fun p => exists t, GithubItem.updated_at p = Some t /\ t < 20)
         left_out.
Proof.
  destruct (proj2 (fetchGithubPulls_complete 20
              [ ([GithubItem.mk (Some 1%nat) None None None None (Some 50)
                    None None None], true);
                ([GithubItem.mk (Some 2%nat) None None None None (Some 10)
                    None None None], false) ]))
    as (left_out & Hl & Hs).
  exists left_out. split; [exact Hl|]. apply Hs.
  constructor; [constructor; [constructor|constructor]|].
  constructor; [|constructor].
  exists 50, 10. repeat split. discriminate.
Defined.

End PullPages.
